(** * SQL Schema Visualizer backend: a shallow embedding of the database
      access engine and proofs about it.

    The development follows the layout of the repository:

    - [Js]              the JavaScript string primitives the code relies on
    - [Vault]           [core/encryption.js]   (encrypt / decrypt)
    - [PoolManager]     [core/pool-manager.ts] (ConnectionManager)
    - [SchemaAnalyzer]  [modules/ai/schema-analyzer.ts]
    - [Regex], [QueryValidator]  [modules/ai/query-validator]
    - [QueryService]    [modules/query/query.service.js]
    - [Workspace]       [modules/workspace/workspace.controller.ts]

    Conventions.  A JavaScript string is a Rocq [string]; text is identified
    with its UTF-8 byte sequence, which is exact for well-formed text, and
    the case and white-space primitives are the ASCII ones, which is exact
    on ASCII input.  A [Buffer] is a [list byte].  A [Map] or a plain object
    used as a dictionary is a [gmap]; where insertion order is observable
    (the table map of [parseSchema]) an association list is used instead.
    A function that may throw returns an [option] or a [Result]. *)

From Stdlib Require Import String Ascii List ZArith NArith Lia Bool.
From Stdlib Require Import Strings.Byte.
From stdpp Require Import gmap strings list pretty.

Import ListNotations.
Local Open Scope string_scope.

(** ** JavaScript string primitives *)

Module Js.

Definition is_upper (c : ascii) : bool :=
  let n := N_of_ascii c in ((65 <=? n) && (n <=? 90))%N.

Definition is_lower (c : ascii) : bool :=
  let n := N_of_ascii c in ((97 <=? n) && (n <=? 122))%N.

Definition is_digit (c : ascii) : bool :=
  let n := N_of_ascii c in ((48 <=? n) && (n <=? 57))%N.

Definition upper_char (c : ascii) : ascii :=
  if is_lower c then ascii_of_N (N_of_ascii c - 32) else c.

Definition lower_char (c : ascii) : ascii :=
  if is_upper c then ascii_of_N (N_of_ascii c + 32) else c.

(** [\s] and the characters removed by [trim]: tab, line feed, vertical tab,
    form feed, carriage return and space. *)
Definition is_space (c : ascii) : bool :=
  let n := N_of_ascii c in (((9 <=? n) && (n <=? 13)) || (n =? 32))%N.

Fixpoint map_string (f : ascii -> ascii) (s : string) : string :=
  match s with
  | EmptyString => EmptyString
  | String c r => String (f c) (map_string f r)
  end.

Definition toUpperCase : string -> string := map_string upper_char.
Definition toLowerCase : string -> string := map_string lower_char.

(** [s.startsWith(p)] *)
Definition startsWith (s p : string) : bool := String.prefix p s.

Fixpoint rev_string (s : string) : string :=
  match s with
  | EmptyString => EmptyString
  | String c r => rev_string r +:+ String c EmptyString
  end.

(** [s.endsWith(p)] *)
Definition endsWith (s p : string) : bool :=
  String.prefix (rev_string p) (rev_string s).

(** [s.includes(p)] *)
Fixpoint includes (s p : string) : bool :=
  String.prefix p s ||
  match s with
  | EmptyString => false
  | String _ r => includes r p
  end.

Fixpoint trimStart (s : string) : string :=
  match s with
  | EmptyString => EmptyString
  | String c r => if is_space c then trimStart r else s
  end.

Definition trim (s : string) : string :=
  rev_string (trimStart (rev_string (trimStart s))).

(** Number of occurrences of one character: [(s.match(/c/g) || []).length]. *)
Fixpoint count_char (c : ascii) (s : string) : nat :=
  match s with
  | EmptyString => 0
  | String d r => (if Ascii.eqb d c then 1 else 0) + count_char c r
  end.

(** [s.split(sep)] for a one-character separator.  The result is never
    empty: [''.split(':')] is [['']]. *)
Fixpoint split (sep : ascii) (s : string) : list string :=
  match s with
  | EmptyString => [EmptyString]
  | String c r =>
      if Ascii.eqb c sep then EmptyString :: split sep r
      else match split sep r with
           | f :: fs => String c f :: fs
           | [] => [String c EmptyString]
           end
  end.

(** Truthiness of a string: only [''] is falsy. *)
Definition truthy (s : string) : bool :=
  match s with EmptyString => false | _ => true end.

End Js.

(** ** Credential vault: [core/encryption.js] *)

Module Vault.

Definition Buffer := list byte.

Definition IV_LENGTH : nat := 16.
Definition TAG_LENGTH : nat := 16.

(** *** Hexadecimal encoding of buffers *)

Definition hex_digit (n : N) : ascii :=
  nth (N.to_nat n)
      ["0"; "1"; "2"; "3"; "4"; "5"; "6"; "7";
       "8"; "9"; "a"; "b"; "c"; "d"; "e"; "f"]%char "0"%char.

Definition hex_of_byte (b : byte) (rest : string) : string :=
  String (hex_digit (Byte.to_N b / 16))
         (String (hex_digit (Byte.to_N b mod 16)) rest).

(** [buf.toString('hex')] *)
Fixpoint toString_hex (buf : Buffer) : string :=
  match buf with
  | [] => EmptyString
  | b :: r => hex_of_byte b (toString_hex r)
  end.

Definition isSome {T} (o : option T) : bool :=
  match o with Some _ => true | None => false end.

Definition hex_value (c : ascii) : option N :=
  let n := N_of_ascii c in
  if Js.is_digit c then Some (n - 48)%N
  else if ((97 <=? n) && (n <=? 102))%N then Some (n - 87)%N
  else if ((65 <=? n) && (n <=? 70))%N then Some (n - 55)%N
  else None.

(** [Buffer.from(s, 'hex')]: characters are read two at a time and decoding
    stops at the first pair that is not hexadecimal (or at a lone trailing
    character). *)
Fixpoint from_hex (s : string) : Buffer :=
  match s with
  | String c1 (String c2 r) =>
      match hex_value c1, hex_value c2 with
      | Some h, Some l =>
          match Byte.of_N (16 * h + l) with
          | Some b => b :: from_hex r
          | None => []
          end
      | _, _ => []
      end
  | _ => []
  end.

(** *** The cipher

    [crypto.createCipheriv('aes-256-gcm', KEY, iv)] and its decipher are the
    runtime's; they are taken as an interface.  [cipher_init] tells whether
    the constructor accepts a key and a nonce, [gcm_encrypt] is the output of
    [update] followed by [final], [gcm_tag] is [getAuthTag()],
    [tag_accepted] tells whether [setAuthTag] accepts a tag, [gcm_decrypt]
    is the output of the decipher's [update], and [gcm_verify] tells whether
    the decipher's [final] succeeds rather than throws. *)
Class Aead := {
  cipher_init : Buffer -> Buffer -> bool;
  gcm_encrypt : Buffer -> Buffer -> Buffer -> Buffer;
  gcm_tag : Buffer -> Buffer -> Buffer -> Buffer;
  tag_accepted : Buffer -> bool;
  gcm_decrypt : Buffer -> Buffer -> Buffer -> Buffer;
  gcm_verify : Buffer -> Buffer -> Buffer -> Buffer -> bool
}.

(** What an authenticated cipher guarantees to an honest user: a 32-byte key
    and a 16-byte nonce are accepted, the tag it produces is accepted and
    verifies, and decryption inverts encryption. *)
Class AeadCorrect (A : Aead) : Prop := {
  init_ok : forall k iv,
    length k = 32 -> length iv = IV_LENGTH -> cipher_init k iv = true;
  tag_ok : forall k iv ct, tag_accepted (gcm_tag k iv ct) = true;
  verify_ok : forall k iv pt,
    gcm_verify k iv (gcm_encrypt k iv pt) (gcm_tag k iv (gcm_encrypt k iv pt)) = true;
  decrypt_ok : forall k iv pt, gcm_decrypt k iv (gcm_encrypt k iv pt) = pt
}.

Section WithCipher.

Context {A : Aead}.

(** [KEY = Buffer.from(process.env.ENCRYPTION_KEY, 'hex')] *)
Variable KEY : Buffer.

(** [encrypt(text)], with the nonce drawn by [crypto.randomBytes(IV_LENGTH)]
    made an argument.  [None] stands for an exception. *)
Definition encrypt (iv : Buffer) (text : string) : option string :=
  if cipher_init KEY iv then
    let encrypted := toString_hex (gcm_encrypt KEY iv (list_byte_of_string text)) in
    let authTag := toString_hex (gcm_tag KEY iv (gcm_encrypt KEY iv (list_byte_of_string text))) in
    Some (toString_hex iv +:+ ":" +:+ authTag +:+ ":" +:+ encrypted)
  else None.

(** [decrypt(hash)].  The destructuring [[ivHex, authTagHex, encryptedText]]
    takes the first three fields of [hash.split(':')]; a missing second field
    makes [Buffer.from(undefined, 'hex')] throw and a missing third one makes
    [decipher.update(undefined, ...)] throw.  [decipher.update] also throws
    on a third field with an odd number of characters, which is no
    hexadecimal string for it, and decodes any other as [Buffer.from] does.
    [decipher.final] throws when the tag does not verify, and then the text
    already returned by [update] is lost with the exception. *)
Definition decrypt (hash : string) : option string :=
  match Js.split ":" hash with
  | ivHex :: authTagHex :: fields =>
      let iv := from_hex ivHex in
      let authTag := from_hex authTagHex in
      if negb (cipher_init KEY iv) then None
      else if negb (tag_accepted authTag) then None
      else match fields with
           | encryptedText :: _ =>
               if negb (Nat.even (String.length encryptedText)) then None else
               let decrypted :=
                 string_of_list_byte (gcm_decrypt KEY iv (from_hex encryptedText)) in
               if gcm_verify KEY iv (from_hex encryptedText) authTag
               then Some (decrypted +:+ "")
               else None
           | [] => None
           end
  | _ => None
  end.

End WithCipher.

(** A token in the documented format: exactly three fields, a 16-byte nonce
    and a 16-byte tag in hexadecimal followed by hexadecimal ciphertext. *)
Fixpoint all_hex (s : string) : bool :=
  match s with
  | EmptyString => true
  | String c r => isSome (hex_value c) && all_hex r
  end.

Definition well_formed_token (hash : string) : bool :=
  match Js.split ":" hash with
  | [ivHex; authTagHex; encryptedText] =>
      all_hex ivHex && all_hex authTagHex && all_hex encryptedText
      && Nat.eqb (String.length ivHex) (2 * IV_LENGTH)
      && Nat.eqb (String.length authTagHex) (2 * TAG_LENGTH)
      && Nat.even (String.length encryptedText)
  | _ => false
  end.

End Vault.

(** ** Shared types: [modules/ai/types/ai.types.ts] *)

Module Types.

Inductive DatabaseType := postgres | mysql.

(** The value interpolated by a template literal. *)
Definition DatabaseType_string (d : DatabaseType) : string :=
  match d with postgres => "postgres" | mysql => "mysql" end.

Record ColumnMetadata := {
  columnName : string;
  dataType : string;
  isNullable : bool;
  isUnique : option bool;
  isForeignKey : option bool;
  foreignKeyReference : option string
}.

Record IndexMetadata := {
  indexName : string;
  indexColumns : list string;
  indexIsUnique : bool
}.

Record TableMetadata := {
  tableName : string;
  columns : list ColumnMetadata;
  primaryKey : option (list string);
  indexes : option (list IndexMetadata);
  rowCount : option nat
}.

Inductive RelationshipType := ONE_TO_MANY | ONE_TO_ONE | MANY_TO_MANY.

Record RelationshipMetadata := {
  fromTable : string;
  toTable : string;
  fromColumn : string;
  toColumn : string;
  relType : RelationshipType
}.

(** [cachedAt] is a [Date]; it is kept as milliseconds since the epoch. *)
Record SchemaContext := {
  tables : list TableMetadata;
  relationships : list RelationshipMetadata;
  databaseType : DatabaseType;
  cachedAt : Z
}.

Record ValidateQueryResponse := {
  isValid : bool;
  errors : list string;
  warnings : list string;
  indexes_hint : option (list string);
  suggestedIndexes : option (list string)
}.

End Types.

(** ** Regular expressions

    The validator is written with JavaScript regular expressions.  They are
    embedded as syntax trees and run by a backtracking matcher which tries
    alternatives in the order the language prescribes (left alternative
    first, greedy repetition first), so that [match], [test] and [replace]
    return what the runtime returns on ASCII subjects. *)

Module Regex.

Inductive CharClass :=
| One (c : ascii)
| Range (lo hi : ascii)
| Space
| AnyChar
| Union (a b : CharClass).

Inductive Re :=
| Eps
| Chr (cls : CharClass)
| Seq (a b : Re)
| Alt (a b : Re)
| Star (a : Re)
| WordBoundary
| NotFollowedBy (a : Re)
| EndOfInput.

Definition Plus (a : Re) : Re := Seq a (Star a).

Fixpoint Lit (s : string) : Re :=
  match s with
  | EmptyString => Eps
  | String c EmptyString => Chr (One c)
  | String c r => Seq (Chr (One c)) (Lit r)
  end.

Fixpoint in_class (cls : CharClass) (c : ascii) : bool :=
  match cls with
  | One d => Ascii.eqb c d
  | Range lo hi => ((N_of_ascii lo <=? N_of_ascii c) && (N_of_ascii c <=? N_of_ascii hi))%N
  | Space => Js.is_space c
  | AnyChar => true
  | Union a b => in_class a c || in_class b c
  end.

(** With the [i] flag a character matches when one of its case variants
    does. *)
Definition class_matches (ignoreCase : bool) (cls : CharClass) (c : ascii) : bool :=
  in_class cls c
  || (ignoreCase && (in_class cls (Js.upper_char c) || in_class cls (Js.lower_char c))).

(** [\w] *)
Definition is_word_char (c : ascii) : bool :=
  Js.is_upper c || Js.is_lower c || Js.is_digit c || Ascii.eqb c "_".

Definition is_word (o : option ascii) : bool :=
  match o with Some c => is_word_char c | None => false end.

(** [run i r prev s k]: match [r] at the position whose preceding character
    is [prev] and whose remaining input is [s], then continue with [k]; the
    first success in priority order is returned.  An iteration of a
    repetition that consumes nothing is rejected, as the language does. *)
Fixpoint run (ignoreCase : bool) (r : Re) (prev : option ascii) (s : list ascii)
    (k : option ascii -> list ascii -> option (list ascii)) {struct r}
    : option (list ascii) :=
  match r with
  | Eps => k prev s
  | Chr cls =>
      match s with
      | c :: s' => if class_matches ignoreCase cls c then k (Some c) s' else None
      | [] => None
      end
  | Seq a b => run ignoreCase a prev s (fun p' s' => run ignoreCase b p' s' k)
  | Alt a b =>
      match run ignoreCase a prev s k with
      | Some rest => Some rest
      | None => run ignoreCase b prev s k
      end
  | Star a =>
      (fix iterate (fuel : nat) (prev : option ascii) (s : list ascii) {struct fuel}
         : option (list ascii) :=
         match fuel with
         | O => k prev s
         | S fuel' =>
             match run ignoreCase a prev s
                     (fun p' s' =>
                        if Nat.ltb (length s') (length s)
                        then iterate fuel' p' s' else None) with
             | Some rest => Some rest
             | None => k prev s
             end
         end) (length s) prev s
  | WordBoundary =>
      if xorb (is_word prev) (is_word (head s)) then k prev s else None
  | NotFollowedBy a =>
      match run ignoreCase a prev s (fun _ rest => Some rest) with
      | Some _ => None
      | None => k prev s
      end
  | EndOfInput =>
      match s with
      | [] => k prev s
      | _ :: _ => None
      end
  end.

(** A match anchored at the current position: the matched text and the
    remaining input. *)
Definition match_here (ignoreCase : bool) (r : Re) (prev : option ascii) (s : list ascii)
    : option (list ascii * list ascii) :=
  match run ignoreCase r prev s (fun _ rest => Some rest) with
  | Some rest => Some (firstn (length s - length rest) s, rest)
  | None => None
  end.

(** The leftmost match at or after the current position: the text skipped,
    the text matched and the remaining input. *)
Fixpoint search (ignoreCase : bool) (r : Re) (prev : option ascii) (s : list ascii)
    : option (list ascii * list ascii * list ascii) :=
  match match_here ignoreCase r prev s with
  | Some (matched, rest) => Some ([], matched, rest)
  | None =>
      match s with
      | [] => None
      | c :: s' =>
          match search ignoreCase r (Some c) s' with
          | Some (skipped, matched, rest) => Some (c :: skipped, matched, rest)
          | None => None
          end
      end
  end.

Definition last_char (prev : option ascii) (l : list ascii) : option ascii :=
  match l with
  | [] => prev
  | _ :: _ => Some (List.last l "000"%char)
  end.

Fixpoint matches_from (fuel : nat) (ignoreCase : bool) (r : Re)
    (prev : option ascii) (s : list ascii) : list string :=
  match fuel with
  | O => []
  | S fuel' =>
      match search ignoreCase r prev s with
      | None => []
      | Some (skipped, matched, rest) =>
          string_of_list_ascii matched ::
          match matched, rest with
          | [], [] => []
          | [], c :: rest' => matches_from fuel' ignoreCase r (Some c) rest'
          | _ :: _, _ =>
              matches_from fuel' ignoreCase r (last_char prev (skipped ++ matched)) rest
          end
      end
  end.

(** [s.match(re)] for a regular expression with the [g] flag, with the
    [|| []] every call site appends: all the matched substrings, or the empty
    array. *)
Definition match_all (ignoreCase : bool) (r : Re) (s : string) : list string :=
  matches_from (S (String.length s)) ignoreCase r None (list_ascii_of_string s).

(** [re.test(s)] for a regular expression whose [lastIndex] is 0, which is
    the case of a regular expression literal that has just been evaluated. *)
Definition test (ignoreCase : bool) (r : Re) (s : string) : bool :=
  Vault.isSome (search ignoreCase r None (list_ascii_of_string s)).

(** [s.replace(re, by)] for a regular expression without the [g] flag. *)
Definition replace (ignoreCase : bool) (r : Re) (s : string) (by_ : string) : string :=
  match search ignoreCase r None (list_ascii_of_string s) with
  | Some (skipped, _, rest) =>
      string_of_list_ascii skipped +:+ by_ +:+ string_of_list_ascii rest
  | None => s
  end.

(** [s.split(/\s+/)]: the pieces between maximal runs of white space. *)
Fixpoint split_spaces_from (s : list ascii) (piece : list ascii) (in_run : bool)
    : list string :=
  match s with
  | [] => [string_of_list_ascii (rev piece)]
  | c :: s' =>
      if Js.is_space c then
        if in_run then split_spaces_from s' piece true
        else string_of_list_ascii (rev piece) :: split_spaces_from s' [] true
      else split_spaces_from s' (c :: piece) false
  end.

Definition split_spaces (s : string) : list string :=
  split_spaces_from (list_ascii_of_string s) [] false.

End Regex.

(** ** Static query validator: [modules/ai/query-validator] *)

Module QueryValidator.

Import Types Regex.

(** The objects a call of [validateQuery] works on: the schema context it is
    handed by reference and the three arrays it allocates and passes to every
    analysis pass, which push onto them. *)
Record Heap := {
  h_schemaContext : SchemaContext;
  h_errors : list string;
  h_warnings : list string;
  h_suggestedIndexes : list string
}.

Definition M (T : Type) : Type := Heap -> T * Heap.

Definition ret {T} (x : T) : M T := fun h => (x, h).

Definition bind {T U} (m : M T) (f : T -> M U) : M U :=
  fun h => let (x, h') := m h in f x h'.

Declare Scope validator_scope.
Delimit Scope validator_scope with validator.
Notation "'let*' x := m 'in' k" := (bind m (fun x => k))
  (at level 10, x name, m at level 100, k at level 200) : validator_scope.
Notation "m >> k" := (bind m (fun _ => k))
  (at level 100, k at level 200, right associativity) : validator_scope.
Local Open Scope validator_scope.

Definition read_schemaContext : M SchemaContext :=
  fun h => (h_schemaContext h, h).

Definition read_errors : M (list string) := fun h => (h_errors h, h).
Definition read_warnings : M (list string) := fun h => (h_warnings h, h).
Definition read_suggestedIndexes : M (list string) :=
  fun h => (h_suggestedIndexes h, h).

(** [const errors = []; const warnings = []; const suggestedIndexes = [];] *)
Definition new_arrays : M unit :=
  fun h => (tt, {| h_schemaContext := h_schemaContext h;
                   h_errors := []; h_warnings := []; h_suggestedIndexes := [] |}).

Definition push_error (msg : string) : M unit :=
  fun h => (tt, {| h_schemaContext := h_schemaContext h;
                   h_errors := h_errors h ++ [msg];
                   h_warnings := h_warnings h;
                   h_suggestedIndexes := h_suggestedIndexes h |}).

Definition push_warning (msg : string) : M unit :=
  fun h => (tt, {| h_schemaContext := h_schemaContext h;
                   h_errors := h_errors h;
                   h_warnings := h_warnings h ++ [msg];
                   h_suggestedIndexes := h_suggestedIndexes h |}).

Definition push_suggestedIndex (sql : string) : M unit :=
  fun h => (tt, {| h_schemaContext := h_schemaContext h;
                   h_errors := h_errors h;
                   h_warnings := h_warnings h;
                   h_suggestedIndexes := h_suggestedIndexes h ++ [sql] |}).

Definition when (b : bool) (m : M unit) : M unit := if b then m else ret tt.

(** [for (const x of l) body(x)] *)
Fixpoint for_of {T} (l : list T) (body : T -> M unit) : M unit :=
  match l with
  | [] => ret tt
  | x :: r => body x >> for_of r body
  end.

(** *** The regular expressions of the source *)

(** "[a-zA-Z_]" *)
Definition ident_start : CharClass :=
  Union (Range "a" "z") (Union (Range "A" "Z") (One "_")).
(** "[a-zA-Z0-9_]" *)
Definition ident_char : CharClass :=
  Union (Range "a" "z") (Union (Range "A" "Z") (Union (Range "0" "9") (One "_"))).
(** "[a-zA-Z0-9_.]" *)
Definition ident_or_dot : CharClass := Union ident_char (One ".").
(** "[a-zA-Z_][a-zA-Z0-9_]*" *)
Definition identifier : Re := Seq (Chr ident_start) (Star (Chr ident_char)).
(** "\s+" and "\s*" *)
Definition spaces1 : Re := Plus (Chr Space).
Definition spaces0 : Re := Star (Chr Space).

Fixpoint seq (l : list Re) : Re :=
  match l with
  | [] => Eps
  | [r] => r
  | r :: l' => Seq r (seq l')
  end.

(** "/(?:FROM|JOIN|INTO|UPDATE)\s+(ID)/gi", where ID is the identifier
    pattern above. *)
Definition re_tableRefs : Re :=
  seq [Alt (Lit "FROM") (Alt (Lit "JOIN") (Alt (Lit "INTO") (Lit "UPDATE")));
       spaces1; identifier].

(** "/[a-zA-Z_][a-zA-Z0-9_]*\.[a-zA-Z_][a-zA-Z0-9_]*/g" *)
Definition re_qualifiedColumnRefs : Re := seq [identifier; Lit "."; identifier].

(** The five patterns of [checkSecurityIssues], all with the flags [gi]: a
    single or double quote followed by "\s*;\s*DROP\s+TABLE", then
    "\bUNION\s+SELECT\b", "\bOR\s+1\s*=\s*1\b", "\bxp_cmdshell\b" and
    "\bEXEC\s*\(". *)
Definition suspiciousPatterns : list Re :=
  [ seq [Alt (Lit "'") (Chr (One "034"%char)); spaces0; Lit ";"; spaces0; Lit "DROP"; spaces1;
         Lit "TABLE"];
    seq [WordBoundary; Lit "UNION"; spaces1; Lit "SELECT"; WordBoundary];
    seq [WordBoundary; Lit "OR"; spaces1; Lit "1"; spaces0; Lit "="; spaces0; Lit "1";
         WordBoundary];
    seq [WordBoundary; Lit "xp_cmdshell"; WordBoundary];
    seq [WordBoundary; Lit "EXEC"; spaces0; Lit "("] ].

(** "/DELETE\s+FROM\s+[a-zA-Z_][a-zA-Z0-9_]*/i" *)
Definition re_deleteFrom : Re := seq [Lit "DELETE"; spaces1; Lit "FROM"; spaces1; identifier].
(** "/\bWHERE\b/i" *)
Definition re_where : Re := seq [WordBoundary; Lit "WHERE"; WordBoundary].
(** "/UPDATE\s+[a-zA-Z_][a-zA-Z0-9_]*/i" *)
Definition re_update : Re := seq [Lit "UPDATE"; spaces1; identifier].
(** "/SELECT\s+\*/i" *)
Definition re_selectStar : Re := seq [Lit "SELECT"; spaces1; Lit "*"].
(** "/JOIN\s+[a-zA-Z_][a-zA-Z0-9_]*(?![\s\S]*\bON\b)/i" *)
Definition re_joinWithoutOn : Re :=
  seq [Lit "JOIN"; spaces1; identifier;
       NotFollowedBy (seq [Star (Chr AnyChar); WordBoundary; Lit "ON"; WordBoundary])].
(** "/\bCROSS\s+JOIN\b/i" *)
Definition re_crossJoin : Re := seq [WordBoundary; Lit "CROSS"; spaces1; Lit "JOIN"; WordBoundary].
(** "/\bWHERE\s+(REF)\s*=/gi", where REF is "[a-zA-Z_]" followed by any
    number of "[a-zA-Z0-9_.]". *)
Definition re_whereEq : Re :=
  seq [WordBoundary; Lit "WHERE"; spaces1; Chr ident_start; Star (Chr ident_or_dot);
       spaces0; Lit "="].
(** "/\bWHERE\s+/i" *)
Definition re_wherePrefix : Re := seq [WordBoundary; Lit "WHERE"; spaces1].
(** "/\s*=$/" *)
Definition re_eqSuffix : Re := seq [spaces0; Lit "="; EndOfInput].

(** *** Schema lookups *)

Definition find_table (name : string) (schemaContext : SchemaContext) : option TableMetadata :=
  List.find (fun item => String.eqb (Js.toLowerCase (tableName item)) (Js.toLowerCase name))
            (tables schemaContext).

Definition columnExists (table column : string) (schemaContext : SchemaContext) : bool :=
  match find_table table schemaContext with
  | None => false
  | Some t =>
      existsb (fun c => String.eqb (Js.toLowerCase (columnName c)) (Js.toLowerCase column))
              (columns t)
  end.

Definition hasIndex (table column : string) (schemaContext : SchemaContext) : bool :=
  match find_table table schemaContext with
  | None => false
  | Some t =>
      match Types.indexes t with
      | None | Some [] => false
      | Some idxs =>
          existsb (fun index =>
                     existsb (fun indexedColumn =>
                                String.eqb (Js.toLowerCase indexedColumn) (Js.toLowerCase column))
                             (indexColumns index))
                  idxs
      end
  end.

(** *** The five analysis passes *)

Definition validStarts : list string :=
  ["SELECT"; "INSERT"; "UPDATE"; "DELETE"; "WITH"; "CREATE"; "ALTER"].

Definition checkBasicSyntax (query : string) (_databaseType : DatabaseType) : M unit :=
  let trimmed := Js.trim query in
  if negb (Js.truthy trimmed) then push_error "Query cannot be empty"
  else
    let openParens := Js.count_char "(" query in
    let closeParens := Js.count_char ")" query in
    when (negb (Nat.eqb openParens closeParens))
         (push_error ("Mismatched parentheses: " +:+ pretty openParens +:+ " open, "
                      +:+ pretty closeParens +:+ " close")) >>
    let semicolonCount := Js.count_char ";" query in
    (if Nat.ltb 1 semicolonCount then push_error "Multiple statements are not allowed"
     else when (Js.endsWith trimmed ";")
            (push_warning
               "Trailing semicolon detected; submit a single statement without separators")) >>
    let upper := Js.toUpperCase trimmed in
    when (negb (existsb (fun keyword => Js.startsWith upper keyword) validStarts))
         (push_error "Unsupported or invalid SQL statement type").

(** [tableNames] is a [Set] of strings; only its [has] is used, which is
    membership in the list it was built from.  In the second loop a match of
    the pattern always holds a dot, so both names are defined. *)
Definition validateAgainstSchema (query : string) : M unit :=
  let* schemaContext := read_schemaContext in
  let tableNames := map (fun table => Js.toLowerCase (tableName table)) (tables schemaContext) in
  let tableRefs := match_all true re_tableRefs query in
  for_of tableRefs (fun ref =>
    match nth_error (split_spaces ref) 1 with
    | Some name =>
        let table := Js.toLowerCase name in
        when (Js.truthy table && negb (existsb (String.eqb table) tableNames))
             (push_error ("Table '" +:+ table +:+ "' does not exist in schema"))
    | None => ret tt
    end) >>
  let qualifiedColumnRefs := match_all false re_qualifiedColumnRefs query in
  for_of qualifiedColumnRefs (fun qualifiedRef =>
    let* schemaContext := read_schemaContext in
    let confirmed :=
      match Js.split "." qualifiedRef with
      | table :: column :: _ => columnExists table column schemaContext
      | _ => false
      end in
    when (negb confirmed)
         (push_warning ("Column reference '" +:+ qualifiedRef +:+ "' could not be confirmed"))).

(** The loop over the patterns stops at the first one that matches. *)
Definition checkSecurityIssues (query : string) : M unit :=
  when (existsb (fun pattern => test true pattern query) suspiciousPatterns)
       (push_warning "Potential SQL injection pattern detected") >>
  when (Js.includes query "--" || Js.includes query "/*")
       (push_warning "Query contains comments; review for hidden logic").

Definition checkDangerousOperations (query : string) : M unit :=
  let upper := Js.toUpperCase query in
  when (test true re_deleteFrom query && negb (test true re_where query))
       (push_warning "DELETE without WHERE will affect all rows") >>
  when (test true re_update query && negb (test true re_where query))
       (push_warning "UPDATE without WHERE will affect all rows") >>
  when (Js.includes upper "DROP ")
       (push_warning "DROP detected; this operation is destructive") >>
  when (Js.includes upper "TRUNCATE ")
       (push_warning "TRUNCATE detected; this operation removes all table rows").

(** [columnRef.includes('.') ? columnRef.split('.') : [null, columnRef]],
    destructured as [[tableName, columnName]]. *)
Definition split_columnRef (columnRef : string) : option string * option string :=
  if Js.includes columnRef "." then
    match Js.split "." columnRef with
    | t :: c :: _ => (Some t, Some c)
    | [t] => (Some t, None)
    | [] => (None, None)
    end
  else (None, Some columnRef).

Definition analyzePerformance (query : string) : M unit :=
  when (test true re_selectStar query)
       (push_warning "SELECT * detected; prefer explicit columns for better performance") >>
  when (test true re_joinWithoutOn query)
       (push_warning "JOIN may be missing an ON clause, risking cartesian products") >>
  when (test true re_crossJoin query)
       (push_warning "CROSS JOIN detected; verify cartesian product is intended") >>
  let whereEqMatches := match_all true re_whereEq query in
  for_of whereEqMatches (fun match_ =>
    let columnRef :=
      Js.trim (replace false re_eqSuffix (replace true re_wherePrefix match_ "") "") in
    match split_columnRef columnRef with
    | (Some tableName, Some columnName) =>
        if negb (Js.truthy tableName) || negb (Js.truthy columnName) then ret tt
        else
          let* schemaContext := read_schemaContext in
          when (negb (hasIndex tableName columnName schemaContext))
               (push_suggestedIndex
                  ("CREATE INDEX idx_" +:+ tableName +:+ "_" +:+ columnName +:+ " ON "
                   +:+ tableName +:+ "(" +:+ columnName +:+ ");"))
    | _ => ret tt
    end).

Definition nonempty_or_undefined (l : list string) : option (list string) :=
  match l with [] => None | _ :: _ => Some l end.

(** [validateQuery(query, databaseType, schemaContext)]; the schema context
    is the one of the heap the call runs in. *)
Definition validateQuery (query : string) (databaseType : DatabaseType)
    : M ValidateQueryResponse :=
  new_arrays >>
  checkBasicSyntax query databaseType >>
  validateAgainstSchema query >>
  checkSecurityIssues query >>
  checkDangerousOperations query >>
  analyzePerformance query >>
  let* errors := read_errors in
  let* warnings := read_warnings in
  let* suggestedIndexes := read_suggestedIndexes in
  ret {| isValid := Nat.eqb (length errors) 0;
         errors := errors;
         warnings := warnings;
         suggestedIndexes := nonempty_or_undefined suggestedIndexes;
         indexes_hint := nonempty_or_undefined suggestedIndexes |}.

(** A call on a schema context, in a heap that holds nothing else. *)
Definition heap_of (schemaContext : SchemaContext) : Heap :=
  {| h_schemaContext := schemaContext;
     h_errors := []; h_warnings := []; h_suggestedIndexes := [] |}.

Definition validate (query : string) (databaseType : DatabaseType)
    (schemaContext : SchemaContext) : ValidateQueryResponse :=
  fst (validateQuery query databaseType (heap_of schemaContext)).

End QueryValidator.

(** ** Connection pool manager: [core/pool-manager.ts] *)

Module PoolManager.

Inductive Error :=
| CipherError
| ErrorMessage (message : string).

Inductive Result (T : Type) :=
| Ok (value : T)
| Throw (e : Error).

Arguments Ok {T} value.
Arguments Throw {T} e.

(** The MySQL driver.  [mysql.createPool(uri)] parses the connection string
    when the pool is made and throws on a string it cannot read as a URL:
    [createPool uri] is that exception, or [None] when the pool is made.
    [new PoolClass(options)] of [pg] only keeps its options, the connection
    string of a Postgres pool being read when a client is asked for. *)
Class MysqlDriver := {
  createPool : string -> option Error
}.

(** The options object given to [new PoolClass(...)]. *)
Record PgOptions := {
  connectionString : string;
  ssl_rejectUnauthorized : bool;
  max : Z;
  idleTimeoutMillis : Z;
  connectionTimeoutMillis : Z
}.

(** The callback registered with [pgPool.on('error', ...)]: it logs the error
    and calls [this.closePool(userId)]. *)
Inductive Listener := LogAndClosePool (userId : string).

(** What [getPool] stores: the adapter object built around
    [mysql.createPool(connectionString)], which is given the connection
    string and nothing else, or the [pg] pool itself with its options and the
    listeners registered on it. *)
Inductive PoolObject :=
| MysqlAdapter (uri : string)
| PgPool (options : PgOptions) (errorListeners : list Listener).

(** Objects are compared by identity: a handle carries the rank of its
    allocation. *)
Record Handle := {
  identity : nat;
  object : PoolObject
}.

(** [pools] is the [Map] of the class; [allocated] counts the pool objects
    created so far. *)
Record ConnectionManager := {
  pools : gmap string Handle;
  allocated : nat
}.

Definition initial : ConnectionManager := {| pools := ∅; allocated := 0 |}.

(** The pool bounds a handle was built with, when the code gave any. *)
Definition configured_max (h : Handle) : option Z :=
  match object h with PgPool o _ => Some (max o) | MysqlAdapter _ => None end.

Definition configured_connectionTimeout (h : Handle) : option Z :=
  match object h with
  | PgPool o _ => Some (connectionTimeoutMillis o)
  | MysqlAdapter _ => None
  end.

Definition configured_idleTimeout (h : Handle) : option Z :=
  match object h with
  | PgPool o _ => Some (idleTimeoutMillis o)
  | MysqlAdapter _ => None
  end.

Definition error_listeners (h : Handle) : list Listener :=
  match object h with PgPool _ ls => ls | MysqlAdapter _ => [] end.

(** [closePool(userId)]: [pool.end()] is awaited inside [try], its failure is
    logged by [catch], and the entry is deleted by [finally] either way. *)
Definition closePool (userId : string) (m : ConnectionManager) : ConnectionManager :=
  match pools m !! userId with
  | Some _ => {| pools := delete userId (pools m); allocated := allocated m |}
  | None => m
  end.

Definition run_listener (l : Listener) (m : ConnectionManager) : ConnectionManager :=
  match l with LogAndClosePool userId => closePool userId m end.

(** The pool object [h] emits ['error']. *)
Definition emit_error (h : Handle) (m : ConnectionManager) : ConnectionManager :=
  fold_left (fun m' l => run_listener l m') (error_listeners h) m.

Section WithVault.

Context {A : Vault.Aead} {D : MysqlDriver}.
Variable KEY : Vault.Buffer.

(** [getPool(userId, encryptedUrl)].  An exception of [decrypt] or of
    [mysql.createPool] leaves [getPool] before [this.pools.set]. *)
Definition getPool (userId encryptedUrl : string) (m : ConnectionManager)
    : Result Handle * ConnectionManager :=
  let poolKey := userId in
  match pools m !! poolKey with
  | Some h => (Ok h, m)
  | None =>
      match Vault.decrypt KEY encryptedUrl with
      | None => (Throw CipherError, m)
      | Some connectionString =>
          if negb (Js.truthy connectionString) then
            (Throw (ErrorMessage ("Failed to decrypt connection string for user " +:+ userId
                                  +:+ ". Result is not a string.")), m)
          else
            let isMysql := Js.startsWith (Js.toLowerCase connectionString) "mysql" in
            if isMysql then
              match createPool connectionString with
              | Some e => (Throw e, m)
              | None =>
                  let adapter :=
                    {| identity := allocated m; object := MysqlAdapter connectionString |} in
                  (Ok adapter,
                   {| pools := <[poolKey := adapter]> (pools m);
                      allocated := S (allocated m) |})
              end
            else
              let pgPool :=
                {| identity := allocated m;
                   object :=
                     PgPool {| connectionString := connectionString;
                               ssl_rejectUnauthorized := false;
                               max := 10%Z;
                               idleTimeoutMillis := 30000%Z;
                               connectionTimeoutMillis := 5000%Z |}
                            [LogAndClosePool userId] |} in
              (Ok pgPool,
               {| pools := <[poolKey := pgPool]> (pools m); allocated := S (allocated m) |})
      end
  end.

(** The driver makes a pool from the string, if the string is one that
    [getPool] hands to it. *)
Definition accepted (connectionString : string) : Prop :=
  Js.startsWith (Js.toLowerCase connectionString) "mysql" = true ->
  createPool connectionString = None.

(** What can happen to the manager between two calls. *)
Inductive Call :=
| CallGetPool (userId encryptedUrl : string)
| CallClosePool (userId : string)
| PoolError (h : Handle).

Definition step (m : ConnectionManager) (c : Call) : ConnectionManager :=
  match c with
  | CallGetPool userId encryptedUrl => snd (getPool userId encryptedUrl m)
  | CallClosePool userId => closePool userId m
  | PoolError h => emit_error h m
  end.

Definition run (calls : list Call) (m : ConnectionManager) : ConnectionManager :=
  fold_left step calls m.


End WithVault.

End PoolManager.

(** ** Schema introspection cache: [modules/ai/schema-analyzer.ts] *)

Module SchemaAnalyzer.

Import Types.

(** [is_nullable: string | boolean] *)
Inductive Nullable :=
| NullableText (s : string)
| NullableFlag (b : bool).

Record RawSchemaRow := {
  table_name : string;
  column_name : string;
  data_type : string;
  is_nullable : Nullable
}.

Record RawConstraintRow := {
  c_table_name : string;
  c_column_name : string;
  constraint_type : string;
  referenced_table_name : option string;
  referenced_column_name : option string
}.

Record RawSchemaPayload := {
  schema : option (list RawSchemaRow);
  constraints : option (list RawConstraintRow)
}.

(** [rawSchema.schema ?? []] *)
Definition or_empty {T} (o : option (list T)) : list T :=
  match o with Some l => l | None => [] end.

(** *** The table map

    [tableMap] is a [Map] whose values are read back in insertion order by
    [Array.from(tableMap.values())]; the table objects it holds are mutated
    in place, which is an update of the entry. *)
Definition TableMap := list (string * TableMetadata).

Fixpoint map_get (m : TableMap) (key : string) : option TableMetadata :=
  match m with
  | [] => None
  | (k, t) :: r => if String.eqb k key then Some t else map_get r key
  end.

Definition map_has (m : TableMap) (key : string) : bool := Vault.isSome (map_get m key).

(** [tableMap.set(key, t)] *)
Fixpoint map_set (m : TableMap) (key : string) (t : TableMetadata) : TableMap :=
  match m with
  | [] => [(key, t)]
  | (k, t') :: r =>
      if String.eqb k key then (k, t) :: r else (k, t') :: map_set r key t
  end.

(** [row.is_nullable === 'YES' || row.is_nullable === true] *)
Definition nullable (n : Nullable) : bool :=
  match n with
  | NullableText s => String.eqb s "YES"
  | NullableFlag b => b
  end.

(** One turn of the first loop. *)
Definition add_column (tableMap : TableMap) (row : RawSchemaRow) : TableMap :=
  let name := table_name row in
  let tableMap :=
    if negb (map_has tableMap name) then
      map_set tableMap name
              {| tableName := name; columns := []; primaryKey := None;
                 indexes := Some []; rowCount := None |}
    else tableMap in
  match map_get tableMap name with
  | None => tableMap
  | Some table =>
      let column :=
        {| columnName := column_name row;
           dataType := data_type row;
           isNullable := nullable (is_nullable row);
           isUnique := Some false;
           isForeignKey := Some false;
           foreignKeyReference := None |} in
      map_set tableMap name
              {| tableName := tableName table;
                 columns := columns table ++ [column];
                 primaryKey := primaryKey table;
                 indexes := Types.indexes table;
                 rowCount := rowCount table |}
  end.

(** The column object found by [table.columns.find(...)] is mutated: the
    first column of that name is replaced. *)
Fixpoint update_column (cols : list ColumnMetadata) (name : string)
    (f : ColumnMetadata -> ColumnMetadata) : list ColumnMetadata :=
  match cols with
  | [] => []
  | c :: r =>
      if String.eqb (columnName c) name then f c :: r
      else c :: update_column r name f
  end.

Definition find_column (cols : list ColumnMetadata) (name : string) : option ColumnMetadata :=
  List.find (fun item => String.eqb (columnName item) name) cols.

Definition mark_unique (c : ColumnMetadata) : ColumnMetadata :=
  {| columnName := columnName c; dataType := dataType c; isNullable := isNullable c;
     isUnique := Some true; isForeignKey := isForeignKey c;
     foreignKeyReference := foreignKeyReference c |}.

Definition mark_foreign_key (ref : option string) (c : ColumnMetadata) : ColumnMetadata :=
  {| columnName := columnName c; dataType := dataType c; isNullable := isNullable c;
     isUnique := isUnique c; isForeignKey := Some true;
     foreignKeyReference := ref |}.

(** Truthiness of [string | null | undefined]. *)
Definition truthy_opt (o : option string) : bool :=
  match o with Some s => Js.truthy s | None => false end.

(** One turn of the second loop, on the table map and the relationships
    collected so far. *)
Definition apply_constraint (acc : TableMap * list RelationshipMetadata)
    (constraint : RawConstraintRow) : TableMap * list RelationshipMetadata :=
  let (tableMap, relationships) := acc in
  match map_get tableMap (c_table_name constraint) with
  | None => acc
  | Some table =>
      match find_column (columns table) (c_column_name constraint) with
      | None => acc
      | Some _ =>
          if String.eqb (constraint_type constraint) "PRIMARY KEY" then
            (map_set tableMap (c_table_name constraint)
               {| tableName := tableName table;
                  columns := columns table;
                  primaryKey :=
                    Some (or_empty (primaryKey table) ++ [c_column_name constraint])%list;
                  indexes := Types.indexes table;
                  rowCount := rowCount table |},
             relationships)
          else if String.eqb (constraint_type constraint) "UNIQUE" then
            (map_set tableMap (c_table_name constraint)
               {| tableName := tableName table;
                  columns := update_column (columns table) (c_column_name constraint) mark_unique;
                  primaryKey := primaryKey table;
                  indexes :=
                    Some (or_empty (Types.indexes table) ++
                          [{| indexName := "uniq_" +:+ c_table_name constraint +:+ "_"
                                           +:+ c_column_name constraint;
                              indexColumns := [c_column_name constraint];
                              indexIsUnique := true |}])%list;
                  rowCount := rowCount table |},
             relationships)
          else if String.eqb (constraint_type constraint) "FOREIGN KEY" then
            (map_set tableMap (c_table_name constraint)
               {| tableName := tableName table;
                  columns := update_column (columns table) (c_column_name constraint)
                               (mark_foreign_key (referenced_table_name constraint));
                  primaryKey := primaryKey table;
                  indexes := Types.indexes table;
                  rowCount := rowCount table |},
             match referenced_table_name constraint with
             | Some referenced =>
                 if Js.truthy referenced then
                   (relationships ++
                   [{| fromTable := c_table_name constraint;
                       toTable := referenced;
                       fromColumn := c_column_name constraint;
                       toColumn :=
                         match referenced_column_name constraint with
                         | Some c => c
                         | None => c_column_name constraint
                         end;
                       relType := ONE_TO_MANY |}])%list
                 else relationships
             | None => relationships
             end)
          else acc
      end
  end.

(** [parseSchema(rawSchema, databaseType)]; [now] is the value of
    [new Date()]. *)
Definition parseSchema (rawSchema : RawSchemaPayload) (databaseType : DatabaseType)
    (now : Z) : SchemaContext :=
  let tableMap := fold_left add_column (or_empty (schema rawSchema)) [] in
  let (tableMap, relationships) :=
    fold_left apply_constraint (or_empty (constraints rawSchema)) (tableMap, []) in
  {| tables := map snd tableMap;
     relationships := relationships;
     databaseType := databaseType;
     cachedAt := now |}.

(** Does [table.column] name a column of a table of the list? *)
Definition has_column (tables : list TableMetadata) (table column : string) : bool :=
  existsb (fun t => String.eqb (tableName t) table
                    && existsb (fun c => String.eqb (columnName c) column) (columns t))
          tables.

(** *** The cache

    [new NodeCache({ stdTTL: 7200, checkperiod: 300, maxKeys: 500 })]: an
    entry carries the time at which it expires, [get] ignores and drops an
    expired entry, and [set] throws once [maxKeys] entries are stored. *)
Record Entry := {
  value : SchemaContext;
  expires : Z
}.

Record State := {
  cache : gmap string Entry;
  hits : nat;
  misses : nat
}.

Definition stdTTL : Z := 7200.
Definition maxKeys : nat := 500.

Definition cacheKey (userId : string) (databaseType : DatabaseType) : string :=
  "schema:" +:+ userId +:+ ":" +:+ DatabaseType_string databaseType.

Definition cache_get (now : Z) (key : string) (c : gmap string Entry)
    : option SchemaContext * gmap string Entry :=
  match c !! key with
  | Some e => if (expires e <? now)%Z then (None, delete key c) else (Some (value e), c)
  | None => (None, c)
  end.

Definition cache_set (now : Z) (key : string) (v : SchemaContext) (c : gmap string Entry)
    : option (gmap string Entry) :=
  if Nat.leb maxKeys (size c) then None
  else Some (<[key := {| value := v; expires := (now + stdTTL * 1000)%Z |}]> c).

(** [getSchemaContext(userId, encryptedUrl, databaseType)]; [fetched] is what
    [getDatabaseSchema(userId, encryptedUrl)] resolves to, or [None] when it
    rejects; [None] as a result stands for a rejected promise. *)
Definition getSchemaContext (userId : string) (databaseType : DatabaseType)
    (now : Z) (fetched : option RawSchemaPayload) (s : State)
    : option SchemaContext * State :=
  let key := cacheKey userId databaseType in
  match cache_get now key (cache s) with
  | (Some cached, c) => (Some cached, {| cache := c; hits := S (hits s); misses := misses s |})
  | (None, c) =>
      match fetched with
      | None => (None, {| cache := c; hits := hits s; misses := S (misses s) |})
      | Some rawSchema =>
          let parsed := parseSchema rawSchema databaseType now in
          match cache_set now key parsed c with
          | Some c' => (Some parsed, {| cache := c'; hits := hits s; misses := S (misses s) |})
          | None => (None, {| cache := c; hits := hits s; misses := S (misses s) |})
          end
      end
  end.

(** [this.cache.keys()] *)
Definition cache_keys (c : gmap string Entry) : list string := (map_to_list c).*1.

(** [invalidateUserCache(userId)] *)
Definition invalidateUserCache (userId : string) (s : State) : State :=
  let prefix := "schema:" +:+ userId +:+ ":" in
  {| cache :=
       fold_left (fun c key => if Js.startsWith key prefix then delete key c else c)
                 (cache_keys (cache s)) (cache s);
     hits := hits s;
     misses := misses s |}.

(** [getCacheStats()] *)
Definition getCacheStats (s : State) : nat * nat * nat :=
  (length (cache_keys (cache s)), hits s, misses s).

End SchemaAnalyzer.

(** ** Query execution gateway: [modules/query/query.service.js] *)

Module QueryService.

Import PoolManager.

Inductive JsValue :=
| JsString (s : string)
| JsNumber (n : Z)
| JsBoolean (b : bool)
| JsNull.

(** A row is a plain object: its own properties and their values. *)
Abbreviation Row := (gmap string JsValue).

Record Field := { name : string }.

(** What [client.query(sql)] resolves to. *)
Record DriverResult := {
  rows : list Row;
  fields : option (list Field);
  rowCount : option Z
}.

Inductive Output :=
| JsonOutput (rows : list Row) (rowCount : Z)
| TableOutput (columns : list string) (rows : list Row) (rowCount : Z).

(** [result.rowCount ?? 0] *)
Definition rowCount_or_zero (result : DriverResult) : Z :=
  match rowCount result with Some n => n | None => 0%Z end.

(** [result.fields && result.fields.length > 0] *)
Definition hasFields (result : DriverResult) : bool :=
  match fields result with
  | Some (_ :: _) => true
  | _ => false
  end.

(** [{ Status: 'Success', ...result.rows[0] }]: the properties of the first
    row, if there is one, are copied over the object that holds [Status]. *)
Definition status_row (result : DriverResult) : Row :=
  match rows result with
  | first :: _ => first ∪ {[ "Status" := JsString "Success" ]}
  | [] => {[ "Status" := JsString "Success" ]}
  end.

(** The body of the [try] block once [client.query(sql)] has resolved. *)
Definition shape (format : string) (result : DriverResult) : Output :=
  if String.eqb format "json" then JsonOutput (rows result) (rowCount_or_zero result)
  else
    TableOutput
      (if hasFields result then map name (default [] (fields result)) else ["Status"])
      (if hasFields result then rows result else [status_row result])
      (rowCount_or_zero result).

(** What the client object did during a call. *)
Inductive ClientEvent :=
| Connected
| Queried (sql : string)
| Released.

Section WithDriver.

Context {A : Vault.Aead} {D : PoolManager.MysqlDriver}.
Variable KEY : Vault.Buffer.

(** The database behind a pool: what [pool.connect()] and
    [client.query(sql)] resolve to or reject with. *)
Variable connect : Handle -> Result unit.
Variable query : Handle -> string -> Result DriverResult.

(** [executeQuery(userId, encryptedUrl, sql, format = 'table')]: the result
    or the exception, the manager afterwards and the use made of the client.
    [finally] releases the client whether the query resolved or not. *)
Definition executeQuery (userId encryptedUrl sql : string) (format : option string)
    (m : ConnectionManager) : Result Output * ConnectionManager * list ClientEvent :=
  let format := match format with Some f => f | None => "table" end in
  match getPool KEY userId encryptedUrl m with
  | (Throw e, m') => (Throw e, m', [])
  | (Ok pool, m') =>
      match connect pool with
      | Throw e => (Throw e, m', [])
      | Ok _ =>
          match query pool sql with
          | Ok result => (Ok (shape format result), m', [Connected; Queried sql; Released])
          | Throw error => (Throw error, m', [Connected; Queried sql; Released])
          end
      end
  end.

End WithDriver.

End QueryService.

(** ** Stored connections: [modules/workspace/workspace.controller.ts] *)

Module Workspace.

(** The metadata database is one that answers: every [queryMetadata] of a
    handler resolves.  A rejection, which the [catch] of the handler turns
    into the answer 500, is not described here, and a connection id is one
    of the type of the column.  An answer 200, 201 or 404 is given by the
    code only once every query of the handler has resolved, so that what is
    stated of these answers is stated of the code. *)

(** A row of the table [user_connections]. *)
Record user_connection := {
  id : nat;
  user_id : string;
  label : option string;
  encrypted_url : string;
  is_active : bool
}.

(** The metadata database: the table and the source of fresh row ids. *)
Record Metadata := {
  user_connections : list user_connection;
  next_id : nat
}.

(** The parts of the request the handlers read: [req.user?.userId] and the
    fields of [req.body]. *)
Record AuthRequest := {
  userId : option string;
  body_label : option string;
  body_url : option string;
  body_connectionId : option nat
}.

Inductive Body :=
| ErrorBody (error : string)
| MessageBody (message : string)
| RowsBody (connections : list (nat * option string * bool)).

Record Response := {
  status : nat;
  json : Body
}.

(** The number of rows counted by the query on [user_connections] with the
    condition [WHERE user_id = $1]. *)
Definition count_connections (user : string) (db : Metadata) : nat :=
  length (List.filter (fun r => String.eqb (user_id r) user) (user_connections db)).

(** [INSERT INTO user_connections (user_id, label, encrypted_url, is_active)
    VALUES ($1, $2, $3, $4)] *)
Definition insert_connection (user : string) (label : option string)
    (encryptedUrl : string) (isActive : bool) (db : Metadata) : Metadata :=
  {| user_connections :=
       user_connections db ++
       [{| id := next_id db; user_id := user; label := label;
           encrypted_url := encryptedUrl; is_active := isActive |}];
     next_id := S (next_id db) |}.

(** [UPDATE user_connections SET is_active = false WHERE user_id = $1] *)
Definition deactivate_all (user : string) (db : Metadata) : Metadata :=
  {| user_connections :=
       map (fun r =>
              if String.eqb (user_id r) user then
                {| id := id r; user_id := user_id r; label := label r;
                   encrypted_url := encrypted_url r; is_active := false |}
              else r)
           (user_connections db);
     next_id := next_id db |}.

(** [UPDATE user_connections SET is_active = true WHERE id = $1 AND
    user_id = $2 RETURNING id], with its [rowCount]. *)
Definition activate (connectionId : nat) (user : string) (db : Metadata) : Metadata * nat :=
  let hit r := Nat.eqb (id r) connectionId && String.eqb (user_id r) user in
  ({| user_connections :=
        map (fun r =>
               if hit r then
                 {| id := id r; user_id := user_id r; label := label r;
                    encrypted_url := encrypted_url r; is_active := true |}
               else r)
            (user_connections db);
      next_id := next_id db |},
   length (List.filter hit (user_connections db))).

(** The two stores the handlers act on. *)
Record World := {
  metadata : Metadata;
  poolManager : PoolManager.ConnectionManager
}.

Section WithVault.

Context {A : Vault.Aead}.
Variable KEY : Vault.Buffer.

(** [addConnection(req, res)]; [iv] is the nonce [encrypt] draws.  A missing
    [url] makes [encrypt] throw, which the [catch] turns into status 500. *)
Definition addConnection (req : AuthRequest) (iv : Vault.Buffer) (w : World)
    : Response * World :=
  match userId req with
  | None => ({| status := 401; json := ErrorBody "Unauthorized: User ID missing" |}, w)
  | Some user =>
      if negb (Js.truthy user) then
        ({| status := 401; json := ErrorBody "Unauthorized: User ID missing" |}, w)
      else
        let count := count_connections user (metadata w) in
        if Nat.leb 5 count then
          ({| status := 400; json := ErrorBody "Maximum limit of 5 databases reached." |}, w)
        else
          match
            match body_url req with
            | Some url => Vault.encrypt KEY iv url
            | None => None
            end
          with
          | None => ({| status := 500; json := ErrorBody "Failed to save connection" |}, w)
          | Some encryptedUrl =>
              let isActive := Nat.eqb count 0 in
              ({| status := 201; json := MessageBody "Database connection saved successfully." |},
               {| metadata :=
                    insert_connection user (body_label req) encryptedUrl isActive (metadata w);
                  poolManager := poolManager w |})
          end
  end.

(** [listConnections(req, res)], without the ordering by creation date. *)
Definition listConnections (req : AuthRequest) (w : World) : Response * World :=
  match userId req with
  | None => ({| status := 401; json := ErrorBody "Unauthorized" |}, w)
  | Some user =>
      if negb (Js.truthy user) then ({| status := 401; json := ErrorBody "Unauthorized" |}, w)
      else
        ({| status := 200;
            json := RowsBody
                      (map (fun r => (id r, label r, is_active r))
                           (List.filter (fun r => String.eqb (user_id r) user)
                                   (user_connections (metadata w)))) |}, w)
  end.

(** [switchConnection(req, res)] *)
Definition switchConnection (req : AuthRequest) (w : World) : Response * World :=
  match userId req, body_connectionId req with
  | Some user, Some connectionId =>
      if negb (Js.truthy user) || Nat.eqb connectionId 0 then
        ({| status := 400; json := ErrorBody "User ID or Connection ID missing" |}, w)
      else
        let pm := PoolManager.closePool user (poolManager w) in
        let db := deactivate_all user (metadata w) in
        let (db', rowCount) := activate connectionId user db in
        if Nat.eqb rowCount 0 then
          ({| status := 404; json := ErrorBody "Connection not found or access denied" |},
           {| metadata := db'; poolManager := pm |})
        else
          ({| status := 200; json := MessageBody "Workspace switched successfully." |},
           {| metadata := db'; poolManager := pm |})
  | _, _ => ({| status := 400; json := ErrorBody "User ID or Connection ID missing" |}, w)
  end.

(** A request reaching the controller. *)
Inductive Request :=
| Add (req : AuthRequest) (iv : Vault.Buffer)
| List_ (req : AuthRequest)
| Switch (req : AuthRequest).

Definition handle (w : World) (r : Request) : World :=
  match r with
  | Add req iv => snd (addConnection req iv w)
  | List_ req => snd (listConnections req w)
  | Switch req => snd (switchConnection req w)
  end.

Definition serve (requests : list Request) (w : World) : World :=
  fold_left handle requests w.

End WithVault.

End Workspace.

(** ** Sample data used by the examples *)

Module Sample.

Import Vault.

Fixpoint buffer_eqb (a b : Buffer) : bool :=
  match a, b with
  | [], [] => true
  | x :: a', y :: b' => Byte.eqb x y && buffer_eqb a' b'
  | _, _ => false
  end.

(** A stand-in for the runtime's cipher, good enough to run the code on
    concrete tokens: the text is reversed and the tag is the first sixteen
    bytes of the key followed by zeroes. *)
Definition stamp (k : Buffer) : Buffer := firstn 16 (k ++ repeat x00 16)%list.

#[export] Instance reversing : Aead := {|
  cipher_init k iv := Nat.eqb (length k) 32 && negb (Nat.eqb (length iv) 0);
  gcm_encrypt _ _ pt := rev pt;
  gcm_tag k _ _ := stamp k;
  tag_accepted tag := Nat.eqb (length tag) 16;
  gcm_decrypt _ _ ct := rev ct;
  gcm_verify k _ _ tag := buffer_eqb tag (stamp k)
|}.

(** A stand-in for the MySQL driver: it makes a pool from a string that
    holds ["://"] and throws on any other. *)
#[export] Instance scheme_checking : PoolManager.MysqlDriver := {|
  PoolManager.createPool uri :=
    if Js.includes uri "://" then None
    else Some (PoolManager.ErrorMessage "Invalid URL")
|}.

Definition key : Buffer := repeat x2a 32.
Definition other_key : Buffer := repeat x07 32.
Definition nonce : Buffer := repeat x01 16.

(** A payload as the introspection queries return it: the constraint rows
    carry the referenced table and no referenced column. *)
Definition raw_row (t c : string) : SchemaAnalyzer.RawSchemaRow :=
  {| SchemaAnalyzer.table_name := t; SchemaAnalyzer.column_name := c;
     SchemaAnalyzer.data_type := "uuid";
     SchemaAnalyzer.is_nullable := SchemaAnalyzer.NullableText "NO" |}.

Definition orders_payload : SchemaAnalyzer.RawSchemaPayload :=
  {| SchemaAnalyzer.schema :=
       Some [raw_row "orders" "id"; raw_row "orders" "user_id"; raw_row "users" "id"];
     SchemaAnalyzer.constraints :=
       Some [ {| SchemaAnalyzer.c_table_name := "users";
                 SchemaAnalyzer.c_column_name := "id";
                 SchemaAnalyzer.constraint_type := "PRIMARY KEY";
                 SchemaAnalyzer.referenced_table_name := None;
                 SchemaAnalyzer.referenced_column_name := None |};
              {| SchemaAnalyzer.c_table_name := "orders";
                 SchemaAnalyzer.c_column_name := "user_id";
                 SchemaAnalyzer.constraint_type := "FOREIGN KEY";
                 SchemaAnalyzer.referenced_table_name := Some "users";
                 SchemaAnalyzer.referenced_column_name := None |} ] |}.

Definition orders_relationship : Types.RelationshipMetadata :=
  {| Types.fromTable := "orders"; Types.toTable := "users";
     Types.fromColumn := "user_id"; Types.toColumn := "user_id";
     Types.relType := Types.ONE_TO_MANY |}.

Definition cached_entry : SchemaAnalyzer.Entry :=
  {| SchemaAnalyzer.value := SchemaAnalyzer.parseSchema orders_payload Types.postgres 0;
     SchemaAnalyzer.expires := 7200000 |}.

(** A cache that holds one schema, of the tenant ["7:1"]. *)
Definition one_entry_cache : SchemaAnalyzer.State :=
  {| SchemaAnalyzer.cache := {[ SchemaAnalyzer.cacheKey "7:1" Types.mysql := cached_entry ]};
     SchemaAnalyzer.hits := 0;
     SchemaAnalyzer.misses := 1 |}.

(** The schema of the validator's tests, reduced to its table [users]: two
    columns, and an index on [id] only. *)
Definition plain_column (name type : string) : Types.ColumnMetadata :=
  {| Types.columnName := name; Types.dataType := type; Types.isNullable := false;
     Types.isUnique := None; Types.isForeignKey := None;
     Types.foreignKeyReference := None |}.

Definition users_context : Types.SchemaContext :=
  {| Types.tables :=
       [{| Types.tableName := "users";
           Types.columns := [plain_column "id" "uuid"; plain_column "email" "text"];
           Types.primaryKey := Some ["id"];
           Types.indexes :=
             Some [{| Types.indexName := "idx_users_id"; Types.indexColumns := ["id"];
                      Types.indexIsUnique := true |}];
           Types.rowCount := None |}];
     Types.relationships := [];
     Types.databaseType := Types.postgres;
     Types.cachedAt := 0 |}.

Definition select_by_email : string := "SELECT * FROM users WHERE email = 'x'".
Definition select_by_users_email : string := "SELECT * FROM users WHERE users.email = 'x'".

Definition select_star_warning : string :=
  "SELECT * detected; prefer explicit columns for better performance".
Definition email_index : string := "CREATE INDEX idx_users_email ON users(email);".

End Sample.

(** * Properties *)

(** ** Credential vault *)

Module VaultFacts.

Import Vault.

Lemma append_cons (c : ascii) (a b : string) : String c a +:+ b = String c (a +:+ b).
Proof. reflexivity. Qed.

Lemma append_empty_l (s : string) : "" +:+ s = s.
Proof. reflexivity. Qed.

Lemma append_empty_r (s : string) : s +:+ "" = s.
Proof. induction s as [|c s IH]; [reflexivity | now rewrite append_cons, IH]. Qed.

Lemma append_assoc (a b c : string) : (a +:+ b) +:+ c = a +:+ (b +:+ c).
Proof. induction a as [|x a IH]; [reflexivity | now rewrite !append_cons, IH]. Qed.

Lemma split_nonempty (sep : ascii) (s : string) : Js.split sep s <> [].
Proof.
  induction s as [|c s IH]; simpl; [discriminate |].
  destruct (Ascii.eqb c sep); [discriminate |].
  destruct (Js.split sep s); [contradiction | discriminate].
Qed.

(** Splitting distributes over a separator. *)
Lemma split_app_sep (sep : ascii) (a b : string) :
  Js.split sep (a +:+ String sep b) = (Js.split sep a ++ Js.split sep b)%list.
Proof.
  induction a as [|c a IH].
  - rewrite append_empty_l. simpl. now rewrite Ascii.eqb_refl.
  - rewrite append_cons. simpl.
    destruct (Ascii.eqb c sep); [now rewrite IH |].
    rewrite IH. pose proof (split_nonempty sep a) as Hne.
    destruct (Js.split sep a); [contradiction | reflexivity].
Qed.

Lemma split_without_sep (sep : ascii) (s : string) :
  Js.count_char sep s = 0 -> Js.split sep s = [s].
Proof.
  induction s as [|c s IH]; simpl; [reflexivity |].
  destruct (Ascii.eqb c sep); [discriminate |].
  intros H. now rewrite (IH H).
Qed.

(** The number of fields is one more than the number of separators. *)
Lemma split_length (sep : ascii) (s : string) :
  length (Js.split sep s) = S (Js.count_char sep s).
Proof.
  induction s as [|c s IH]; simpl; [reflexivity |].
  destruct (Ascii.eqb c sep); simpl; [now rewrite IH |].
  pose proof (split_nonempty sep s) as Hne.
  destruct (Js.split sep s); [contradiction | simpl in *; lia].
Qed.

Lemma count_char_app (c : ascii) (a b : string) :
  Js.count_char c (a +:+ b) = Js.count_char c a + Js.count_char c b.
Proof.
  induction a as [|x a IH]; [reflexivity |].
  rewrite append_cons. simpl. rewrite IH. lia.
Qed.

(** Decoding inverts encoding, one byte at a time. *)
Lemma from_hex_byte (b : byte) (rest : string) :
  from_hex (hex_of_byte b rest) = b :: from_hex rest.
Proof. destruct b; reflexivity. Qed.

Lemma from_hex_toString_hex (buf : Buffer) : from_hex (toString_hex buf) = buf.
Proof.
  induction buf as [|b buf IH]; [reflexivity |].
  simpl toString_hex. now rewrite from_hex_byte, IH.
Qed.

Lemma hex_of_byte_colons (b : byte) (rest : string) :
  Js.count_char ":" (hex_of_byte b rest) = Js.count_char ":" rest.
Proof. destruct b; reflexivity. Qed.

Lemma toString_hex_colons (buf : Buffer) : Js.count_char ":" (toString_hex buf) = 0.
Proof.
  induction buf as [|b buf IH]; [reflexivity |].
  simpl toString_hex. now rewrite hex_of_byte_colons.
Qed.

(** The three fields of a token are recovered by [split]. *)
(** A buffer in hexadecimal has two characters per byte. *)
Lemma toString_hex_even (buf : Buffer) : Nat.even (String.length (toString_hex buf)) = true.
Proof. induction buf as [|b buf IH]; [reflexivity | exact IH]. Qed.

Lemma split_token (iv tag ct : Buffer) :
  Js.split ":" (toString_hex iv +:+ ":" +:+ toString_hex tag +:+ ":" +:+ toString_hex ct)
  = [toString_hex iv; toString_hex tag; toString_hex ct].
Proof.
  rewrite !append_cons, !append_empty_l, !split_app_sep.
  now rewrite !split_without_sep by apply toString_hex_colons.
Qed.

Section WithCipher.

Context {A : Aead}.
Variable KEY : Buffer.

(** What [decrypt] computes once the token has three fields or more. *)
Lemma decrypt_fields (hash ivHex authTagHex encryptedText : string) (rest : list string) :
  Js.split ":" hash = ivHex :: authTagHex :: encryptedText :: rest ->
  decrypt KEY hash =
    if cipher_init KEY (from_hex ivHex) && tag_accepted (from_hex authTagHex)
       && Nat.even (String.length encryptedText)
       && gcm_verify KEY (from_hex ivHex) (from_hex encryptedText) (from_hex authTagHex)
    then Some (string_of_list_byte (gcm_decrypt KEY (from_hex ivHex) (from_hex encryptedText)))
    else None.
Proof.
  intros H. unfold decrypt. rewrite H.
  destruct (cipher_init KEY (from_hex ivHex)); cbn [negb andb]; [| reflexivity].
  destruct (tag_accepted (from_hex authTagHex)); cbn [negb andb]; [| reflexivity].
  destruct (Nat.even (String.length encryptedText)); cbn [negb andb]; [| reflexivity].
  destruct (gcm_verify _ _ _ _); [| reflexivity].
  now rewrite append_empty_r.
Qed.

(** A token with fewer than three fields makes [decrypt] throw. *)
Lemma decrypt_too_few_fields (hash : string) :
  Js.count_char ":" hash < 2 -> decrypt KEY hash = None.
Proof.
  intros H. unfold decrypt.
  pose proof (split_length ":" hash) as Hlen.
  destruct (Js.split ":" hash) as [|f1 [|f2 [|f3 fs]]]; simpl in Hlen; try reflexivity.
  - destruct (cipher_init _ _), (tag_accepted _); reflexivity.
  - lia.
Qed.

(** Fields after the third are never read. *)
Lemma decrypt_ignores_extra_fields (hash extra : string) :
  2 <= Js.count_char ":" hash ->
  decrypt KEY (hash +:+ ":" +:+ extra) = decrypt KEY hash.
Proof.
  intros H.
  pose proof (split_length ":" hash) as Hlen.
  destruct (Js.split ":" hash) as [|f1 [|f2 [|f3 fs]]] eqn:Hs; simpl in Hlen; try lia.
  rewrite (decrypt_fields hash f1 f2 f3 fs Hs).
  apply (decrypt_fields _ f1 f2 f3 (fs ++ Js.split ":" extra)%list).
  rewrite append_cons, append_empty_l.
  now rewrite split_app_sep, Hs.
Qed.

End WithCipher.

(** The stand-in cipher of the examples is a correct cipher. *)
#[export] Instance reversing_correct : AeadCorrect Sample.reversing.
Proof.
  split; simpl.
  - intros k iv Hk Hiv. rewrite Hk, Hiv. reflexivity.
  - intros k _ _. unfold Sample.stamp.
    rewrite length_firstn, length_app, repeat_length.
    apply Nat.eqb_eq. lia.
  - intros k _ _. generalize (Sample.stamp k) as t.
    induction t as [|b t IH]; simpl; [reflexivity |].
    rewrite IH. now destruct b.
  - intros _ _ pt. apply rev_involutive.
Qed.

(** C2.  For every plaintext [s] and every nonce the generator may draw,
    encrypting [s] under the process-wide key yields a token, and decrypting
    that token returns exactly [s]: [decrypt(encrypt(s)) == s]. *)
Theorem decrypt_encrypt_roundtrip {A : Aead} {AC : AeadCorrect A}
    (KEY iv : Buffer) (s : string) :
  length KEY = 32 -> length iv = IV_LENGTH ->
  exists token, encrypt KEY iv s = Some token /\ decrypt KEY token = Some s.
Proof.
  intros HK Hiv. unfold encrypt. rewrite (init_ok _ _ HK Hiv).
  eexists; split; [reflexivity |].
  rewrite (decrypt_fields KEY _ _ _ _ [] (split_token _ _ _)).
  rewrite !from_hex_toString_hex, (init_ok _ _ HK Hiv), tag_ok, toString_hex_even,
    verify_ok, decrypt_ok.
  simpl. now rewrite string_of_list_byte_of_string.
Qed.

(** The round trip on a connection string, with the stand-in cipher. *)
Lemma decrypt_encrypt_roundtrip_sample :
  length Sample.key = 32 /\ length Sample.nonce = IV_LENGTH /\
  exists token,
    encrypt (A := Sample.reversing) Sample.key Sample.nonce
      "postgres://u:p@db.example.com:5432/app" = Some token /\
    decrypt (A := Sample.reversing) Sample.key token
      = Some "postgres://u:p@db.example.com:5432/app".
Proof.
  split; [reflexivity |]. split; [reflexivity |].
  apply (decrypt_encrypt_roundtrip (AC := reversing_correct)); reflexivity.
Defined.

(** C6, as stated, fails: a token made of a genuine token followed by a
    fourth field is not in the documented format, and [decrypt] returns the
    plaintext of the genuine token. *)
Lemma decrypt_accepts_a_fourth_field :
  encrypt (A := Sample.reversing) Sample.key Sample.nonce "hi"
    = Some "01010101010101010101010101010101:2a2a2a2a2a2a2a2a2a2a2a2a2a2a2a2a:6968" /\
  well_formed_token
    "01010101010101010101010101010101:2a2a2a2a2a2a2a2a2a2a2a2a2a2a2a2a:6968:zz" = false /\
  decrypt (A := Sample.reversing) Sample.key
    "01010101010101010101010101010101:2a2a2a2a2a2a2a2a2a2a2a2a2a2a2a2a:6968:zz" = Some "hi".
Proof. repeat split; vm_compute; reflexivity. Qed.

(** With the stand-in cipher, a token made under another key does not
    verify, and [decrypt] throws. *)
Example decrypt_rejects_token_of_other_key :
  encrypt (A := Sample.reversing) Sample.other_key Sample.nonce "hi"
    = Some "01010101010101010101010101010101:07070707070707070707070707070707:6968" /\
  decrypt (A := Sample.reversing) Sample.key
    "01010101010101010101010101010101:07070707070707070707070707070707:6968" = None.
Proof. split; vm_compute; reflexivity. Qed.

(** C6, amended.  [decrypt] throws on every token with fewer than three
    fields and on every token whose first three fields, decoded from
    hexadecimal, the cipher does not verify under the configured key; when it
    returns, the value is the text the cipher verified for those three
    fields, never anything else.  Fields after the third are not read, so a
    token followed by a further field decrypts as the token does. *)
Theorem decrypt_returns_only_verified_text {A : Aead} (KEY : Buffer) (hash : string) :
  (Js.count_char ":" hash < 2 -> decrypt KEY hash = None) /\
  (forall ivHex authTagHex encryptedText rest,
     Js.split ":" hash = ivHex :: authTagHex :: encryptedText :: rest ->
     gcm_verify KEY (from_hex ivHex) (from_hex encryptedText) (from_hex authTagHex) = false ->
     decrypt KEY hash = None) /\
  (forall text,
     decrypt KEY hash = Some text ->
     exists ivHex authTagHex encryptedText rest,
       Js.split ":" hash = ivHex :: authTagHex :: encryptedText :: rest /\
       gcm_verify KEY (from_hex ivHex) (from_hex encryptedText) (from_hex authTagHex) = true /\
       text = string_of_list_byte (gcm_decrypt KEY (from_hex ivHex) (from_hex encryptedText))) /\
  (forall extra,
     2 <= Js.count_char ":" hash ->
     decrypt KEY (hash +:+ ":" +:+ extra) = decrypt KEY hash).
Proof.
  split; [apply decrypt_too_few_fields |].
  split.
  { intros f1 f2 f3 fs Hs Hv. rewrite (decrypt_fields KEY hash f1 f2 f3 fs Hs), Hv.
    now rewrite andb_false_r. }
  split; [| intros extra; apply decrypt_ignores_extra_fields].
  intros text Hd.
  destruct (Nat.lt_ge_cases (Js.count_char ":" hash) 2) as [Hlt | Hge].
  { rewrite (decrypt_too_few_fields KEY hash Hlt) in Hd. discriminate. }
  pose proof (split_length ":" hash) as Hlen.
  destruct (Js.split ":" hash) as [|f1 [|f2 [|f3 fs]]] eqn:Hs; simpl in Hlen; try lia.
  exists f1, f2, f3, fs. split; [reflexivity |].
  rewrite (decrypt_fields KEY hash f1 f2 f3 fs Hs) in Hd.
  destruct (cipher_init _ _), (tag_accepted _), (Nat.even _), (gcm_verify _ _ _ _);
    simpl in Hd; try discriminate.
  split; [reflexivity | congruence].
Qed.

End VaultFacts.

(** ** Connection pool manager *)

Module PoolManagerFacts.

Import PoolManager.









Section WithVault.

Context {A : Vault.Aead} {D : PoolManager.MysqlDriver}.
Variable KEY : Vault.Buffer.

(** A stored handle is returned as it is, whatever the second argument. *)
Lemma getPool_hit (userId encryptedUrl : string) (m : ConnectionManager) (h : Handle) :
  pools m !! userId = Some h -> getPool KEY userId encryptedUrl m = (Ok h, m).
Proof. intros H. unfold getPool. now rewrite H. Qed.

(** The shape of a pool built on first use. *)
Definition built (userId connectionString : string) (rank : nat) : Handle :=
  if Js.startsWith (Js.toLowerCase connectionString) "mysql" then
    {| identity := rank; object := MysqlAdapter connectionString |}
  else
    {| identity := rank;
       object :=
         PgPool {| connectionString := connectionString;
                   ssl_rejectUnauthorized := false;
                   max := 10; idleTimeoutMillis := 30000;
                   connectionTimeoutMillis := 5000 |}
                [LogAndClosePool userId] |}.



(** The four outcomes of [getPool]. *)
Lemma getPool_cases (userId encryptedUrl : string) (m : ConnectionManager) :
  (exists h, pools m !! userId = Some h /\ getPool KEY userId encryptedUrl m = (Ok h, m))
  \/ (exists e, getPool KEY userId encryptedUrl m = (Throw e, m))
  \/ (exists connectionString,
        pools m !! userId = None /\
        getPool KEY userId encryptedUrl m =
          (Ok (built userId connectionString (allocated m)),
           {| pools := <[userId := built userId connectionString (allocated m)]> (pools m);
              allocated := S (allocated m) |})).
Proof.
  destruct (pools m !! userId) as [h|] eqn:E.
  - left. exists h. split; [reflexivity | now apply getPool_hit].
  - right. unfold getPool. rewrite E.
    destruct (Vault.decrypt KEY encryptedUrl) as [cs|] eqn:Hd; [| left; eauto].
    destruct (Js.truthy cs) eqn:Ht; simpl; [| left; eauto].
    destruct (Js.startsWith (Js.toLowerCase cs) "mysql") eqn:Hmysql.
    + destruct (createPool cs) as [e|]; [left; eauto |].
      right. exists cs. split; [reflexivity |]. unfold built. now rewrite Hmysql.
    + right. exists cs. split; [reflexivity |]. unfold built. now rewrite Hmysql.
Qed.






(** After a successful [getPool] the handle it returned is stored. *)
Lemma getPool_stores (userId encryptedUrl : string) (m m' : ConnectionManager) (h : Handle) :
  getPool KEY userId encryptedUrl m = (Ok h, m') -> pools m' !! userId = Some h.
Proof.
  intros H.
  destruct (getPool_cases userId encryptedUrl m)
    as [(h' & Hh & E) | [(e & E) | (cs & Hnone & E)]]; rewrite E in H.
  - now injection H as <- <-.
  - discriminate.
  - injection H as <- <-. simpl. apply lookup_insert_eq.
Qed.


End WithVault.

Definition pg_url : string :=
  "01010101010101010101010101010101:2a2a2a2a2a2a2a2a2a2a2a2a2a2a2a2a:7070612f323334353a6d6f632e656c706d6178652e626440703a752f2f3a7365726774736f70".

Definition mysql_url : string :=
  "01010101010101010101010101010101:2a2a2a2a2a2a2a2a2a2a2a2a2a2a2a2a:7070612f363033333a6d6f632e656c706d6178652e626440703a752f2f3a6c7173796d".

Definition pg_handle (rank : nat) (userId : string) : Handle :=
  {| identity := rank;
     object :=
       PgPool {| connectionString := "postgres://u:p@db.example.com:5432/app";
                 ssl_rejectUnauthorized := false;
                 max := 10; idleTimeoutMillis := 30000; connectionTimeoutMillis := 5000 |}
              [LogAndClosePool userId] |}.


(** C4 fails on the MySQL branch.  On first use with a connection string
    that starts with [mysql], the pool is built by
    [mysql.createPool(connectionString)] alone: the code gives it no
    connection limit, no acquire timeout and no idle timeout, and registers no
    error observer.  The Postgres branch, run on the same manager, sets all
    three bounds and registers the observer. *)
Lemma getPool_mysql_pool_is_unbounded :
  (exists h m',
     getPool (A := Sample.reversing) (D := Sample.scheme_checking) Sample.key "alice" mysql_url initial = (Ok h, m')
     /\ object h = MysqlAdapter "mysql://u:p@db.example.com:3306/app"
     /\ configured_max h = None
     /\ configured_connectionTimeout h = None
     /\ configured_idleTimeout h = None
     /\ error_listeners h = [])
  /\ (exists h m',
        getPool (A := Sample.reversing) (D := Sample.scheme_checking) Sample.key "alice" pg_url initial = (Ok h, m')
        /\ configured_max h = Some 10%Z
        /\ configured_connectionTimeout h = Some 5000%Z
        /\ configured_idleTimeout h = Some 30000%Z
        /\ error_listeners h = [LogAndClosePool "alice"]).
Proof.
  split; eexists _, _; (split; [vm_compute; reflexivity |]); repeat split.
Qed.

End PoolManagerFacts.

(** ** Schema normalization and cache *)

Module SchemaAnalyzerFacts.

Import Types SchemaAnalyzer.

(** *** The table map *)

Lemma map_get_set_eq (m : TableMap) (key : string) (t : TableMetadata) :
  map_get (map_set m key t) key = Some t.
Proof.
  induction m as [|[k t'] m IH]; simpl.
  - now rewrite String.eqb_refl.
  - destruct (String.eqb k key) eqn:E; simpl; rewrite E; [reflexivity | exact IH].
Qed.

Lemma map_get_set_ne (m : TableMap) (key other : string) (t : TableMetadata) :
  key <> other -> map_get (map_set m key t) other = map_get m other.
Proof.
  intros Hne. induction m as [|[k t'] m IH]; simpl.
  - apply String.eqb_neq in Hne. now rewrite Hne.
  - destruct (String.eqb k key) eqn:E; simpl.
    + apply String.eqb_eq in E. subst k.
      apply String.eqb_neq in Hne. now rewrite Hne.
    + destruct (String.eqb k other); [reflexivity | exact IH].
Qed.

Lemma map_get_In (m : TableMap) (key : string) (t : TableMetadata) :
  map_get m key = Some t -> In t (map snd m).
Proof.
  induction m as [|[k t'] m IH]; simpl; [discriminate |].
  destruct (String.eqb k key); [intros [= ->]; now left | intros H; right; auto].
Qed.

(** Every table sits under its own name. *)
Definition keyed (m : TableMap) : Prop :=
  forall key t, map_get m key = Some t -> tableName t = key.

Lemma keyed_set (m : TableMap) (key : string) (t : TableMetadata) :
  keyed m -> tableName t = key -> keyed (map_set m key t).
Proof.
  intros Hm Ht other t'. destruct (String.eqb_spec key other) as [<- | Hne].
  - rewrite map_get_set_eq. now intros [= <-].
  - rewrite map_get_set_ne by assumption. apply Hm.
Qed.

(** [table.column] names a column of a table of the map. *)
Definition endpoint_in (m : TableMap) (table column : string) : Prop :=
  exists t, map_get m table = Some t /\ In column (map columnName (columns t)).

Lemma endpoint_in_set (m : TableMap) (key : string) (old new : TableMetadata)
    (table column : string) :
  map_get m key = Some old ->
  map columnName (columns new) = map columnName (columns old) ->
  endpoint_in m table column -> endpoint_in (map_set m key new) table column.
Proof.
  intros Hold Hnames (t & Ht & Hin). destruct (String.eqb_spec key table) as [<- | Hne].
  - exists new. rewrite map_get_set_eq. split; [reflexivity |].
    rewrite Hnames. congruence.
  - exists t. now rewrite map_get_set_ne.
Qed.

Lemma update_column_names (cols : list ColumnMetadata) (name : string)
    (f : ColumnMetadata -> ColumnMetadata) :
  (forall c, columnName (f c) = columnName c) ->
  map columnName (update_column cols name f) = map columnName cols.
Proof.
  intros Hf. induction cols as [|c cols IH]; simpl; [reflexivity |].
  destruct (String.eqb (columnName c) name); simpl; [now rewrite Hf | now rewrite IH].
Qed.

Lemma find_column_In (cols : list ColumnMetadata) (name : string) (c : ColumnMetadata) :
  find_column cols name = Some c -> In name (map columnName cols).
Proof.
  unfold find_column. intros H. apply find_some in H as [Hin Heq].
  apply String.eqb_eq in Heq. subst name. now apply in_map.
Qed.

(** *** The first loop *)

Lemma add_column_keyed (m : TableMap) (row : RawSchemaRow) :
  keyed m -> keyed (add_column m row).
Proof.
  intros Hm. unfold add_column, map_has.
  destruct (map_get m (table_name row)) as [t|] eqn:E; simpl.
  - rewrite E. apply keyed_set; [assumption | simpl; now apply Hm].
  - rewrite map_get_set_eq. apply keyed_set; [| reflexivity].
    now apply keyed_set.
Qed.

Lemma columns_loop_keyed (rows : list RawSchemaRow) (m : TableMap) :
  keyed m -> keyed (fold_left add_column rows m).
Proof.
  revert m. induction rows as [|row rows IH]; intros m Hm; simpl; [assumption |].
  apply IH. now apply add_column_keyed.
Qed.

(** *** The second loop *)

(** Where a relationship comes from: a foreign-key row whose referenced table
    is a non-empty string. *)
Definition from_constraint (r : RelationshipMetadata) (c : RawConstraintRow) : Prop :=
  constraint_type c = "FOREIGN KEY"
  /\ fromTable r = c_table_name c
  /\ fromColumn r = c_column_name c
  /\ referenced_table_name c = Some (toTable r)
  /\ toTable r <> ""
  /\ toColumn r = default (c_column_name c) (referenced_column_name c)
  /\ relType r = ONE_TO_MANY.

Definition well_formed (seen : list RawConstraintRow)
    (acc : TableMap * list RelationshipMetadata) : Prop :=
  keyed (fst acc)
  /\ forall r, In r (snd acc) ->
       endpoint_in (fst acc) (fromTable r) (fromColumn r)
       /\ exists c, In c seen /\ from_constraint r c.

Lemma well_formed_more (seen : list RawConstraintRow) (c : RawConstraintRow)
    (acc : TableMap * list RelationshipMetadata) :
  well_formed seen acc -> well_formed (seen ++ [c]) acc.
Proof.
  intros [Hk Hr]. split; [assumption |].
  intros r Hin. destruct (Hr r Hin) as [He (c' & Hc' & Hfrom)].
  split; [assumption |]. exists c'. split; [apply in_or_app; now left | assumption].
Qed.

Lemma truthy_nonempty (s : string) : Js.truthy s = true -> s <> "".
Proof. now destruct s. Qed.

Lemma apply_constraint_well_formed (seen : list RawConstraintRow) (c : RawConstraintRow)
    (acc : TableMap * list RelationshipMetadata) :
  well_formed seen acc -> well_formed (seen ++ [c]) (apply_constraint acc c).
Proof.
  intros Hacc. pose proof (well_formed_more seen c acc Hacc) as Hmore.
  destruct acc as [m rels]. unfold apply_constraint.
  destruct (map_get m (c_table_name c)) as [table|] eqn:Hget; [| exact Hmore].
  destruct (find_column (columns table) (c_column_name c)) as [col|] eqn:Hfind;
    [| exact Hmore].
  destruct Hmore as [Hk Hr]. simpl in Hk, Hr.
  pose proof (Hk _ _ Hget) as Hname.
  assert (Hset : forall new rels',
            tableName new = tableName table ->
            map columnName (columns new) = map columnName (columns table) ->
            (forall r, In r rels' ->
               In r rels \/
               (fromTable r = c_table_name c /\ fromColumn r = c_column_name c
                /\ from_constraint r c)) ->
            well_formed (seen ++ [c]) (map_set m (c_table_name c) new, rels')).
  { intros new rels' Hn Hcols Hrels. split; simpl.
    - apply keyed_set; [assumption | congruence].
    - intros r Hin. destruct (Hrels r Hin) as [Hold | (Ht & Hc & Hfrom)].
      + destruct (Hr r Hold) as [He Hprov]. split; [| assumption].
        now apply endpoint_in_set with (old := table).
      + split; [| exists c; split; [apply in_or_app; right; now left | assumption]].
        rewrite Ht, Hc. exists new. rewrite map_get_set_eq. split; [reflexivity |].
        rewrite Hcols. now apply find_column_In with (c := col). }
  destruct (String.eqb (constraint_type c) "PRIMARY KEY").
  { apply Hset; [reflexivity | reflexivity | auto]. }
  destruct (String.eqb (constraint_type c) "UNIQUE").
  { apply Hset; [reflexivity | now apply update_column_names | auto]. }
  destruct (String.eqb_spec (constraint_type c) "FOREIGN KEY") as [Hfk |];
    [| split; assumption].
  apply Hset; [reflexivity | now apply update_column_names |].
  intros r Hin.
  destruct (referenced_table_name c) as [referenced|] eqn:Href; [| now left].
  destruct (Js.truthy referenced) eqn:Htruthy; [| now left].
  apply in_app_or in Hin as [Hin | [<- | []]]; [now left |].
  right. unfold from_constraint. simpl. rewrite Href.
  repeat split; try assumption; try reflexivity.
  all: first [now apply truthy_nonempty | now destruct (referenced_column_name c)].
Qed.

Lemma constraints_loop_well_formed (todo seen : list RawConstraintRow)
    (acc : TableMap * list RelationshipMetadata) :
  well_formed seen acc -> well_formed (seen ++ todo) (fold_left apply_constraint todo acc).
Proof.
  revert seen acc. induction todo as [|c todo IH]; intros seen acc Hacc; simpl.
  - now rewrite app_nil_r.
  - replace (seen ++ c :: todo)%list with ((seen ++ [c]) ++ todo)%list
      by now rewrite <- app_assoc.
    apply IH. now apply apply_constraint_well_formed.
Qed.

Lemma endpoint_has_column (m : TableMap) (table column : string) :
  keyed m -> endpoint_in m table column -> has_column (map snd m) table column = true.
Proof.
  intros Hk (t & Hget & Hin). unfold has_column.
  apply existsb_exists. exists t. split; [now apply map_get_In with (key := table) |].
  apply andb_true_iff. split; [apply String.eqb_eq; now apply Hk |].
  apply in_map_iff in Hin as (col & Hcol & Hincol).
  apply existsb_exists. exists col. split; [assumption | now apply String.eqb_eq].
Qed.

(** C3, as stated, fails.  On the payload the introspection queries return
    for a table [orders] whose column [user_id] references [users], the
    relationship produced by [parseSchema] ends at [users.user_id], and
    [users] has no such column. *)
Lemma parseSchema_dangling_endpoint :
  relationships (parseSchema Sample.orders_payload postgres 0) = [Sample.orders_relationship]
  /\ has_column (tables (parseSchema Sample.orders_payload postgres 0))
       (toTable Sample.orders_relationship) (toColumn Sample.orders_relationship) = false.
Proof. split; vm_compute; reflexivity. Qed.

(** C3, amended.  For every raw payload and every dialect, each relationship
    of the [SchemaContext] produced by [parseSchema] starts at a table
    present in [tables] and at a column present in that table's columns.
    Its end is taken from the foreign-key row it comes from and is not looked
    up: [toTable] is that row's non-empty referenced table and [toColumn] is
    its referenced column or, when the row has none, the name of the
    referencing column. *)
Theorem parseSchema_relationship_endpoints (rawSchema : RawSchemaPayload)
    (databaseType : DatabaseType) (now : Z) (r : RelationshipMetadata) :
  In r (relationships (parseSchema rawSchema databaseType now)) ->
  has_column (tables (parseSchema rawSchema databaseType now))
             (fromTable r) (fromColumn r) = true
  /\ exists c, In c (or_empty (constraints rawSchema)) /\ from_constraint r c.
Proof.
  unfold parseSchema.
  assert (Hwf : well_formed ([] ++ or_empty (constraints rawSchema))
                  (fold_left apply_constraint (or_empty (constraints rawSchema))
                     (fold_left add_column (or_empty (schema rawSchema)) [], []))).
  { apply constraints_loop_well_formed. split; simpl; [| intros ? []].
    apply columns_loop_keyed. intros key t. discriminate. }
  destruct (fold_left apply_constraint _ _) as [m rels].
  destruct Hwf as [Hk Hr]. simpl in *. intros Hin.
  destruct (Hr r Hin) as [He Hprov]. split; [| assumption].
  now apply endpoint_has_column.
Qed.

(** The theorem at work on the payload above. *)
Lemma parseSchema_relationship_endpoints_sample :
  In Sample.orders_relationship
     (relationships (parseSchema Sample.orders_payload postgres 0))
  /\ has_column (tables (parseSchema Sample.orders_payload postgres 0)) "orders" "user_id" = true.
Proof.
  assert (H : In Sample.orders_relationship
                 (relationships (parseSchema Sample.orders_payload postgres 0)))
    by (left; reflexivity).
  split; [exact H |].
  exact (proj1 (parseSchema_relationship_endpoints _ _ _ _ H)).
Defined.

(** *** Cache keys and invalidation *)

Lemma prefix_cons (a b : ascii) (x y : string) :
  String.prefix (String a x) (String b y) = Ascii.eqb a b && String.prefix x y.
Proof.
  cbn [String.prefix]. destruct (ascii_dec a b) as [-> | Hne].
  - now rewrite Ascii.eqb_refl.
  - apply Ascii.eqb_neq in Hne. now rewrite Hne.
Qed.

Lemma prefix_app (a x y : string) :
  String.prefix (a +:+ x) (a +:+ y) = String.prefix x y.
Proof.
  induction a as [|c a IH]; [reflexivity |].
  now rewrite !VaultFacts.append_cons, prefix_cons, Ascii.eqb_refl.
Qed.

Lemma prefix_colon_count (x d : string) :
  String.prefix (x +:+ ":") d = true -> 0 < Js.count_char ":" d.
Proof.
  revert d. induction x as [|a x IH]; intros [|c d];
    rewrite ?VaultFacts.append_cons, ?VaultFacts.append_empty_l;
    try discriminate; rewrite prefix_cons; intros H;
    apply andb_true_iff in H as [Hc H]; apply Ascii.eqb_eq in Hc; subst c.
  - simpl. lia.
  - specialize (IH d H). simpl. lia.
Qed.

(** When the prefix of one tenant matches the key of another, the other's
    identifier extends the first one's with a colon. *)
Lemma prefix_of_other_tenant (t t' d : string) :
  Js.count_char ":" d = 0 ->
  String.prefix (t +:+ ":") (t' +:+ ":" +:+ d) = true ->
  t' = t \/ String.prefix (t +:+ ":") t' = true.
Proof.
  intros Hd. revert t'. induction t as [|a t IH]; intros [|c t'];
    rewrite ?VaultFacts.append_cons, ?VaultFacts.append_empty_l.
  - now left.
  - rewrite !prefix_cons. intros H. right.
    apply andb_true_iff in H as [-> _]. now destruct t'.
  - rewrite prefix_cons. intros H. apply andb_true_iff in H as [_ H].
    apply prefix_colon_count in H. lia.
  - rewrite !prefix_cons. intros H. apply andb_true_iff in H as [Hc H].
    rewrite Hc. simpl. apply Ascii.eqb_eq in Hc. subst c.
    destruct (IH t' H) as [-> | Hp]; [now left | now right].
Qed.

Lemma dialect_has_no_colon (d : DatabaseType) :
  Js.count_char ":" (DatabaseType_string d) = 0.
Proof. now destruct d. Qed.

Lemma cacheKey_matches_own_prefix (userId : string) (d : DatabaseType) :
  Js.startsWith (cacheKey userId d) ("schema:" +:+ userId +:+ ":") = true.
Proof.
  unfold Js.startsWith, cacheKey.
  rewrite prefix_app.
  rewrite <- (VaultFacts.append_empty_r (userId +:+ ":")) at 1.
  rewrite !VaultFacts.append_assoc, prefix_app, prefix_app. now destruct d.
Qed.

Lemma cacheKey_matches_other_prefix (t t' : string) (d : DatabaseType) :
  Js.startsWith (cacheKey t' d) ("schema:" +:+ t +:+ ":") = true ->
  t' = t \/ Js.startsWith t' (t +:+ ":") = true.
Proof.
  unfold Js.startsWith, cacheKey. rewrite prefix_app.
  apply prefix_of_other_tenant, dialect_has_no_colon.
Qed.

(** The loop of [invalidateUserCache], on any list of keys. *)
Lemma delete_loop_lookup (prefix : string) (keys : list string) (c : gmap string Entry)
    (key : string) :
  fold_left (fun c k => if Js.startsWith k prefix then delete k c else c) keys c !! key
  = if Js.startsWith key prefix && bool_decide (key ∈ keys) then None else c !! key.
Proof.
  revert c. induction keys as [|k keys IH]; intros c; simpl.
  - now rewrite andb_false_r.
  - rewrite IH. destruct (Js.startsWith key prefix) eqn:Hkey; simpl.
    + destruct (decide (key = k)) as [-> | Hne].
      * rewrite Hkey, lookup_delete_eq.
        assert (Hhead : bool_decide (k ∈ k :: keys) = true)
          by (apply bool_decide_eq_true; apply list_elem_of_here).
        rewrite Hhead. now destruct (bool_decide (k ∈ keys)).
      * assert (Hiff : bool_decide (key ∈ k :: keys) = bool_decide (key ∈ keys)).
        { apply bool_decide_ext. rewrite elem_of_cons. tauto. }
        rewrite Hiff. destruct (bool_decide (key ∈ keys)); [reflexivity |].
        destruct (Js.startsWith k prefix); [now apply lookup_delete_ne | reflexivity].
    + destruct (Js.startsWith k prefix) eqn:Hk; [| reflexivity].
      apply lookup_delete_ne. intros ->. congruence.
Qed.

(** What [invalidateUserCache] leaves under a key. *)
Lemma invalidateUserCache_lookup (userId key : string) (s : State) :
  cache (invalidateUserCache userId s) !! key
  = if Js.startsWith key ("schema:" +:+ userId +:+ ":") then None else cache s !! key.
Proof.
  unfold invalidateUserCache. simpl. rewrite delete_loop_lookup.
  destruct (Js.startsWith key _); simpl; [| reflexivity].
  destruct (bool_decide_reflect (key ∈ cache_keys (cache s))) as [Hin | Hout];
    [reflexivity |].
  destruct (cache s !! key) as [e|] eqn:He; [| reflexivity].
  exfalso. apply Hout. unfold cache_keys.
  apply list_elem_of_fmap. exists (key, e). split; [reflexivity |].
  now apply elem_of_map_to_list.
Qed.

(** On a miss, the schema that was fetched and parsed is stored under the
    key of the tenant and the dialect, which is where [invalidateUserCache]
    looks for it. *)
Lemma getSchemaContext_stores_under_cacheKey (userId : string) (d : DatabaseType)
    (now : Z) (rawSchema : RawSchemaPayload) (s s' : State) (parsed : SchemaContext) :
  cache s !! cacheKey userId d = None ->
  getSchemaContext userId d now (Some rawSchema) s = (Some parsed, s') ->
  parsed = parseSchema rawSchema d now
  /\ (value <$> cache s' !! cacheKey userId d) = Some parsed
  /\ misses s' = S (misses s) /\ hits s' = hits s.
Proof.
  intros Hmiss. unfold getSchemaContext, cache_get, cache_set. rewrite Hmiss.
  destruct (Nat.leb maxKeys (size (cache s))); [discriminate |].
  intros [= <- <-]. simpl. now rewrite lookup_insert_eq.
Qed.

(** C8, as stated, fails.  The cache holds one entry, of the tenant
    ["7:1"]; invalidating the tenant ["7"] removes it. *)
Lemma invalidateUserCache_removes_other_tenant :
  cache Sample.one_entry_cache !! cacheKey "7:1" mysql = Some Sample.cached_entry
  /\ cache (invalidateUserCache "7" Sample.one_entry_cache) !! cacheKey "7:1" mysql = None.
Proof. split; vm_compute; reflexivity. Qed.

(** C8, amended.  For every cache state and every tenant [t],
    [invalidateUserCache(t)] removes the entries of [t] for all dialects, and
    leaves the entry of any other tenant as it was, present with the same
    value or absent, provided the other tenant's identifier does not begin
    with [t] followed by a colon.  Hit and miss counters are unchanged. *)
Theorem invalidateUserCache_frame (s : State) (t : string) :
  (forall d, cache (invalidateUserCache t s) !! cacheKey t d = None)
  /\ (forall t' d,
        t' <> t -> Js.startsWith t' (t +:+ ":") = false ->
        cache (invalidateUserCache t s) !! cacheKey t' d = cache s !! cacheKey t' d)
  /\ hits (invalidateUserCache t s) = hits s
  /\ misses (invalidateUserCache t s) = misses s.
Proof.
  split; [| split; [| split; reflexivity]].
  - intros d. now rewrite invalidateUserCache_lookup, cacheKey_matches_own_prefix.
  - intros t' d Hne Hext. rewrite invalidateUserCache_lookup.
    destruct (Js.startsWith (cacheKey t' d) _) eqn:E; [| reflexivity].
    apply cacheKey_matches_other_prefix in E as [-> | E]; [contradiction | congruence].
Qed.

End SchemaAnalyzerFacts.

(** ** Static query validator *)

Module QueryValidatorFacts.

Import Types Regex QueryValidator.
Local Open Scope validator_scope.

(** *** Analysis passes only read the schema and append to the arrays *)

(** [extend h d]: the heap [h] with the arrays of [d] appended to its own. *)
Definition extend (h d : Heap) : Heap :=
  {| h_schemaContext := h_schemaContext h;
     h_errors := h_errors h ++ h_errors d;
     h_warnings := h_warnings h ++ h_warnings d;
     h_suggestedIndexes := h_suggestedIndexes h ++ h_suggestedIndexes d |}.

(** A computation is local when running it in a heap amounts to running it
    on the schema context alone and appending what it pushed. *)
Definition local {T} (m : M T) : Prop :=
  forall h,
    m h = (fst (m (heap_of (h_schemaContext h))),
           extend h (snd (m (heap_of (h_schemaContext h))))).

Lemma heap_eq (h1 h2 : Heap) :
  h_schemaContext h1 = h_schemaContext h2 ->
  h_errors h1 = h_errors h2 ->
  h_warnings h1 = h_warnings h2 ->
  h_suggestedIndexes h1 = h_suggestedIndexes h2 ->
  h1 = h2.
Proof. destruct h1, h2; simpl; intros; subst; reflexivity. Qed.

Lemma extend_nothing (h : Heap) : extend h (heap_of (h_schemaContext h)) = h.
Proof. apply heap_eq; simpl; try reflexivity; apply app_nil_r. Qed.

Lemma extend_assoc (h d e : Heap) : extend (extend h d) e = extend h (extend d e).
Proof. apply heap_eq; simpl; try reflexivity; symmetry; apply app_assoc. Qed.

Lemma local_ret {T} (x : T) : local (ret x).
Proof. intros h. unfold ret. simpl. now rewrite extend_nothing. Qed.

Lemma local_read_schemaContext : local read_schemaContext.
Proof. intros h. unfold read_schemaContext. simpl. now rewrite extend_nothing. Qed.

Lemma local_push_error (msg : string) : local (push_error msg).
Proof.
  intros h. unfold push_error. simpl. f_equal.
  apply heap_eq; simpl; rewrite ?app_nil_r; reflexivity.
Qed.

Lemma local_push_warning (msg : string) : local (push_warning msg).
Proof.
  intros h. unfold push_warning. simpl. f_equal.
  apply heap_eq; simpl; rewrite ?app_nil_r; reflexivity.
Qed.

Lemma local_push_suggestedIndex (sql : string) : local (push_suggestedIndex sql).
Proof.
  intros h. unfold push_suggestedIndex. simpl. f_equal.
  apply heap_eq; simpl; rewrite ?app_nil_r; reflexivity.
Qed.

(** Running a local computation first: its continuation starts in the heap
    extended by what it pushed. *)
Lemma bind_local {T U} (m : M T) (f : T -> M U) (h : Heap) :
  local m ->
  bind m f h = f (fst (m (heap_of (h_schemaContext h))))
                 (extend h (snd (m (heap_of (h_schemaContext h))))).
Proof. intros Hm. unfold bind. now rewrite (Hm h). Qed.

Lemma local_bind {T U} (m : M T) (f : T -> M U) :
  local m -> (forall x, local (f x)) -> local (bind m f).
Proof.
  intros Hm Hf h. rewrite (bind_local m f h Hm).
  rewrite (bind_local m f (heap_of (h_schemaContext h)) Hm). simpl.
  set (x := fst (m (heap_of (h_schemaContext h)))).
  set (d := snd (m (heap_of (h_schemaContext h)))).
  rewrite (Hf x (extend h d)). rewrite (Hf x (extend (heap_of (h_schemaContext h)) d)).
  simpl. now rewrite extend_assoc.
Qed.

Lemma local_when (b : bool) (m : M unit) : local m -> local (when b m).
Proof. intros Hm. unfold when. destruct b; [assumption | apply local_ret]. Qed.

Lemma local_for_of {T} (l : list T) (body : T -> M unit) :
  (forall x, local (body x)) -> local (for_of l body).
Proof.
  intros Hbody. induction l as [|x l IH]; simpl; [apply local_ret |].
  apply local_bind; [apply Hbody | intros _; exact IH].
Qed.

Create HintDb validator_local.
#[local] Hint Resolve local_ret local_read_schemaContext local_push_error local_push_warning
  local_push_suggestedIndex local_when local_for_of : validator_local.

Ltac local_pass :=
  repeat first
    [ apply local_bind; [| intros ?]
    | apply local_when
    | apply local_for_of; intros ?
    | progress auto with validator_local
    | match goal with |- local (match ?x with _ => _ end) => destruct x end
    | match goal with |- local (if ?b then _ else _) => destruct b end ].

Lemma local_checkBasicSyntax (query : string) (d : DatabaseType) :
  local (checkBasicSyntax query d).
Proof. unfold checkBasicSyntax. local_pass. Qed.

Lemma local_validateAgainstSchema (query : string) : local (validateAgainstSchema query).
Proof. unfold validateAgainstSchema. local_pass. Qed.

Lemma local_checkSecurityIssues (query : string) : local (checkSecurityIssues query).
Proof. unfold checkSecurityIssues. local_pass. Qed.

Lemma local_checkDangerousOperations (query : string) :
  local (checkDangerousOperations query).
Proof. unfold checkDangerousOperations. local_pass. Qed.

Lemma local_analyzePerformance (query : string) : local (analyzePerformance query).
Proof. unfold analyzePerformance. local_pass. Qed.

(** The five passes in sequence. *)
Definition passes (query : string) (d : DatabaseType) : M unit :=
  checkBasicSyntax query d >>
  validateAgainstSchema query >>
  checkSecurityIssues query >>
  checkDangerousOperations query >>
  analyzePerformance query.

Lemma local_passes (query : string) (d : DatabaseType) : local (passes query d).
Proof.
  unfold passes.
  apply local_bind; [apply local_checkBasicSyntax | intros _].
  apply local_bind; [apply local_validateAgainstSchema | intros _].
  apply local_bind; [apply local_checkSecurityIssues | intros _].
  apply local_bind; [apply local_checkDangerousOperations | intros _].
  apply local_analyzePerformance.
Qed.

(** What a computation pushes when it runs on a schema context alone. *)
Definition pushed {T} (m : M T) (schemaContext : SchemaContext) : Heap :=
  snd (m (heap_of schemaContext)).

Lemma pushed_schemaContext {T} (m : M T) (schemaContext : SchemaContext) :
  local m -> h_schemaContext (pushed m schemaContext) = schemaContext.
Proof. intros Hm. unfold pushed. now rewrite (Hm (heap_of schemaContext)). Qed.

Lemma pushed_seq {T U} (m : M T) (k : M U) (schemaContext : SchemaContext) :
  local m -> local k ->
  pushed (m >> k) schemaContext = extend (pushed m schemaContext) (pushed k schemaContext).
Proof.
  intros Hm Hk. unfold pushed at 1. rewrite (bind_local _ _ _ Hm).
  rewrite (Hk _). simpl. fold (pushed m schemaContext). fold (pushed k schemaContext).
  rewrite extend_assoc.
  apply heap_eq; simpl; try reflexivity.
  now rewrite pushed_schemaContext.
Qed.

(** The response built from the arrays at the end of [validateQuery]. *)
Definition response_of (h : Heap) : ValidateQueryResponse :=
  {| isValid := Nat.eqb (length (h_errors h)) 0;
     errors := h_errors h;
     warnings := h_warnings h;
     suggestedIndexes := nonempty_or_undefined (h_suggestedIndexes h);
     indexes_hint := nonempty_or_undefined (h_suggestedIndexes h) |}.

(** [validateQuery] allocates its arrays, runs the passes and reads the
    arrays back: whatever the heap held before is not looked at. *)
Lemma validateQuery_passes (query : string) (d : DatabaseType) (h : Heap) :
  validateQuery query d h =
    (response_of (pushed (passes query d) (h_schemaContext h)),
     pushed (passes query d) (h_schemaContext h)).
Proof.
  unfold validateQuery, passes, pushed, bind, new_arrays, heap_of,
    read_errors, read_warnings, read_suggestedIndexes, ret, response_of.
  destruct (checkBasicSyntax query d _) as [[] h1].
  destruct (validateAgainstSchema query h1) as [[] h2].
  destruct (checkSecurityIssues query h2) as [[] h3].
  destruct (checkDangerousOperations query h3) as [[] h4].
  destruct (analyzePerformance query h4) as [[] h5].
  reflexivity.
Qed.

(** The arrays at the end hold what each pass pushed, in the order of the
    passes. *)
Lemma passes_pushed (query : string) (d : DatabaseType) (schemaContext : SchemaContext) :
  pushed (passes query d) schemaContext =
    extend (pushed (checkBasicSyntax query d) schemaContext)
      (extend (pushed (validateAgainstSchema query) schemaContext)
         (extend (pushed (checkSecurityIssues query) schemaContext)
            (extend (pushed (checkDangerousOperations query) schemaContext)
               (pushed (analyzePerformance query) schemaContext)))).
Proof.
  pose proof (local_checkBasicSyntax query d) as L1.
  pose proof (local_validateAgainstSchema query) as L2.
  pose proof (local_checkSecurityIssues query) as L3.
  pose proof (local_checkDangerousOperations query) as L4.
  pose proof (local_analyzePerformance query) as L5.
  assert (L45 : local (checkDangerousOperations query >> analyzePerformance query))
    by (apply local_bind; auto).
  assert (L345 : local (checkSecurityIssues query >> checkDangerousOperations query
                        >> analyzePerformance query))
    by (apply local_bind; auto).
  assert (L2345 : local (validateAgainstSchema query >> checkSecurityIssues query
                         >> checkDangerousOperations query >> analyzePerformance query))
    by (apply local_bind; auto).
  unfold passes.
  rewrite (pushed_seq _ _ _ L1 L2345), (pushed_seq _ _ _ L2 L345),
    (pushed_seq _ _ _ L3 L45), (pushed_seq _ _ _ L4 L5).
  reflexivity.
Qed.

(** C9.  [validateQuery] is deterministic and read-only: two invocations on
    the same query, dialect and schema context return equal results (same
    [isValid], [errors], [warnings] and [suggestedIndexes]), whatever the
    rest of the heap holds at the time of each call, and the schema context
    is the same after the call as before. *)
Theorem validateQuery_deterministic_read_only (query : string) (d : DatabaseType)
    (h1 h2 : Heap) :
  h_schemaContext h1 = h_schemaContext h2 ->
  fst (validateQuery query d h1) = fst (validateQuery query d h2)
  /\ h_schemaContext (snd (validateQuery query d h1)) = h_schemaContext h1
  /\ h_schemaContext (snd (validateQuery query d h2)) = h_schemaContext h2.
Proof.
  intros Hsame. rewrite !validateQuery_passes. simpl.
  rewrite !pushed_schemaContext by apply local_passes.
  now rewrite Hsame.
Qed.

(** The theorem at work: the same call in a clean heap and in a heap that
    holds arrays left by an earlier call. *)
Lemma validateQuery_deterministic_sample :
  QueryValidator.h_schemaContext (heap_of Sample.users_context)
    = QueryValidator.h_schemaContext
        {| h_schemaContext := Sample.users_context;
           h_errors := ["left over"]; h_warnings := ["left over"];
           h_suggestedIndexes := ["left over"] |}
  /\ fst (validateQuery "DELETE FROM users" postgres (heap_of Sample.users_context))
     = fst (validateQuery "DELETE FROM users" postgres
              {| h_schemaContext := Sample.users_context;
                 h_errors := ["left over"]; h_warnings := ["left over"];
                 h_suggestedIndexes := ["left over"] |}).
Proof.
  split; [reflexivity |].
  exact (proj1 (validateQuery_deterministic_read_only "DELETE FROM users" postgres
                  (heap_of Sample.users_context)
                  {| h_schemaContext := Sample.users_context;
                     h_errors := ["left over"]; h_warnings := ["left over"];
                     h_suggestedIndexes := ["left over"] |} eq_refl)).
Defined.

(** *** Which passes suggest indexes *)

(** A computation keeps the suggested indexes as they are. *)
Definition suggests_nothing {T} (m : M T) : Prop :=
  forall h, h_suggestedIndexes (snd (m h)) = h_suggestedIndexes h.

Lemma suggests_nothing_ret {T} (x : T) : suggests_nothing (ret x).
Proof. now intros h. Qed.

Lemma suggests_nothing_read : suggests_nothing read_schemaContext.
Proof. now intros h. Qed.

Lemma suggests_nothing_push_error (msg : string) : suggests_nothing (push_error msg).
Proof. now intros h. Qed.

Lemma suggests_nothing_push_warning (msg : string) : suggests_nothing (push_warning msg).
Proof. now intros h. Qed.

Lemma suggests_nothing_bind {T U} (m : M T) (f : T -> M U) :
  suggests_nothing m -> (forall x, suggests_nothing (f x)) -> suggests_nothing (bind m f).
Proof.
  intros Hm Hf h. unfold bind. specialize (Hm h).
  destruct (m h) as [x h']. simpl in Hm. now rewrite Hf.
Qed.

Lemma suggests_nothing_when (b : bool) (m : M unit) :
  suggests_nothing m -> suggests_nothing (when b m).
Proof. intros Hm. destruct b; [exact Hm | apply suggests_nothing_ret]. Qed.

Lemma suggests_nothing_for_of {T} (l : list T) (body : T -> M unit) :
  (forall x, suggests_nothing (body x)) -> suggests_nothing (for_of l body).
Proof.
  intros Hbody. induction l as [|x l IH]; simpl; [apply suggests_nothing_ret |].
  apply suggests_nothing_bind; [apply Hbody | intros _; exact IH].
Qed.

#[local] Hint Resolve suggests_nothing_ret suggests_nothing_read suggests_nothing_push_error
  suggests_nothing_push_warning suggests_nothing_when : validator_local.

Ltac quiet_pass :=
  repeat first
    [ apply suggests_nothing_bind; [| intros ?]
    | apply suggests_nothing_when
    | apply suggests_nothing_for_of; intros ?
    | progress auto with validator_local
    | match goal with |- suggests_nothing (match ?x with _ => _ end) => destruct x end
    | match goal with |- suggests_nothing (if ?b then _ else _) => destruct b end ].

Lemma checkBasicSyntax_suggests_nothing (query : string) (d : DatabaseType) :
  suggests_nothing (checkBasicSyntax query d).
Proof. unfold checkBasicSyntax. quiet_pass. Qed.

Lemma validateAgainstSchema_suggests_nothing (query : string) :
  suggests_nothing (validateAgainstSchema query).
Proof. unfold validateAgainstSchema. quiet_pass. Qed.

Lemma checkSecurityIssues_suggests_nothing (query : string) :
  suggests_nothing (checkSecurityIssues query).
Proof. unfold checkSecurityIssues. quiet_pass. Qed.

Lemma checkDangerousOperations_suggests_nothing (query : string) :
  suggests_nothing (checkDangerousOperations query).
Proof. unfold checkDangerousOperations. quiet_pass. Qed.

(** Only the performance pass fills [suggestedIndexes]. *)
Lemma validate_suggestedIndexes (query : string) (d : DatabaseType)
    (schemaContext : SchemaContext) :
  suggestedIndexes (validate query d schemaContext)
  = nonempty_or_undefined
      (h_suggestedIndexes (pushed (analyzePerformance query) schemaContext)).
Proof.
  unfold validate. rewrite validateQuery_passes. simpl. rewrite passes_pushed. simpl.
  unfold pushed at 1 2 3 4.
  now rewrite checkBasicSyntax_suggests_nothing, validateAgainstSchema_suggests_nothing,
    checkSecurityIssues_suggests_nothing, checkDangerousOperations_suggests_nothing.
Qed.

Lemma validate_warnings (query : string) (d : DatabaseType) (schemaContext : SchemaContext) :
  warnings (validate query d schemaContext)
  = (h_warnings (pushed (checkBasicSyntax query d) schemaContext)
     ++ h_warnings (pushed (validateAgainstSchema query) schemaContext)
     ++ h_warnings (pushed (checkSecurityIssues query) schemaContext)
     ++ h_warnings (pushed (checkDangerousOperations query) schemaContext)
     ++ h_warnings (pushed (analyzePerformance query) schemaContext))%list.
Proof.
  unfold validate. rewrite validateQuery_passes. simpl. now rewrite passes_pushed.
Qed.

(** *** The two queries of the index-suggestion example *)

Ltac run_pass :=
  unfold pushed; vm_compute;
  repeat match goal with
         | |- context [match ?x with true => _ | false => _ end] => destruct x
         end;
  reflexivity.

Lemma unqualified_query_warnings (d : DatabaseType) (schemaContext : SchemaContext) :
  h_warnings (pushed (checkBasicSyntax Sample.select_by_email d) schemaContext) = []
  /\ h_warnings (pushed (validateAgainstSchema Sample.select_by_email) schemaContext) = []
  /\ h_warnings (pushed (checkSecurityIssues Sample.select_by_email) schemaContext) = []
  /\ h_warnings (pushed (checkDangerousOperations Sample.select_by_email) schemaContext) = []
  /\ h_warnings (pushed (analyzePerformance Sample.select_by_email) schemaContext)
     = [Sample.select_star_warning]
  /\ h_suggestedIndexes (pushed (analyzePerformance Sample.select_by_email) schemaContext)
     = [].
Proof. repeat split; run_pass. Qed.

Lemma qualified_query_performance (schemaContext : SchemaContext) :
  hasIndex "users" "email" schemaContext = false ->
  pushed (analyzePerformance Sample.select_by_users_email) schemaContext
  = {| h_schemaContext := schemaContext;
       h_errors := [];
       h_warnings := [Sample.select_star_warning];
       h_suggestedIndexes := [Sample.email_index] |}.
Proof.
  intros H. unfold pushed, analyzePerformance.
  lazy -[hasIndex]. rewrite H. reflexivity.
Qed.

(** C5, as stated, fails.  Against the schema [users(id, email)] with an
    index on [id] only, the query is valid and gets the [SELECT *] warning,
    and no index is suggested: [suggestedIndexes] is undefined. *)
Lemma validate_unqualified_column_suggests_no_index :
  hasIndex "users" "email" Sample.users_context = false
  /\ validate "SELECT * FROM users WHERE email = 'x'" postgres Sample.users_context
     = {| isValid := true;
          errors := [];
          warnings := ["SELECT * detected; prefer explicit columns for better performance"];
          indexes_hint := None;
          suggestedIndexes := None |}.
Proof. split; vm_compute; reflexivity. Qed.

(** C5, amended.  Validating ["SELECT * FROM users WHERE email = 'x'"]
    against any schema context yields the warning about [SELECT *] and
    nothing else as a warning, and no suggested index, because an index is
    suggested only for a column written with its table.  Against a schema
    context in which [users.email] has no index, validating
    ["SELECT * FROM users WHERE users.email = 'x'"] yields the warning about
    [SELECT *] and exactly the suggested index
    ["CREATE INDEX idx_users_email ON users(email);"]. *)
Theorem validate_select_star_index_suggestion (d : DatabaseType)
    (schemaContext : SchemaContext) :
  hasIndex "users" "email" schemaContext = false ->
  (warnings (validate "SELECT * FROM users WHERE email = 'x'" d schemaContext)
     = ["SELECT * detected; prefer explicit columns for better performance"]
   /\ suggestedIndexes (validate "SELECT * FROM users WHERE email = 'x'" d schemaContext)
      = None)
  /\ (In "SELECT * detected; prefer explicit columns for better performance"
         (warnings (validate "SELECT * FROM users WHERE users.email = 'x'" d schemaContext))
      /\ suggestedIndexes
           (validate "SELECT * FROM users WHERE users.email = 'x'" d schemaContext)
         = Some ["CREATE INDEX idx_users_email ON users(email);"]).
Proof.
  intros Hnoindex.
  change "SELECT * FROM users WHERE email = 'x'" with Sample.select_by_email.
  change "SELECT * FROM users WHERE users.email = 'x'" with Sample.select_by_users_email.
  destruct (unqualified_query_warnings d schemaContext)
    as (W1 & W2 & W3 & W4 & W5 & S5).
  pose proof (qualified_query_performance schemaContext Hnoindex) as Hperf.
  repeat split.
  - now rewrite validate_warnings, W1, W2, W3, W4, W5.
  - now rewrite validate_suggestedIndexes, S5.
  - rewrite validate_warnings, Hperf.
    do 4 (apply in_or_app; right). now left.
  - now rewrite validate_suggestedIndexes, Hperf.
Qed.

(** The theorem at work on the schema of the tests. *)
Lemma validate_select_star_index_suggestion_sample :
  hasIndex "users" "email" Sample.users_context = false
  /\ suggestedIndexes
       (validate "SELECT * FROM users WHERE users.email = 'x'" postgres Sample.users_context)
     = Some ["CREATE INDEX idx_users_email ON users(email);"].
Proof.
  assert (H : hasIndex "users" "email" Sample.users_context = false) by reflexivity.
  split; [exact H |].
  exact (proj2 (proj2 (validate_select_star_index_suggestion postgres Sample.users_context H))).
Defined.

End QueryValidatorFacts.

(** ** Query execution gateway *)

Module QueryServiceFacts.

Import PoolManager QueryService.

(** The synthesized row: [Status] is the first row's own [Status] when it has
    one and ["Success"] otherwise; every other property is the first row's. *)
Lemma status_row_Status (result : DriverResult) :
  status_row result !! "Status"
  = Some (default (JsString "Success") (head (rows result) ≫= (.!! "Status"))).
Proof.
  unfold status_row. destruct (rows result) as [|first rest]; simpl.
  - apply lookup_singleton_eq.
  - rewrite lookup_union. destruct (first !! "Status") as [v|]; simpl.
    + now rewrite lookup_singleton_eq.
    + now rewrite lookup_singleton_eq.
Qed.

Lemma status_row_other (result : DriverResult) (key : string) :
  key <> "Status" ->
  status_row result !! key = head (rows result) ≫= (.!! key).
Proof.
  intros Hne. unfold status_row. destruct (rows result) as [|first rest]; simpl.
  - now apply lookup_singleton_ne.
  - rewrite lookup_union, lookup_singleton_ne by congruence.
    now destruct (first !! key).
Qed.

Lemma shape_table_without_fields (result : DriverResult) :
  hasFields result = false ->
  shape "table" result = TableOutput ["Status"] [status_row result] (rowCount_or_zero result).
Proof. intros H. unfold shape. simpl. now rewrite H. Qed.

Lemma shape_table_with_fields (result : DriverResult) (f : Field) (fs : list Field) :
  fields result = Some (f :: fs) ->
  shape "table" result
  = TableOutput (map name (f :: fs)) (rows result) (rowCount_or_zero result).
Proof. intros H. unfold shape, hasFields. simpl. now rewrite H. Qed.

Section WithDriver.

Context {A : Vault.Aead} {D : PoolManager.MysqlDriver}.
Variable KEY : Vault.Buffer.
Variable connect : Handle -> Result unit.
Variable query : Handle -> string -> Result DriverResult.

(** When the pool, the client and the statement all succeed, the call
    returns the shaped result and the client has been released. *)
Lemma executeQuery_success (userId encryptedUrl sql : string) (format : option string)
    (m m' : ConnectionManager) (pool : Handle) (result : DriverResult) :
  getPool KEY userId encryptedUrl m = (Ok pool, m') ->
  connect pool = Ok tt ->
  query pool sql = Ok result ->
  executeQuery KEY connect query userId encryptedUrl sql format m
  = (Ok (shape (default "table" format) result), m', [Connected; Queried sql; Released]).
Proof.
  intros Hpool Hconnect Hquery. unfold executeQuery.
  rewrite Hpool, Hconnect, Hquery. now destruct format.
Qed.

(** C7, amended.  For every [executeQuery] call in table format (given as
    ["table"] or left to its default) whose pool, client and statement
    succeed: when the driver reports no fields, [columns] is [["Status"]] and
    [rows] holds exactly one synthesized row, which is [{Status: "Success"}]
    overlaid with the own properties of the driver's first row if there is
    one, so that its [Status] is ["Success"] unless that first row carries a
    [Status] of its own; when the driver reports fields, [columns] are the
    field names and [rows] are the driver's rows as they are. *)
Theorem executeQuery_table_format (userId encryptedUrl sql : string) (format : option string)
    (m m' : ConnectionManager) (pool : Handle) (result : DriverResult) :
  getPool KEY userId encryptedUrl m = (Ok pool, m') ->
  connect pool = Ok tt ->
  query pool sql = Ok result ->
  format = None \/ format = Some "table" ->
  exists out,
    executeQuery KEY connect query userId encryptedUrl sql format m
    = (Ok out, m', [Connected; Queried sql; Released])
    /\ (hasFields result = false ->
        exists row,
          out = TableOutput ["Status"] [row] (rowCount_or_zero result)
          /\ row !! "Status"
             = Some (default (JsString "Success") (head (rows result) ≫= (.!! "Status")))
          /\ forall key, key <> "Status" -> row !! key = head (rows result) ≫= (.!! key))
    /\ (forall f fs,
          fields result = Some (f :: fs) ->
          out = TableOutput (map name (f :: fs)) (rows result) (rowCount_or_zero result)).
Proof.
  intros Hpool Hconnect Hquery Hformat.
  exists (shape "table" result). split.
  - rewrite (executeQuery_success _ _ _ _ _ _ _ _ Hpool Hconnect Hquery).
    now destruct Hformat as [-> | ->].
  - split.
    + intros Hnone. exists (status_row result).
      split; [now apply shape_table_without_fields |].
      split; [apply status_row_Status | apply status_row_other].
    + intros f fs Hfields. now apply shape_table_with_fields.
Qed.

End WithDriver.

(** A driver that answers every statement with [result]. *)
Definition always (result : DriverResult) : Handle -> string -> Result DriverResult :=
  fun _ _ => Ok result.

Definition ready : Handle -> Result unit := fun _ => Ok tt.

(** What an [INSERT] resolves to with the [pg] driver. *)
Definition insert_result : DriverResult :=
  {| rows := []; fields := Some []; rowCount := Some 1%Z |}.

(** A result without fields whose first row has a [Status] of its own. *)
Definition status_result : DriverResult :=
  {| rows := [{[ "Status" := JsString "Pending" ]}]; fields := None; rowCount := Some 1%Z |}.

(** The theorem at work on an [INSERT] run through a fresh Postgres pool. *)
Lemma executeQuery_table_format_sample :
  getPool (A := Sample.reversing) (D := Sample.scheme_checking) Sample.key "alice" PoolManagerFacts.pg_url initial
    = (Ok (PoolManagerFacts.pg_handle 0 "alice"),
       {| pools := {[ "alice" := PoolManagerFacts.pg_handle 0 "alice" ]}; allocated := 1 |})
  /\ ready (PoolManagerFacts.pg_handle 0 "alice") = Ok tt
  /\ always insert_result (PoolManagerFacts.pg_handle 0 "alice") "INSERT INTO t VALUES (1)"
     = Ok insert_result
  /\ ((None : option string) = None \/ (None : option string) = Some "table")
  /\ exists out events m',
       executeQuery (A := Sample.reversing) (D := Sample.scheme_checking) Sample.key ready (always insert_result)
         "alice" PoolManagerFacts.pg_url "INSERT INTO t VALUES (1)" None initial
       = (Ok out, m', events)
       /\ exists row, out = TableOutput ["Status"] [row] 1
                      /\ row !! "Status" = Some (JsString "Success").
Proof.
  assert (H1 : getPool (A := Sample.reversing) (D := Sample.scheme_checking) Sample.key "alice" PoolManagerFacts.pg_url
                 initial
               = (Ok (PoolManagerFacts.pg_handle 0 "alice"),
                  {| pools := {[ "alice" := PoolManagerFacts.pg_handle 0 "alice" ]};
                     allocated := 1 |})) by (vm_compute; reflexivity).
  split; [exact H1 |]. split; [reflexivity |]. split; [reflexivity |].
  split; [now left |].
  destruct (executeQuery_table_format (A := Sample.reversing)
              (D := Sample.scheme_checking) Sample.key ready
              (always insert_result) "alice" PoolManagerFacts.pg_url
              "INSERT INTO t VALUES (1)" None _ _ _ insert_result H1 eq_refl eq_refl
              (or_introl eq_refl))
    as (out & Hrun & Hnone & _).
  exists out. eexists _, _. split; [exact Hrun |].
  destruct (Hnone eq_refl) as (row & Hout & Hstatus & _).
  exists row. split; [exact Hout | exact Hstatus].
Defined.

(** C7, as stated, fails.  The driver reports no fields and its first row
    has a [Status] property; the single row returned carries that value, not
    ["Success"]. *)
Lemma executeQuery_keeps_status_of_first_row :
  hasFields status_result = false
  /\ fst (fst (executeQuery (A := Sample.reversing) (D := Sample.scheme_checking) Sample.key ready (always status_result)
                 "alice" PoolManagerFacts.pg_url "CALL report()" (Some "table") initial))
     = Ok (TableOutput ["Status"] [status_row status_result] 1)
  /\ status_row status_result !! "Status" = Some (JsString "Pending").
Proof. repeat split; vm_compute; reflexivity. Qed.

End QueryServiceFacts.

(** ** Stored connections *)

Module WorkspaceFacts.

Import Workspace.

Lemma count_connections_insert (user owner : string) (label : option string)
    (encryptedUrl : string) (isActive : bool) (db : Metadata) :
  count_connections user (insert_connection owner label encryptedUrl isActive db)
  = count_connections user db + (if String.eqb owner user then 1 else 0).
Proof.
  unfold count_connections, insert_connection. simpl.
  rewrite List.filter_app, length_app. simpl.
  now destruct (String.eqb owner user).
Qed.

(** An update that keeps the owner of every row keeps every count. *)
Lemma count_connections_map (user : string) (f : user_connection -> user_connection)
    (rows : list user_connection) (n : nat) :
  (forall r, user_id (f r) = user_id r) ->
  count_connections user {| user_connections := map f rows; next_id := n |}
  = count_connections user {| user_connections := rows; next_id := n |}.
Proof.
  intros Hf. unfold count_connections. simpl.
  induction rows as [|r rows IH]; simpl; [reflexivity |].
  rewrite Hf. destruct (String.eqb (user_id r) user); simpl; now rewrite IH.
Qed.

Lemma count_connections_deactivate_all (user owner : string) (db : Metadata) :
  count_connections user (deactivate_all owner db) = count_connections user db.
Proof.
  destruct db as [rows n]. unfold deactivate_all. simpl.
  apply count_connections_map. intros r. now destruct (String.eqb (user_id r) owner).
Qed.

Lemma count_connections_activate (user owner : string) (connectionId : nat) (db : Metadata) :
  count_connections user (fst (activate connectionId owner db)) = count_connections user db.
Proof.
  destruct db as [rows n]. unfold activate. simpl.
  apply count_connections_map. intros r. now destruct (_ && _).
Qed.

Section WithVault.

Context {A : Vault.Aead}.
Variable KEY : Vault.Buffer.





End WithVault.

Definition empty_world : World :=
  {| metadata := {| user_connections := []; next_id := 1 |};
     poolManager := PoolManager.initial |}.

Definition add_request (url : string) : AuthRequest :=
  {| userId := Some "alice"; body_label := Some "main"; body_url := Some url;
     body_connectionId := None |}.

Definition first_row : user_connection :=
  {| id := 1; user_id := "alice"; label := Some "main";
     encrypted_url := PoolManagerFacts.pg_url; is_active := true |}.

Definition after_first_add : World :=
  {| metadata := {| user_connections := [first_row]; next_id := 2 |};
     poolManager := PoolManager.initial |}.


End WorkspaceFacts.

(** * Further properties of the code *)

(** ** Credential vault: the format of tokens *)

Module VaultTokens.

Import Vault.

Lemma all_hex_toString_hex (buf : Buffer) : all_hex (toString_hex buf) = true.
Proof.
  induction buf as [|b buf IH]; [reflexivity |].
  simpl toString_hex. unfold hex_of_byte.
  cbn [all_hex]. rewrite IH. now destruct b.
Qed.

Lemma length_toString_hex (buf : Buffer) :
  String.length (toString_hex buf) = 2 * length buf.
Proof.
  induction buf as [|b buf IH]; [reflexivity |].
  simpl toString_hex. unfold hex_of_byte. cbn [String.length length]. rewrite IH. lia.
Qed.

Lemma toString_hex_inj (a b : Buffer) : toString_hex a = toString_hex b -> a = b.
Proof.
  intros H. rewrite <- (VaultFacts.from_hex_toString_hex a), H.
  apply VaultFacts.from_hex_toString_hex.
Qed.

Section WithCipher.

Context {A : Aead}.
Variable KEY : Buffer.

Lemma encrypt_fields (iv : Buffer) (text token : string) :
  encrypt KEY iv text = Some token ->
  Js.split ":" token
  = [toString_hex iv;
     toString_hex (gcm_tag KEY iv (gcm_encrypt KEY iv (list_byte_of_string text)));
     toString_hex (gcm_encrypt KEY iv (list_byte_of_string text))].
Proof.
  unfold encrypt. destruct (cipher_init KEY iv); [| discriminate].
  intros [= <-]. apply VaultFacts.split_token.
Qed.

(** X1.  Every token returned by [encrypt] has exactly three fields
    separated by colons: the nonce, the authentication tag and the
    ciphertext, each in hexadecimal with two characters per byte.  With the
    16-byte nonce the code draws and a 16-byte tag, the token is in the
    documented format. *)
Theorem encrypt_token_format (iv : Buffer) (text token : string) :
  encrypt KEY iv text = Some token ->
  Js.count_char ":" token = 2
  /\ (exists authTag encrypted,
        Js.split ":" token = [toString_hex iv; toString_hex authTag; toString_hex encrypted]
        /\ encrypted = gcm_encrypt KEY iv (list_byte_of_string text)
        /\ authTag = gcm_tag KEY iv encrypted)
  /\ forallb all_hex (Js.split ":" token) = true
  /\ (length iv = IV_LENGTH ->
      length (gcm_tag KEY iv (gcm_encrypt KEY iv (list_byte_of_string text))) = TAG_LENGTH ->
      well_formed_token token = true).
Proof.
  intros Henc. pose proof (encrypt_fields iv text token Henc) as Hsplit.
  split.
  { pose proof (VaultFacts.split_length ":" token) as Hlen.
    rewrite Hsplit in Hlen. simpl in Hlen. lia. }
  split; [eexists _, _; split; [exact Hsplit | split; reflexivity] |].
  split.
  { rewrite Hsplit. simpl. now rewrite !all_hex_toString_hex. }
  intros Hiv Htag. unfold well_formed_token. rewrite Hsplit.
  rewrite !all_hex_toString_hex, !length_toString_hex, Hiv, Htag.
  rewrite !Nat.eqb_refl, Nat.even_mul. reflexivity.
Qed.

(** X2.  Tokens made with different nonces are different, whatever the
    plaintexts: the nonce is the first field of the token. *)
Theorem encrypt_distinct_nonces (iv1 iv2 : Buffer) (text1 text2 token1 token2 : string) :
  encrypt KEY iv1 text1 = Some token1 ->
  encrypt KEY iv2 text2 = Some token2 ->
  iv1 <> iv2 ->
  token1 <> token2.
Proof.
  intros H1 H2 Hne Heq. subst token2.
  apply encrypt_fields in H1. apply encrypt_fields in H2.
  rewrite H1 in H2. injection H2 as Hiv _ _.
  now apply Hne, toString_hex_inj.
Qed.

End WithCipher.

(** The format of the token of a connection string, with the stand-in
    cipher. *)
Lemma encrypt_token_format_sample :
  encrypt (A := Sample.reversing) Sample.key Sample.nonce
    "postgres://u:p@db.example.com:5432/app" = Some PoolManagerFacts.pg_url
  /\ Js.count_char ":" PoolManagerFacts.pg_url = 2
  /\ well_formed_token PoolManagerFacts.pg_url = true.
Proof.
  assert (H : encrypt (A := Sample.reversing) Sample.key Sample.nonce
                "postgres://u:p@db.example.com:5432/app" = Some PoolManagerFacts.pg_url)
    by (vm_compute; reflexivity).
  split; [exact H |].
  destruct (encrypt_token_format (A := Sample.reversing) Sample.key Sample.nonce _ _ H)
    as (Hcount & _ & _ & Hformat).
  split; [exact Hcount | apply Hformat; reflexivity].
Defined.

Definition second_nonce : Buffer := repeat x02 16.

Lemma encrypt_distinct_nonces_sample :
  encrypt (A := Sample.reversing) Sample.key Sample.nonce "hi"
    = Some "01010101010101010101010101010101:2a2a2a2a2a2a2a2a2a2a2a2a2a2a2a2a:6968"
  /\ encrypt (A := Sample.reversing) Sample.key second_nonce "hi"
     = Some "02020202020202020202020202020202:2a2a2a2a2a2a2a2a2a2a2a2a2a2a2a2a:6968"
  /\ Sample.nonce <> second_nonce
  /\ "01010101010101010101010101010101:2a2a2a2a2a2a2a2a2a2a2a2a2a2a2a2a:6968"
     <> "02020202020202020202020202020202:2a2a2a2a2a2a2a2a2a2a2a2a2a2a2a2a:6968".
Proof.
  assert (H1 : encrypt (A := Sample.reversing) Sample.key Sample.nonce "hi"
               = Some "01010101010101010101010101010101:2a2a2a2a2a2a2a2a2a2a2a2a2a2a2a2a:6968")
    by (vm_compute; reflexivity).
  assert (H2 : encrypt (A := Sample.reversing) Sample.key second_nonce "hi"
               = Some "02020202020202020202020202020202:2a2a2a2a2a2a2a2a2a2a2a2a2a2a2a2a:6968")
    by (vm_compute; reflexivity).
  assert (H3 : Sample.nonce <> second_nonce) by discriminate.
  split; [exact H1 |]. split; [exact H2 |]. split; [exact H3 |].
  exact (encrypt_distinct_nonces (A := Sample.reversing) Sample.key _ _ _ _ _ _ H1 H2 H3).
Defined.

End VaultTokens.

(** ** Schema introspection queries: [modules/query/query.service.js] *)

Module Introspection.

Import PoolManager QueryService.

(** The catalog queries, as the template literals of the source spell them. *)
Definition mysql_schemaSql : string :=
  "
        SELECT 
          TABLE_NAME as table_name, 
          COLUMN_NAME as column_name, 
          DATA_TYPE as data_type, 
          IS_NULLABLE as is_nullable
        FROM information_schema.COLUMNS 
        WHERE TABLE_SCHEMA = DATABASE()
        ORDER BY TABLE_NAME, ORDINAL_POSITION;
      ".

Definition mysql_constraintSql : string :=
  "
        SELECT 
          TABLE_NAME as table_name, 
          COLUMN_NAME as column_name, 
          IF(CONSTRAINT_NAME = 'PRIMARY', 'PRIMARY KEY', 'FOREIGN KEY') AS constraint_type,
          REFERENCED_TABLE_NAME as referenced_table_name
        FROM information_schema.KEY_COLUMN_USAGE
        WHERE TABLE_SCHEMA = DATABASE() 
        AND (REFERENCED_TABLE_NAME IS NOT NULL OR CONSTRAINT_NAME = 'PRIMARY');
      ".

Definition postgres_schemaSql : string :=
  "
        SELECT table_name, column_name, data_type, is_nullable
        FROM information_schema.columns 
        WHERE table_schema = 'public'
        ORDER BY table_name, ordinal_position;
      ".

Definition postgres_constraintSql : string :=
  "
        SELECT 
          tc.table_name, kcu.column_name, tc.constraint_type,
          ccu.table_name AS referenced_table_name
        FROM information_schema.table_constraints AS tc 
        JOIN information_schema.key_column_usage AS kcu ON tc.constraint_name = kcu.constraint_name
        LEFT JOIN information_schema.referential_constraints AS rc ON tc.constraint_name = rc.constraint_name
        LEFT JOIN (SELECT DISTINCT table_name, constraint_name FROM information_schema.constraint_column_usage) AS ccu
          ON rc.unique_constraint_name = ccu.constraint_name
        WHERE tc.table_schema = 'public';
      ".

Definition schemaSql (dialect : Types.DatabaseType) : string :=
  match dialect with
  | Types.mysql => mysql_schemaSql
  | Types.postgres => postgres_schemaSql
  end.

Definition constraintSql (dialect : Types.DatabaseType) : string :=
  match dialect with
  | Types.mysql => mysql_constraintSql
  | Types.postgres => postgres_constraintSql
  end.

(** What [getDatabaseSchema] resolves to: the rows of the two queries. *)
Record SchemaRows := {
  schema : list Row;
  constraints : list Row
}.

Section WithDriver.

Context {A : Vault.Aead} {D : PoolManager.MysqlDriver}.
Variable KEY : Vault.Buffer.
Variable connect : Handle -> Result unit.
Variable query : Handle -> string -> Result DriverResult.

(** [getDialectFromUrl(encryptedUrl)]: an exception of [decrypt] is caught
    and the dialect defaults to Postgres. *)
Definition getDialectFromUrl (encryptedUrl : string) : Types.DatabaseType :=
  match Vault.decrypt KEY encryptedUrl with
  | Some text =>
      if Js.startsWith (Js.toLowerCase text) "mysql" then Types.mysql else Types.postgres
  | None => Types.postgres
  end.

(** [getDatabaseSchema(userId, encryptedUrl)]: the pool and the client are
    obtained first, then the dialect is read off the URL of the call; the
    client is released by [finally] once it has been obtained. *)
Definition getDatabaseSchema (userId encryptedUrl : string) (m : ConnectionManager)
    : Result SchemaRows * ConnectionManager * list ClientEvent :=
  match getPool KEY userId encryptedUrl m with
  | (Throw e, m') => (Throw e, m', [])
  | (Ok pool, m') =>
      match connect pool with
      | Throw e => (Throw e, m', [])
      | Ok _ =>
          let dialect := getDialectFromUrl encryptedUrl in
          match query pool (schemaSql dialect) with
          | Throw error =>
              (Throw error, m', [Connected; Queried (schemaSql dialect); Released])
          | Ok schemaRes =>
              match query pool (constraintSql dialect) with
              | Throw error =>
                  (Throw error, m',
                   [Connected; Queried (schemaSql dialect); Queried (constraintSql dialect);
                    Released])
              | Ok constraintRes =>
                  (Ok {| schema := rows schemaRes; constraints := rows constraintRes |}, m',
                   [Connected; Queried (schemaSql dialect); Queried (constraintSql dialect);
                    Released])
              end
          end
      end
  end.

(** [getVisualSchema(userId, encryptedUrl)] *)
Definition getVisualSchema (userId encryptedUrl : string) (m : ConnectionManager)
    : Result SchemaRows * ConnectionManager * list ClientEvent :=
  getDatabaseSchema userId encryptedUrl m.

End WithDriver.

End Introspection.

(** ** Connection pool manager: failures, closing and the error observer *)

Module PoolManagerLifecycle.

Import PoolManager.

Lemma closePool_delete (userId : string) (m : ConnectionManager) :
  closePool userId m = {| pools := delete userId (pools m); allocated := allocated m |}.
Proof.
  unfold closePool. destruct (pools m !! userId) eqn:E; [reflexivity |].
  rewrite delete_id by assumption. now destruct m.
Qed.

(** X5.  [closePool] is idempotent, does nothing for a tenant without a
    pool, and two [closePool] calls can be made in either order. *)
Theorem closePool_idempotent_commutes (u v : string) (m : ConnectionManager) :
  closePool u (closePool u m) = closePool u m
  /\ closePool u (closePool v m) = closePool v (closePool u m)
  /\ (pools m !! u = None -> closePool u m = m).
Proof.
  split; [| split].
  - rewrite !closePool_delete. simpl. now rewrite delete_delete_eq.
  - rewrite !closePool_delete. simpl. now rewrite delete_delete.
  - intros H. unfold closePool. now rewrite H.
Qed.

Section WithVault.

Context {A : Vault.Aead} {D : PoolManager.MysqlDriver}.
Variable KEY : Vault.Buffer.

(** X3.  When [getPool] throws, the manager is left as it was and the tenant
    still has no pool; it throws only on first use, and for one of three
    reasons: the string does not decrypt, and the exception is that of
    [decrypt]; it decrypts to the empty string, and the exception is the one
    [getPool] makes; or it decrypts to a string that starts with [mysql] in
    any letter case and [mysql.createPool] throws on it, and the exception
    is that of the driver.  A string that goes to the Postgres branch never
    makes [getPool] throw. *)
Theorem getPool_failure_stores_nothing (userId encryptedUrl : string)
    (m m' : ConnectionManager) (e : Error) :
  getPool KEY userId encryptedUrl m = (Throw e, m') ->
  m' = m
  /\ pools m !! userId = None
  /\ (Vault.decrypt KEY encryptedUrl = None /\ e = CipherError
      \/ Vault.decrypt KEY encryptedUrl = Some ""
         /\ e = ErrorMessage ("Failed to decrypt connection string for user " +:+ userId
                              +:+ ". Result is not a string.")
      \/ exists connectionString,
           Vault.decrypt KEY encryptedUrl = Some connectionString
           /\ connectionString <> ""
           /\ Js.startsWith (Js.toLowerCase connectionString) "mysql" = true
           /\ createPool connectionString = Some e).
Proof.
  unfold getPool. destruct (pools m !! userId) as [h|]; [discriminate |].
  destruct (Vault.decrypt KEY encryptedUrl) as [text|].
  - destruct text as [|c text]; cbn [Js.truthy negb].
    + intros [= <- <-]. split; [reflexivity |]. split; [reflexivity |].
      right. left. now split.
    + destruct (Js.startsWith _ _) eqn:Hmysql; [| discriminate].
      destruct (createPool (String c text)) as [e'|] eqn:Hdriver; [| discriminate].
      intros [= <- <-]. split; [reflexivity |]. split; [reflexivity |].
      right. right. exists (String c text). now repeat split.
  - intros [= <- <-]. auto.
Qed.

(** X4.  An ['error'] event on a pool built by [getPool] for a tenant: if
    the pool is a Postgres pool, the observer registered on it calls
    [closePool] for that tenant, which closes the pool the tenant has at
    that time, this one or a later one; if it is a MySQL pool, no observer
    was registered and the manager does not change. *)
Theorem pool_error_closes_by_tenant (userId encryptedUrl : string)
    (m0 m1 : ConnectionManager) (h : Handle) :
  pools m0 !! userId = None ->
  getPool KEY userId encryptedUrl m0 = (Ok h, m1) ->
  forall m,
    emit_error h m
    = match object h with
      | PgPool _ _ => closePool userId m
      | MysqlAdapter _ => m
      end.
Proof.
  intros Hnone. unfold getPool. rewrite Hnone.
  destruct (Vault.decrypt KEY encryptedUrl) as [text|]; [| discriminate].
  destruct (negb (Js.truthy text)); [discriminate |].
  destruct (Js.startsWith _ _); [destruct (createPool text); [discriminate |] |];
    intros [= <- _] m; reflexivity.
Qed.

End WithVault.

(** The token of the string ["mysql"], which is no URL. *)
Definition mysql_word : string :=
  "01010101010101010101010101010101:2a2a2a2a2a2a2a2a2a2a2a2a2a2a2a2a:6c7173796d".

Lemma getPool_failure_stores_nothing_sample :
  getPool (A := Sample.reversing) (D := Sample.scheme_checking) Sample.key "alice"
    mysql_word initial
    = (Throw (ErrorMessage "Invalid URL"), initial)
  /\ pools initial !! "alice" = None
  /\ Vault.decrypt (A := Sample.reversing) Sample.key mysql_word = Some "mysql".
Proof.
  assert (H : getPool (A := Sample.reversing) (D := Sample.scheme_checking) Sample.key
                "alice" mysql_word initial
              = (Throw (ErrorMessage "Invalid URL"), initial)) by (vm_compute; reflexivity).
  split; [exact H |].
  split; [| vm_compute; reflexivity].
  exact (proj1 (proj2 (getPool_failure_stores_nothing (A := Sample.reversing)
                         (D := Sample.scheme_checking) Sample.key _ _ _ _ _ H))).
Defined.

(** A manager in which ["alice"] already has a newer pool than the one that
    emits the error. *)
Definition later_manager : ConnectionManager :=
  {| pools := {[ "alice" := PoolManagerFacts.pg_handle 5 "alice" ]}; allocated := 6 |}.

Lemma pool_error_closes_by_tenant_sample :
  pools initial !! "alice" = None
  /\ getPool (A := Sample.reversing) (D := Sample.scheme_checking) Sample.key "alice" PoolManagerFacts.pg_url initial
     = (Ok (PoolManagerFacts.pg_handle 0 "alice"),
        {| pools := {[ "alice" := PoolManagerFacts.pg_handle 0 "alice" ]}; allocated := 1 |})
  /\ emit_error (PoolManagerFacts.pg_handle 0 "alice") later_manager
     = closePool "alice" later_manager.
Proof.
  assert (H0 : pools initial !! "alice" = None) by reflexivity.
  assert (H : getPool (A := Sample.reversing) (D := Sample.scheme_checking) Sample.key "alice" PoolManagerFacts.pg_url
                initial
              = (Ok (PoolManagerFacts.pg_handle 0 "alice"),
                 {| pools := {[ "alice" := PoolManagerFacts.pg_handle 0 "alice" ]};
                    allocated := 1 |})) by (vm_compute; reflexivity).
  split; [exact H0 |]. split; [exact H |].
  exact (pool_error_closes_by_tenant (A := Sample.reversing)
              (D := Sample.scheme_checking) Sample.key _ _ _ _ _ H0 H
           later_manager).
Defined.

End PoolManagerLifecycle.

(** ** Schema introspection queries: which dialect, on which pool *)

Module IntrospectionFacts.

Import PoolManager QueryService Introspection.

Section WithDriver.

Context {A : Vault.Aead} {D : PoolManager.MysqlDriver}.
Variable KEY : Vault.Buffer.
Variable connect : Handle -> Result unit.
Variable query : Handle -> string -> Result DriverResult.

(** X6.  On first use, when [getDatabaseSchema] obtains a pool and a client,
    the statements it sends are those of the dialect of the pool it has just
    built: the MySQL catalog queries go to a MySQL pool and the Postgres
    ones to a Postgres pool, and the pool is stored for the tenant. *)
Theorem getDatabaseSchema_dialect_on_first_use (userId encryptedUrl : string)
    (m m' : ConnectionManager) (r : Result SchemaRows) (events : list ClientEvent) :
  pools m !! userId = None ->
  getDatabaseSchema KEY connect query userId encryptedUrl m = (r, m', events) ->
  events <> [] ->
  exists h,
    pools m' !! userId = Some h
    /\ firstn 2 events = [Connected; Queried (schemaSql (getDialectFromUrl KEY encryptedUrl))]
    /\ last events = Some Released
    /\ match object h with
       | MysqlAdapter _ => getDialectFromUrl KEY encryptedUrl = Types.mysql
       | PgPool _ _ => getDialectFromUrl KEY encryptedUrl = Types.postgres
       end.
Proof.
  intros Hnone. unfold getDatabaseSchema.
  destruct (getPool KEY userId encryptedUrl m) as [[h|e] m1] eqn:Hpool;
    [| intros [= _ _ <-]; contradiction].
  pose proof (PoolManagerFacts.getPool_stores KEY _ _ _ _ _ Hpool) as Hstored.
  assert (Hkind : match object h with
                  | MysqlAdapter _ => getDialectFromUrl KEY encryptedUrl = Types.mysql
                  | PgPool _ _ => getDialectFromUrl KEY encryptedUrl = Types.postgres
                  end).
  { unfold getPool in Hpool. rewrite Hnone in Hpool. unfold getDialectFromUrl.
    destruct (Vault.decrypt KEY encryptedUrl) as [text|]; [| discriminate].
    destruct (negb (Js.truthy text)); [discriminate |].
    destruct (Js.startsWith _ _); [destruct (createPool text); [discriminate |] |];
      injection Hpool as <- _; reflexivity. }
  destruct (connect h) as [[]|e]; [| intros [= _ _ <-]; contradiction].
  destruct (query h (schemaSql _)) as [schemaRes|e].
  - destruct (query h (constraintSql _)) as [constraintRes|e];
      intros [= _ <- <-] _; exists h; auto.
  - intros [= _ <- <-] _. exists h. auto.
Qed.

(** X7.  When the tenant already has a pool and its client is obtained, the
    statements are chosen from the URL of the call alone and sent to that
    pool, whatever its kind, and the manager is unchanged: the URL is not
    checked against the pool, and a URL that does not decrypt selects the
    Postgres statements. *)
Theorem getDatabaseSchema_dialect_with_cached_pool (userId encryptedUrl : string)
    (m : ConnectionManager) (h : Handle) :
  pools m !! userId = Some h ->
  connect h = Ok tt ->
  exists r events,
    getDatabaseSchema KEY connect query userId encryptedUrl m = (r, m, events)
    /\ firstn 2 events = [Connected; Queried (schemaSql (getDialectFromUrl KEY encryptedUrl))]
    /\ (Vault.decrypt KEY encryptedUrl = None ->
        firstn 2 events = [Connected; Queried postgres_schemaSql])
    /\ match query h (schemaSql (getDialectFromUrl KEY encryptedUrl)),
             query h (constraintSql (getDialectFromUrl KEY encryptedUrl)) with
       | Ok schemaRes, Ok constraintRes =>
           r = Ok {| schema := rows schemaRes; constraints := rows constraintRes |}
       | Ok _, Throw e => r = Throw e
       | Throw e, _ => r = Throw e
       end.
Proof.
  intros Hh Hconnect. unfold getDatabaseSchema.
  rewrite (PoolManagerFacts.getPool_hit KEY _ _ _ _ Hh), Hconnect.
  assert (Hbad : Vault.decrypt KEY encryptedUrl = None ->
                 getDialectFromUrl KEY encryptedUrl = Types.postgres).
  { intros Hd. unfold getDialectFromUrl. now rewrite Hd. }
  destruct (query h (schemaSql _)) as [schemaRes|e].
  - destruct (query h (constraintSql _)) as [constraintRes|e];
      eexists _, _; (split; [reflexivity |]); (split; [reflexivity |]);
      (split; [| reflexivity]); intros Hd; simpl; now rewrite (Hbad Hd).
  - eexists _, _. split; [reflexivity |]. split; [reflexivity |].
    split; [| reflexivity]. intros Hd. simpl. now rewrite (Hbad Hd).
Qed.

(** X8.  Once [executeQuery] has obtained a pool and a client for a tenant,
    a further [executeQuery] of that tenant runs on the same pool and leaves
    the manager as it is, whatever connection string it is given; its
    outcome is the outcome of the statement on that pool, and its client is
    released. *)
Theorem executeQuery_reuses_pool (userId url1 sql1 : string) (format1 : option string)
    (m m1 : ConnectionManager) (r1 : Result Output) (events1 : list ClientEvent) :
  executeQuery KEY connect query userId url1 sql1 format1 m = (r1, m1, events1) ->
  events1 <> [] ->
  exists h,
    pools m1 !! userId = Some h
    /\ forall url2 sql2 format2,
         executeQuery KEY connect query userId url2 sql2 format2 m1
         = (match query h sql2 with
            | Ok result => Ok (shape (default "table" format2) result)
            | Throw e => Throw e
            end, m1, [Connected; Queried sql2; Released]).
Proof.
  unfold executeQuery at 1.
  destruct (getPool KEY userId url1 m) as [[h|e] m'] eqn:Hpool;
    [| intros [= _ _ <-]; contradiction].
  pose proof (PoolManagerFacts.getPool_stores KEY _ _ _ _ _ Hpool) as Hstored.
  destruct (connect h) as [[]|e] eqn:Hconnect; [| intros [= _ _ <-]; contradiction].
  intros Hrun _.
  assert (Hm : m1 = m') by (destruct (query h sql1); now injection Hrun).
  subst m1. exists h. split; [assumption |].
  intros url2 sql2 format2. unfold executeQuery.
  rewrite (PoolManagerFacts.getPool_hit KEY _ _ _ _ Hstored), Hconnect.
  destruct (query h sql2); destruct format2; reflexivity.
Qed.

End WithDriver.

(** A driver whose catalog queries return no rows. *)
Definition no_rows : DriverResult := {| rows := []; fields := Some []; rowCount := Some 0%Z |}.

(** First use with a MySQL connection string: the MySQL catalog queries are
    sent to the MySQL pool that was built. *)
Lemma getDatabaseSchema_dialect_on_first_use_sample :
  pools initial !! "alice" = None
  /\ exists r m' events,
       getDatabaseSchema (A := Sample.reversing) (D := Sample.scheme_checking) Sample.key QueryServiceFacts.ready
         (QueryServiceFacts.always no_rows) "alice" PoolManagerFacts.mysql_url initial
       = (r, m', events)
       /\ events <> []
       /\ firstn 2 events = [Connected; Queried mysql_schemaSql]
       /\ exists h, pools m' !! "alice" = Some h
                    /\ object h = MysqlAdapter "mysql://u:p@db.example.com:3306/app".
Proof.
  assert (H0 : pools initial !! "alice" = None) by reflexivity.
  split; [exact H0 |].
  destruct (getDatabaseSchema (A := Sample.reversing) (D := Sample.scheme_checking) Sample.key QueryServiceFacts.ready
              (QueryServiceFacts.always no_rows) "alice" PoolManagerFacts.mysql_url initial)
    as [[r m'] events] eqn:Hrun.
  assert (Hev : events <> []).
  { vm_compute in Hrun. injection Hrun as _ _ <-. discriminate. }
  exists r, m', events. split; [reflexivity |]. split; [exact Hev |].
  destruct (getDatabaseSchema_dialect_on_first_use (A := Sample.reversing)
              (D := Sample.scheme_checking) Sample.key
              QueryServiceFacts.ready (QueryServiceFacts.always no_rows)
              "alice" PoolManagerFacts.mysql_url initial m' r events H0 Hrun Hev)
    as (h & Hstored & Hfirst & _ & _).
  assert (Hd : getDialectFromUrl (A := Sample.reversing) Sample.key PoolManagerFacts.mysql_url
               = Types.mysql) by (vm_compute; reflexivity).
  rewrite Hd in Hfirst. split; [exact Hfirst |].
  exists h. split; [exact Hstored |].
  vm_compute in Hrun. injection Hrun as _ <- _.
  vm_compute in Hstored. now injection Hstored as <-.
Defined.

(** A manager in which ["alice"] has a Postgres pool. *)
Definition alice_on_postgres : ConnectionManager :=
  {| pools := {[ "alice" := PoolManagerFacts.pg_handle 0 "alice" ]}; allocated := 1 |}.

(** The tenant has a Postgres pool and the call is given a MySQL connection
    string: the MySQL catalog queries are sent to the Postgres pool. *)
Lemma getDatabaseSchema_dialect_with_cached_pool_sample :
  pools alice_on_postgres !! "alice" = Some (PoolManagerFacts.pg_handle 0 "alice")
  /\ QueryServiceFacts.ready (PoolManagerFacts.pg_handle 0 "alice") = Ok tt
  /\ exists r events,
       getDatabaseSchema (A := Sample.reversing) (D := Sample.scheme_checking) Sample.key QueryServiceFacts.ready
         (QueryServiceFacts.always no_rows) "alice" PoolManagerFacts.mysql_url
         alice_on_postgres
       = (r, alice_on_postgres, events)
       /\ firstn 2 events = [Connected; Queried mysql_schemaSql].
Proof.
  assert (H0 : pools alice_on_postgres !! "alice"
               = Some (PoolManagerFacts.pg_handle 0 "alice")) by (vm_compute; reflexivity).
  split; [exact H0 |]. split; [reflexivity |].
  destruct (getDatabaseSchema_dialect_with_cached_pool (A := Sample.reversing)
              (D := Sample.scheme_checking) Sample.key
              QueryServiceFacts.ready (QueryServiceFacts.always no_rows)
              "alice" PoolManagerFacts.mysql_url alice_on_postgres _ H0 eq_refl)
    as (r & events & Hrun & Hfirst & _).
  assert (Hd : getDialectFromUrl (A := Sample.reversing) Sample.key PoolManagerFacts.mysql_url
               = Types.mysql) by (vm_compute; reflexivity).
  rewrite Hd in Hfirst. exists r, events. split; [exact Hrun | exact Hfirst].
Defined.

(** Two statements of one tenant, the second with another connection
    string: one pool. *)
Lemma executeQuery_reuses_pool_sample :
  exists r1 m1 events1,
    executeQuery (A := Sample.reversing) (D := Sample.scheme_checking) Sample.key QueryServiceFacts.ready
      (QueryServiceFacts.always no_rows) "alice" PoolManagerFacts.pg_url "SELECT 1" None initial
    = (r1, m1, events1)
    /\ events1 <> []
    /\ exists r2 events2,
         executeQuery (A := Sample.reversing) (D := Sample.scheme_checking) Sample.key QueryServiceFacts.ready
           (QueryServiceFacts.always no_rows) "alice" PoolManagerFacts.mysql_url "SELECT 2"
           (Some "json") m1
         = (r2, m1, events2).
Proof.
  destruct (executeQuery (A := Sample.reversing) (D := Sample.scheme_checking) Sample.key QueryServiceFacts.ready
              (QueryServiceFacts.always no_rows) "alice" PoolManagerFacts.pg_url "SELECT 1"
              None initial) as [[r1 m1] events1] eqn:Hrun.
  assert (Hev : events1 <> []).
  { vm_compute in Hrun. injection Hrun as _ _ <-. discriminate. }
  exists r1, m1, events1. split; [reflexivity |]. split; [exact Hev |].
  destruct (executeQuery_reuses_pool (A := Sample.reversing)
              (D := Sample.scheme_checking) Sample.key
              QueryServiceFacts.ready (QueryServiceFacts.always no_rows)
              "alice" PoolManagerFacts.pg_url "SELECT 1" None initial m1 r1 events1 Hrun Hev)
    as (h & _ & Hnext).
  eexists _, _. apply Hnext.
Defined.

End IntrospectionFacts.

(** ** Schema normalization: tables and columns *)

Module SchemaShape.

Import Types SchemaAnalyzer.

(** The names of a list in the order of their first occurrence, after the
    names already seen. *)
Fixpoint add_new (seen : list string) (names : list string) : list string :=
  match names with
  | [] => seen
  | name :: rest =>
      if existsb (String.eqb name) seen then add_new seen rest
      else add_new (seen ++ [name]) rest
  end.

Definition first_seen (names : list string) : list string := add_new [] names.

(** What a column row says: name, type and nullability. *)
Definition row_facts (r : RawSchemaRow) : string * string * bool :=
  (column_name r, data_type r, nullable (is_nullable r)).

Definition column_facts (c : ColumnMetadata) : string * string * bool :=
  (columnName c, dataType c, isNullable c).

(** The columns of the rows of one table, in the order of the rows. *)
Definition columns_of (table : string) (rows : list RawSchemaRow)
    : list (string * string * bool) :=
  map row_facts (List.filter (fun r => String.eqb (table_name r) table) rows).

Definition keys (m : TableMap) : list string := map fst m.

(** Every entry holds a table that bears the name of its key. *)
Definition named (m : TableMap) : Prop :=
  Forall (fun entry => tableName (snd entry) = fst entry) m.

Lemma map_get_None_keys (m : TableMap) (key : string) :
  map_get m key = None <-> ~ In key (keys m).
Proof.
  induction m as [|[k t] m IH]; simpl; [tauto |].
  destruct (String.eqb_spec k key) as [-> | Hne].
  - split; [discriminate | intros H; exfalso; apply H; now left].
  - rewrite IH. split; [intros H [Hk | Hin]; [contradiction | auto] | intros H Hin; auto].
Qed.

Lemma map_has_existsb (m : TableMap) (key : string) :
  map_has m key = existsb (String.eqb key) (keys m).
Proof.
  unfold map_has. induction m as [|[k t] m IH]; simpl; [reflexivity |].
  rewrite (String.eqb_sym key k). destruct (String.eqb k key); [reflexivity | exact IH].
Qed.

Lemma keys_set_present (m : TableMap) (key : string) (t : TableMetadata) :
  In key (keys m) -> keys (map_set m key t) = keys m.
Proof.
  induction m as [|[k t'] m IH]; simpl; [contradiction |].
  destruct (String.eqb_spec k key) as [-> | Hne]; [reflexivity |].
  intros [Hk | Hin]; [contradiction | simpl; now rewrite IH].
Qed.

Lemma keys_set_absent (m : TableMap) (key : string) (t : TableMetadata) :
  ~ In key (keys m) -> keys (map_set m key t) = (keys m ++ [key])%list.
Proof.
  induction m as [|[k t'] m IH]; simpl; [reflexivity |].
  intros Hnot. destruct (String.eqb_spec k key) as [-> | Hne].
  - exfalso. apply Hnot. now left.
  - simpl. rewrite IH; [reflexivity | intros Hin; apply Hnot; now right].
Qed.

Lemma named_set (m : TableMap) (key : string) (t : TableMetadata) :
  named m -> tableName t = key -> named (map_set m key t).
Proof.
  intros Hm Ht. induction Hm as [|[k t'] m Hk Hm IH]; simpl.
  - constructor; [exact Ht | constructor].
  - destruct (String.eqb_spec k key) as [-> | Hne]; constructor; auto.
Qed.

Lemma named_get (m : TableMap) (key : string) (t : TableMetadata) :
  named m -> map_get m key = Some t -> tableName t = key.
Proof.
  intros Hm. induction Hm as [|[k t'] m Hk Hm IH]; simpl; [discriminate |].
  destruct (String.eqb_spec k key) as [-> | Hne]; [intros [= <-]; exact Hk | exact IH].
Qed.

Lemma map_get_In_keys (m : TableMap) (key : string) (t : TableMetadata) :
  map_get m key = Some t -> In key (keys m).
Proof.
  intros H. destruct (in_dec string_dec key (keys m)) as [Hin | Hout]; [assumption |].
  apply map_get_None_keys in Hout. congruence.
Qed.

(** With distinct keys, every entry is the one [get] returns for its key. *)
Lemma In_map_get (m : TableMap) (key : string) (t : TableMetadata) :
  List.NoDup (keys m) -> In (key, t) m -> map_get m key = Some t.
Proof.
  induction m as [|[k t'] m IH]; simpl; [contradiction |].
  intros Hnd [Heq | Hin].
  - injection Heq as -> ->. now rewrite String.eqb_refl.
  - inversion Hnd as [|? ? Hk Hnd']; subst.
    destruct (String.eqb_spec k key) as [-> | Hne]; [| now apply IH].
    exfalso. apply Hk. change key with (fst (key, t)). now apply in_map.
Qed.

(** *** The first loop *)

Lemma add_column_keys (m : TableMap) (row : RawSchemaRow) :
  keys (add_column m row)
  = if existsb (String.eqb (table_name row)) (keys m) then keys m
    else (keys m ++ [table_name row])%list.
Proof.
  unfold add_column. rewrite map_has_existsb.
  destruct (existsb _ (keys m)) eqn:E; simpl.
  - apply existsb_exists in E as (k & Hin & Hk). apply String.eqb_eq in Hk. subst k.
    destruct (map_get m (table_name row)) as [t|] eqn:G.
    + now apply keys_set_present.
    + apply map_get_None_keys in G. contradiction.
  - assert (Hout : ~ In (table_name row) (keys m)).
    { intros Hin. apply Bool.not_true_iff_false in E. apply E.
      apply existsb_exists. exists (table_name row). split; [assumption |].
      apply String.eqb_refl. }
    rewrite SchemaAnalyzerFacts.map_get_set_eq.
    rewrite keys_set_present; [now apply keys_set_absent |].
    rewrite keys_set_absent by assumption. apply in_or_app. right. now left.
Qed.

Lemma add_new_app (seen l1 l2 : list string) :
  add_new seen (l1 ++ l2) = add_new (add_new seen l1) l2.
Proof.
  revert seen. induction l1 as [|x l1 IH]; intros seen; simpl; [reflexivity |].
  destruct (existsb _ seen); apply IH.
Qed.

Lemma add_new_In (seen names : list string) (x : string) :
  In x (add_new seen names) <-> In x seen \/ In x names.
Proof.
  revert seen. induction names as [|n names IH]; intros seen; simpl; [tauto |].
  destruct (existsb (String.eqb n) seen) eqn:E; rewrite IH.
  - apply existsb_exists in E as (k & Hin & Hk). apply String.eqb_eq in Hk. subst k.
    split; [tauto | intros [H | [<- | H]]; auto].
  - rewrite in_app_iff. simpl. tauto.
Qed.

Lemma add_new_NoDup (seen names : list string) :
  List.NoDup seen -> List.NoDup (add_new seen names).
Proof.
  revert seen. induction names as [|n names IH]; intros seen Hnd; simpl; [assumption |].
  destruct (existsb (String.eqb n) seen) eqn:E; apply IH; [assumption |].
  apply List.NoDup_app; [assumption | repeat constructor; auto |].
  intros x Hx [-> | []]. apply Bool.not_true_iff_false in E. apply E.
  apply existsb_exists. exists x. split; [assumption | apply String.eqb_refl].
Qed.

Lemma columns_of_app (table : string) (rows1 rows2 : list RawSchemaRow) :
  columns_of table (rows1 ++ rows2) = (columns_of table rows1 ++ columns_of table rows2)%list.
Proof. unfold columns_of. now rewrite List.filter_app, map_app. Qed.

Lemma columns_of_one (table : string) (row : RawSchemaRow) :
  columns_of table [row]
  = if String.eqb (table_name row) table then [row_facts row] else [].
Proof. unfold columns_of. simpl. now destruct (String.eqb (table_name row) table). Qed.

Lemma columns_of_unseen (table : string) (rows : list RawSchemaRow) :
  ~ In table (map table_name rows) -> columns_of table rows = [].
Proof.
  unfold columns_of. induction rows as [|r rows IH]; simpl; [reflexivity |].
  intros Hnot. destruct (String.eqb_spec (table_name r) table) as [E | _].
  - exfalso. apply Hnot. now left.
  - apply IH. intros Hin. apply Hnot. now right.
Qed.

(** What the first loop has built after the rows [seen]. *)
Definition columns_built (seen : list RawSchemaRow) (m : TableMap) : Prop :=
  keys m = first_seen (map table_name seen)
  /\ named m
  /\ forall key t, map_get m key = Some t ->
       map column_facts (columns t) = columns_of key seen.

Lemma add_column_built (seen : list RawSchemaRow) (m : TableMap) (row : RawSchemaRow) :
  columns_built seen m -> columns_built (seen ++ [row]) (add_column m row).
Proof.
  intros (Hkeys & Hnamed & Hcols).
  assert (Hk : keys (add_column m row) = first_seen (map table_name (seen ++ [row]))).
  { rewrite add_column_keys. unfold first_seen. rewrite map_app, add_new_app. simpl.
    fold (first_seen (map table_name seen)). now rewrite <- Hkeys. }
  split; [exact Hk |]. unfold add_column, map_has.
  destruct (map_get m (table_name row)) as [t|] eqn:G; simpl.
  - rewrite G. split; [apply named_set; [assumption | simpl; now apply named_get with (m := m)] |].
    intros key t'. destruct (String.eqb_spec (table_name row) key) as [<- | Hne].
    + rewrite SchemaAnalyzerFacts.map_get_set_eq. intros [= <-]. simpl.
      rewrite map_app, columns_of_app, (Hcols _ _ G), columns_of_one.
      now rewrite String.eqb_refl.
    + rewrite SchemaAnalyzerFacts.map_get_set_ne by assumption. intros G'.
      rewrite columns_of_app, (Hcols _ _ G'), columns_of_one.
      apply String.eqb_neq in Hne. rewrite Hne. now rewrite app_nil_r.
  - rewrite SchemaAnalyzerFacts.map_get_set_eq.
    assert (Hunseen : columns_of (table_name row) seen = []).
    { apply columns_of_unseen. intros Hin.
      apply map_get_None_keys in G. apply G. rewrite Hkeys. unfold first_seen.
      apply add_new_In. now right. }
    split; [apply named_set; [now apply named_set | reflexivity] |].
    intros key t'. destruct (String.eqb_spec (table_name row) key) as [<- | Hne].
    + rewrite SchemaAnalyzerFacts.map_get_set_eq. intros [= <-]. simpl.
      rewrite columns_of_app, Hunseen, columns_of_one.
      now rewrite String.eqb_refl.
    + rewrite !SchemaAnalyzerFacts.map_get_set_ne by assumption. intros G'.
      rewrite columns_of_app, (Hcols _ _ G'), columns_of_one.
      apply String.eqb_neq in Hne. rewrite Hne. now rewrite app_nil_r.
Qed.

Lemma columns_loop_built (todo seen : list RawSchemaRow) (m : TableMap) :
  columns_built seen m -> columns_built (seen ++ todo) (fold_left add_column todo m).
Proof.
  revert seen m. induction todo as [|row todo IH]; intros seen m Hm; simpl.
  - now rewrite app_nil_r.
  - replace (seen ++ row :: todo)%list with ((seen ++ [row]) ++ todo)%list
      by now rewrite <- app_assoc.
    apply IH. now apply add_column_built.
Qed.

(** *** The second loop keeps the tables and what their columns say *)

Definition same_shape (m m' : TableMap) : Prop :=
  keys m' = keys m
  /\ (named m -> named m')
  /\ forall key,
       option_map (fun t => map column_facts (columns t)) (map_get m' key)
       = option_map (fun t => map column_facts (columns t)) (map_get m key).

Lemma update_column_facts (cols : list ColumnMetadata) (name : string)
    (f : ColumnMetadata -> ColumnMetadata) :
  (forall c, column_facts (f c) = column_facts c) ->
  map column_facts (update_column cols name f) = map column_facts cols.
Proof.
  intros Hf. induction cols as [|c cols IH]; simpl; [reflexivity |].
  destruct (String.eqb (columnName c) name); simpl; [now rewrite Hf | now rewrite IH].
Qed.

Lemma set_same_shape (m : TableMap) (key : string) (old new : TableMetadata) :
  map_get m key = Some old ->
  tableName new = tableName old ->
  map column_facts (columns new) = map column_facts (columns old) ->
  same_shape m (map_set m key new).
Proof.
  intros Hget Hname Hcols. split; [| split].
  - apply keys_set_present. now apply map_get_In_keys with (t := old).
  - intros Hnamed. apply named_set; [assumption |].
    rewrite Hname. now apply named_get with (m := m).
  - intros other. destruct (String.eqb_spec key other) as [<- | Hne].
    + rewrite SchemaAnalyzerFacts.map_get_set_eq, Hget. simpl. now rewrite Hcols.
    + now rewrite SchemaAnalyzerFacts.map_get_set_ne.
Qed.

Lemma same_shape_refl (m : TableMap) : same_shape m m.
Proof. now split; [| split]. Qed.

Lemma same_shape_trans (m1 m2 m3 : TableMap) :
  same_shape m1 m2 -> same_shape m2 m3 -> same_shape m1 m3.
Proof.
  intros (K1 & N1 & C1) (K2 & N2 & C2). split; [congruence |].
  split; [auto |]. intros key. now rewrite C2, C1.
Qed.

Lemma apply_constraint_same_shape (acc : TableMap * list RelationshipMetadata)
    (c : RawConstraintRow) :
  same_shape (fst acc) (fst (apply_constraint acc c)).
Proof.
  destruct acc as [m rels]. unfold apply_constraint.
  destruct (map_get m (c_table_name c)) as [table|] eqn:Hget; [| apply same_shape_refl].
  destruct (find_column (columns table) (c_column_name c)); [| apply same_shape_refl].
  destruct (String.eqb (constraint_type c) "PRIMARY KEY");
    [now apply set_same_shape with (old := table) |].
  destruct (String.eqb (constraint_type c) "UNIQUE").
  { apply set_same_shape with (old := table); [assumption | reflexivity |].
    simpl. now apply update_column_facts. }
  destruct (String.eqb (constraint_type c) "FOREIGN KEY"); [| apply same_shape_refl].
  apply set_same_shape with (old := table); [assumption | reflexivity |].
  simpl. now apply update_column_facts.
Qed.

Lemma constraints_loop_same_shape (todo : list RawConstraintRow)
    (acc : TableMap * list RelationshipMetadata) :
  same_shape (fst acc) (fst (fold_left apply_constraint todo acc)).
Proof.
  revert acc. induction todo as [|c todo IH]; intros acc; simpl; [apply same_shape_refl |].
  eapply same_shape_trans; [apply apply_constraint_same_shape | apply IH].
Qed.

(** The table map at the end of [parseSchema]. *)
Definition final_map (rawSchema : RawSchemaPayload) : TableMap :=
  fst (fold_left apply_constraint (or_empty (constraints rawSchema))
         (fold_left add_column (or_empty (schema rawSchema)) [], [])).

Lemma parseSchema_tables (rawSchema : RawSchemaPayload) (d : DatabaseType) (now : Z) :
  tables (parseSchema rawSchema d now) = map snd (final_map rawSchema).
Proof.
  unfold parseSchema, final_map. now destruct (fold_left apply_constraint _ _).
Qed.

Lemma final_map_built (rawSchema : RawSchemaPayload) :
  keys (final_map rawSchema) = first_seen (map table_name (or_empty (schema rawSchema)))
  /\ named (final_map rawSchema)
  /\ forall key t, map_get (final_map rawSchema) key = Some t ->
       map column_facts (columns t) = columns_of key (or_empty (schema rawSchema)).
Proof.
  assert (Hbuilt : columns_built ([] ++ or_empty (schema rawSchema))
                     (fold_left add_column (or_empty (schema rawSchema)) [])).
  { apply columns_loop_built. split; [reflexivity |]. split; [constructor | discriminate]. }
  destruct Hbuilt as (Hkeys & Hnamed & Hcols). simpl in Hkeys, Hcols.
  destruct (constraints_loop_same_shape (or_empty (constraints rawSchema))
              (fold_left add_column (or_empty (schema rawSchema)) [], []))
    as (K & N & C). simpl in K, N, C. fold (final_map rawSchema) in K, N, C.
  split; [congruence |]. split; [auto |].
  intros key t Hget. specialize (C key). rewrite Hget in C. simpl in C.
  destruct (map_get (fold_left add_column (or_empty (schema rawSchema)) []) key)
    as [t0|] eqn:G; [| discriminate].
  injection C as ->. now apply Hcols.
Qed.

Lemma named_table_names (m : TableMap) : named m -> map tableName (map snd m) = keys m.
Proof.
  intros Hm. induction Hm as [|[k t] m Hk Hm IH]; simpl; [reflexivity |].
  simpl in Hk. now rewrite Hk, IH.
Qed.

(** X9.  [parseSchema] builds one table per distinct [table_name] of the
    column rows, in the order in which the names first appear: the table
    names are pairwise different and are exactly the names of the rows,
    whatever the constraint rows are. *)
Theorem parseSchema_one_table_per_name (rawSchema : RawSchemaPayload) (d : DatabaseType)
    (now : Z) :
  map tableName (tables (parseSchema rawSchema d now))
  = first_seen (map table_name (or_empty (schema rawSchema)))
  /\ List.NoDup (map tableName (tables (parseSchema rawSchema d now)))
  /\ forall name,
       In name (map tableName (tables (parseSchema rawSchema d now)))
       <-> In name (map table_name (or_empty (schema rawSchema))).
Proof.
  destruct (final_map_built rawSchema) as (Hkeys & Hnamed & _).
  rewrite parseSchema_tables, (named_table_names _ Hnamed), Hkeys.
  split; [reflexivity |]. split.
  - apply add_new_NoDup. constructor.
  - intros name. unfold first_seen. rewrite add_new_In. simpl. tauto.
Qed.

(** X10.  Every table of the context produced by [parseSchema] holds the
    columns of the rows that bear its name, in the order of the rows, each
    with the name, the type and the nullability its row gives; a table is
    never without a column, and the constraint rows change none of this. *)
Theorem parseSchema_columns_in_row_order (rawSchema : RawSchemaPayload) (d : DatabaseType)
    (now : Z) (t : TableMetadata) :
  In t (tables (parseSchema rawSchema d now)) ->
  map column_facts (columns t) = columns_of (tableName t) (or_empty (schema rawSchema))
  /\ columns t <> [].
Proof.
  destruct (final_map_built rawSchema) as (Hkeys & Hnamed & Hcols).
  rewrite parseSchema_tables. intros Hin.
  apply in_map_iff in Hin as ([key t'] & Ht & Hin). simpl in Ht. subst t'.
  assert (Hnd : List.NoDup (keys (final_map rawSchema))).
  { rewrite Hkeys. apply add_new_NoDup. constructor. }
  pose proof (In_map_get _ _ _ Hnd Hin) as Hget.
  pose proof (named_get _ _ _ Hnamed Hget) as Hname.
  rewrite Hname. pose proof (Hcols _ _ Hget) as Hfacts. split; [exact Hfacts |].
  assert (Hkey : In key (map table_name (or_empty (schema rawSchema)))).
  { apply map_get_In_keys in Hget. rewrite Hkeys in Hget.
    unfold first_seen in Hget. apply add_new_In in Hget as [[] | H]. exact H. }
  intros Hempty. rewrite Hempty in Hfacts. simpl in Hfacts.
  apply in_map_iff in Hkey as (r & Hr & Hrin).
  assert (Hrow : In (row_facts r) (columns_of key (or_empty (schema rawSchema)))).
  { unfold columns_of. apply in_map. apply filter_In. split; [assumption |].
    now apply String.eqb_eq. }
  rewrite <- Hfacts in Hrow. contradiction.
Qed.

Lemma parseSchema_columns_in_row_order_sample :
  In (nth 0 (tables (parseSchema Sample.orders_payload postgres 0))
        {| tableName := ""; columns := []; primaryKey := None; indexes := None;
           rowCount := None |})
     (tables (parseSchema Sample.orders_payload postgres 0))
  /\ map column_facts
       (columns (nth 0 (tables (parseSchema Sample.orders_payload postgres 0))
                   {| tableName := ""; columns := []; primaryKey := None; indexes := None;
                      rowCount := None |}))
     = [("id", "uuid", false); ("user_id", "uuid", false)].
Proof.
  assert (H : In (nth 0 (tables (parseSchema Sample.orders_payload postgres 0))
                    {| tableName := ""; columns := []; primaryKey := None; indexes := None;
                       rowCount := None |})
                 (tables (parseSchema Sample.orders_payload postgres 0)))
    by (left; reflexivity).
  split; [exact H |].
  exact (proj1 (parseSchema_columns_in_row_order _ _ _ _ H)).
Defined.

End SchemaShape.

(** ** Schema cache: hits, expiry, a full cache and invalidation *)

Module SchemaCacheLifecycle.

Import Types SchemaAnalyzer.

(** What a first call that misses and succeeds leaves behind. *)
Lemma getSchemaContext_miss (userId : string) (d : DatabaseType) (now : Z)
    (rawSchema : RawSchemaPayload) (s s1 : State) (ctx : SchemaContext) :
  cache s !! cacheKey userId d = None ->
  getSchemaContext userId d now (Some rawSchema) s = (Some ctx, s1) ->
  ctx = parseSchema rawSchema d now
  /\ size (cache s) < maxKeys
  /\ s1 = {| cache := <[cacheKey userId d :=
                          {| value := ctx; expires := (now + stdTTL * 1000)%Z |}]> (cache s);
             hits := hits s; misses := S (misses s) |}.
Proof.
  intros Hmiss. unfold getSchemaContext, cache_get, cache_set. rewrite Hmiss.
  destruct (Nat.leb maxKeys (size (cache s))) eqn:E; [discriminate |].
  intros [= <- <-]. apply Nat.leb_gt in E. auto.
Qed.

(** X11.  After a call that missed and stored the schema, a call for the
    same tenant and dialect made no later than the time to live (7200
    seconds) returns the stored context and counts a hit; what the database
    would return now is not looked at, nor whether it can be reached. *)
Theorem getSchemaContext_hit_within_ttl (userId : string) (d : DatabaseType) (now now' : Z)
    (rawSchema : RawSchemaPayload) (fetched' : option RawSchemaPayload)
    (s s1 : State) (ctx : SchemaContext) :
  cache s !! cacheKey userId d = None ->
  getSchemaContext userId d now (Some rawSchema) s = (Some ctx, s1) ->
  (now' <= now + stdTTL * 1000)%Z ->
  getSchemaContext userId d now' fetched' s1
  = (Some ctx, {| cache := cache s1; hits := S (hits s1); misses := misses s1 |})
  /\ hits s1 = hits s /\ misses s1 = S (misses s).
Proof.
  intros Hmiss Hfirst Hfresh.
  destruct (getSchemaContext_miss _ _ _ _ _ _ _ Hmiss Hfirst) as (_ & _ & ->).
  split; [| split; reflexivity].
  assert (E : (now + stdTTL * 1000 <? now')%Z = false) by (apply Z.ltb_ge; lia).
  unfold getSchemaContext, cache_get. cbn [cache hits misses].
  rewrite lookup_insert_eq. cbn [expires value]. now rewrite E.
Qed.

(** X12.  Once the time to live has passed, the stored context is dropped:
    the next call for the same tenant and dialect counts a miss, parses what
    the database returns now, and stores it with a new expiry. *)
Theorem getSchemaContext_refetch_after_ttl (userId : string) (d : DatabaseType) (now now' : Z)
    (rawSchema rawSchema' : RawSchemaPayload) (s s1 : State) (ctx : SchemaContext) :
  cache s !! cacheKey userId d = None ->
  getSchemaContext userId d now (Some rawSchema) s = (Some ctx, s1) ->
  (now + stdTTL * 1000 < now')%Z ->
  getSchemaContext userId d now' (Some rawSchema') s1
  = (Some (parseSchema rawSchema' d now'),
     {| cache := <[cacheKey userId d :=
                     {| value := parseSchema rawSchema' d now';
                        expires := (now' + stdTTL * 1000)%Z |}]> (cache s);
        hits := hits s1; misses := S (misses s1) |}).
Proof.
  intros Hmiss Hfirst Hstale.
  destruct (getSchemaContext_miss _ _ _ _ _ _ _ Hmiss Hfirst) as (_ & Hroom & ->).
  assert (E : (now + stdTTL * 1000 <? now')%Z = true) by (apply Z.ltb_lt; lia).
  assert (E' : Nat.leb maxKeys (size (cache s)) = false) by (apply Nat.leb_gt; lia).
  unfold getSchemaContext, cache_get, cache_set. cbn [cache hits misses].
  rewrite lookup_insert_eq. cbn [expires value].
  rewrite E, (delete_insert_id _ _ _ Hmiss), E'. reflexivity.
Qed.

(** X13.  With [maxKeys] (500) entries stored, a call that misses counts the
    miss and then rejects, although the schema was fetched: storing it
    throws, nothing is cached and the result is lost. *)
Theorem getSchemaContext_rejects_when_cache_full (userId : string) (d : DatabaseType)
    (now : Z) (rawSchema : RawSchemaPayload) (s : State) :
  cache s !! cacheKey userId d = None ->
  maxKeys <= size (cache s) ->
  getSchemaContext userId d now (Some rawSchema) s
  = (None, {| cache := cache s; hits := hits s; misses := S (misses s) |}).
Proof.
  intros Hmiss Hfull. unfold getSchemaContext, cache_get, cache_set. rewrite Hmiss.
  assert (E : Nat.leb maxKeys (size (cache s)) = true) by now apply Nat.leb_le.
  now rewrite E.
Qed.

(** X14.  After [invalidateUserCache(t)], the next [getSchemaContext] of
    tenant [t], for either dialect, never returns what was cached before: it
    counts a miss and returns the schema fetched now, or rejects when the
    fetch rejects. *)
Theorem invalidateUserCache_forces_refetch (t : string) (d : DatabaseType) (now : Z)
    (s : State) :
  size (cache (invalidateUserCache t s)) < maxKeys ->
  (forall rawSchema,
     exists s',
       getSchemaContext t d now (Some rawSchema) (invalidateUserCache t s)
       = (Some (parseSchema rawSchema d now), s')
       /\ misses s' = S (misses s) /\ hits s' = hits s)
  /\ getSchemaContext t d now None (invalidateUserCache t s)
     = (None, {| cache := cache (invalidateUserCache t s);
                 hits := hits s; misses := S (misses s) |}).
Proof.
  intros Hroom.
  assert (Hgone : cache (invalidateUserCache t s) !! cacheKey t d = None).
  { rewrite SchemaAnalyzerFacts.invalidateUserCache_lookup.
    now rewrite SchemaAnalyzerFacts.cacheKey_matches_own_prefix. }
  assert (E : Nat.leb maxKeys (size (cache (invalidateUserCache t s))) = false)
    by (apply Nat.leb_gt; lia).
  split.
  - intros rawSchema. unfold getSchemaContext, cache_get, cache_set.
    rewrite Hgone, E. eexists. split; [reflexivity | split; reflexivity].
  - unfold getSchemaContext, cache_get. now rewrite Hgone.
Qed.

(** A cache in which the tenant ["7"] has a Postgres schema. *)
Definition stale_cache : State :=
  {| cache := {[ cacheKey "7" postgres := Sample.cached_entry ]}; hits := 3; misses := 1 |}.

Definition empty_cache : State := {| cache := ∅; hits := 0; misses := 0 |}.

Definition after_first_call : State :=
  {| cache := {[ cacheKey "7" postgres :=
                   {| value := parseSchema Sample.orders_payload postgres 1000;
                      expires := 7201000 |} ]};
     hits := 0; misses := 1 |}.

Definition no_tables : RawSchemaPayload := {| schema := Some []; constraints := Some [] |}.

Lemma first_call_sample :
  getSchemaContext "7" postgres 1000 (Some Sample.orders_payload) empty_cache
  = (Some (parseSchema Sample.orders_payload postgres 1000), after_first_call).
Proof. vm_compute. reflexivity. Qed.

(** A second call one hour later, while the database cannot be reached. *)
Lemma getSchemaContext_hit_within_ttl_sample :
  cache empty_cache !! cacheKey "7" postgres = None
  /\ (3601000 <= 1000 + stdTTL * 1000)%Z
  /\ getSchemaContext "7" postgres 3601000 None after_first_call
     = (Some (parseSchema Sample.orders_payload postgres 1000),
        {| cache := cache after_first_call; hits := 1; misses := 1 |}).
Proof.
  assert (H0 : cache empty_cache !! cacheKey "7" postgres = None) by reflexivity.
  assert (H1 : (3601000 <= 1000 + stdTTL * 1000)%Z) by (vm_compute; discriminate).
  split; [exact H0 |]. split; [exact H1 |].
  exact (proj1 (getSchemaContext_hit_within_ttl "7" postgres 1000 3601000
                  Sample.orders_payload None empty_cache after_first_call _
                  H0 first_call_sample H1)).
Defined.

(** A second call three hours later. *)
Lemma getSchemaContext_refetch_after_ttl_sample :
  cache empty_cache !! cacheKey "7" postgres = None
  /\ (1000 + stdTTL * 1000 < 10801000)%Z
  /\ fst (getSchemaContext "7" postgres 10801000 (Some no_tables) after_first_call)
     = Some (parseSchema no_tables postgres 10801000).
Proof.
  assert (H0 : cache empty_cache !! cacheKey "7" postgres = None) by reflexivity.
  assert (H1 : (1000 + stdTTL * 1000 < 10801000)%Z) by reflexivity.
  split; [exact H0 |]. split; [exact H1 |].
  now rewrite (getSchemaContext_refetch_after_ttl "7" postgres 1000 10801000
                 Sample.orders_payload no_tables empty_cache after_first_call _
                 H0 first_call_sample H1).
Defined.

Lemma invalidateUserCache_forces_refetch_sample :
  size (cache (invalidateUserCache "7" stale_cache)) < maxKeys
  /\ fst (getSchemaContext "7" postgres 5000 (Some no_tables)
            (invalidateUserCache "7" stale_cache))
     = Some (parseSchema no_tables postgres 5000).
Proof.
  assert (H : size (cache (invalidateUserCache "7" stale_cache)) < maxKeys).
  { vm_compute. lia. }
  split; [exact H |].
  destruct (proj1 (invalidateUserCache_forces_refetch "7" postgres 5000 stale_cache H)
              no_tables) as (s' & Hrun & _).
  now rewrite Hrun.
Defined.

(** A cache that holds [maxKeys] schemas, none of them of the tenant ["7"]. *)
Definition full_cache : State :=
  {| cache := list_to_map (map (fun n => (cacheKey (pretty n) mysql, Sample.cached_entry))
                               (seq 1000 maxKeys));
     hits := 0; misses := maxKeys |}.

Lemma getSchemaContext_rejects_when_cache_full_sample :
  cache full_cache !! cacheKey "7" postgres = None
  /\ maxKeys <= size (cache full_cache)
  /\ fst (getSchemaContext "7" postgres 0 (Some no_tables) full_cache) = None.
Proof.
  assert (H0 : cache full_cache !! cacheKey "7" postgres = None) by (vm_compute; reflexivity).
  assert (H1 : maxKeys <= size (cache full_cache)).
  { apply Nat.leb_le. vm_compute. reflexivity. }
  split; [exact H0 |]. split; [exact H1 |].
  now rewrite (getSchemaContext_rejects_when_cache_full "7" postgres 0 no_tables full_cache
                 H0 H1).
Defined.

End SchemaCacheLifecycle.

(** ** Static query validator: what a result guarantees *)

Module QueryValidatorGuarantees.

Import Types Regex QueryValidator QueryValidatorFacts.
Local Open Scope validator_scope.

(** *** Which passes report errors *)

Definition reports_no_error {T} (m : M T) : Prop :=
  forall h, h_errors (snd (m h)) = h_errors h.

Lemma reports_no_error_ret {T} (x : T) : reports_no_error (ret x).
Proof. now intros h. Qed.

Lemma reports_no_error_read : reports_no_error read_schemaContext.
Proof. now intros h. Qed.

Lemma reports_no_error_push_warning (msg : string) : reports_no_error (push_warning msg).
Proof. now intros h. Qed.

Lemma reports_no_error_push_suggestedIndex (sql : string) :
  reports_no_error (push_suggestedIndex sql).
Proof. now intros h. Qed.

Lemma reports_no_error_bind {T U} (m : M T) (f : T -> M U) :
  reports_no_error m -> (forall x, reports_no_error (f x)) -> reports_no_error (bind m f).
Proof.
  intros Hm Hf h. unfold bind. specialize (Hm h).
  destruct (m h) as [x h']. simpl in Hm. now rewrite Hf.
Qed.

Lemma reports_no_error_when (b : bool) (m : M unit) :
  reports_no_error m -> reports_no_error (when b m).
Proof. intros Hm. destruct b; [exact Hm | apply reports_no_error_ret]. Qed.

Lemma reports_no_error_for_of {T} (l : list T) (body : T -> M unit) :
  (forall x, reports_no_error (body x)) -> reports_no_error (for_of l body).
Proof.
  intros Hbody. induction l as [|x l IH]; simpl; [apply reports_no_error_ret |].
  apply reports_no_error_bind; [apply Hbody | intros _; exact IH].
Qed.

Create HintDb validator_errors.
#[local] Hint Resolve reports_no_error_ret reports_no_error_read
  reports_no_error_push_warning reports_no_error_push_suggestedIndex
  reports_no_error_when : validator_errors.

Ltac silent_pass :=
  repeat first
    [ apply reports_no_error_bind; [| intros ?]
    | apply reports_no_error_when
    | apply reports_no_error_for_of; intros ?
    | progress auto with validator_errors
    | match goal with |- reports_no_error (match ?x with _ => _ end) => destruct x end
    | match goal with |- reports_no_error (if ?b then _ else _) => destruct b end ].

Lemma checkSecurityIssues_reports_no_error (query : string) :
  reports_no_error (checkSecurityIssues query).
Proof. unfold checkSecurityIssues. silent_pass. Qed.

Lemma checkDangerousOperations_reports_no_error (query : string) :
  reports_no_error (checkDangerousOperations query).
Proof. unfold checkDangerousOperations. silent_pass. Qed.

Lemma analyzePerformance_reports_no_error (query : string) :
  reports_no_error (analyzePerformance query).
Proof. unfold analyzePerformance. silent_pass. Qed.

Lemma validate_errors (query : string) (d : DatabaseType) (schemaContext : SchemaContext) :
  errors (validate query d schemaContext)
  = (h_errors (pushed (checkBasicSyntax query d) schemaContext)
     ++ h_errors (pushed (validateAgainstSchema query) schemaContext))%list.
Proof.
  unfold validate. rewrite validateQuery_passes. simpl. rewrite passes_pushed. simpl.
  unfold pushed at 3 4 5.
  rewrite checkSecurityIssues_reports_no_error, checkDangerousOperations_reports_no_error,
    analyzePerformance_reports_no_error.
  simpl. now rewrite !app_nil_r.
Qed.

Lemma valid_first_passes_silent (query : string) (d : DatabaseType)
    (schemaContext : SchemaContext) :
  isValid (validate query d schemaContext) = true ->
  h_errors (pushed (checkBasicSyntax query d) schemaContext) = []
  /\ h_errors (pushed (validateAgainstSchema query) schemaContext) = [].
Proof.
  assert (Hvalid : isValid (validate query d schemaContext)
                   = Nat.eqb (length (errors (validate query d schemaContext))) 0).
  { unfold validate. now rewrite validateQuery_passes. }
  rewrite Hvalid, validate_errors, Nat.eqb_eq, length_zero_iff_nil.
  apply app_eq_nil.
Qed.

(** X15.  The errors of a validation are those of the syntax pass followed
    by those of the schema pass: the security, destructive-operation and
    performance passes report warnings and suggestions only, so that the
    query is valid exactly when the first two passes report nothing. *)
Theorem validate_errors_from_two_passes (query : string) (d : DatabaseType)
    (schemaContext : SchemaContext) :
  errors (validate query d schemaContext)
  = (h_errors (pushed (checkBasicSyntax query d) schemaContext)
     ++ h_errors (pushed (validateAgainstSchema query) schemaContext))%list
  /\ (isValid (validate query d schemaContext) = true
      <-> h_errors (pushed (checkBasicSyntax query d) schemaContext) = []
          /\ h_errors (pushed (validateAgainstSchema query) schemaContext) = []).
Proof.
  split; [apply validate_errors |].
  assert (Hvalid : isValid (validate query d schemaContext)
                   = Nat.eqb (length (errors (validate query d schemaContext))) 0).
  { unfold validate. now rewrite validateQuery_passes. }
  rewrite Hvalid, validate_errors, Nat.eqb_eq, length_zero_iff_nil.
  split; [apply app_eq_nil | intros [-> ->]; reflexivity].
Qed.

(** *** The syntax pass *)

(** The four conditions the syntax pass checks. *)
Definition syntax_ok (query : string) : Prop :=
  Js.trim query <> ""
  /\ Js.count_char "(" query = Js.count_char ")" query
  /\ Js.count_char ";" query <= 1
  /\ exists keyword,
       In keyword validStarts
       /\ Js.startsWith (Js.toUpperCase (Js.trim query)) keyword = true.


Ltac run_syntax_pass query :=
  unfold pushed, checkBasicSyntax;
  remember (Js.truthy (Js.trim query)) as nonblank eqn:Hnonblank;
  remember (Nat.eqb (Js.count_char "(" query) (Js.count_char ")" query))
    as balanced eqn:Hbalanced;
  remember (Nat.ltb 1 (Js.count_char ";" query)) as several eqn:Hseveral;
  remember (Js.endsWith (Js.trim query) ";") as trailing eqn:Htrailing;
  remember (existsb (fun keyword => Js.startsWith (Js.toUpperCase (Js.trim query)) keyword)
                    validStarts) as known eqn:Hknown;
  symmetry in Hnonblank, Hbalanced, Hseveral, Htrailing, Hknown;
  destruct nonblank, balanced, several, trailing, known; simpl.

Lemma checkBasicSyntax_no_error (query : string) (d : DatabaseType)
    (schemaContext : SchemaContext) :
  h_errors (pushed (checkBasicSyntax query d) schemaContext) = [] -> syntax_ok query.
Proof.
  run_syntax_pass query; try discriminate.
  all: intros _; split; [now destruct (Js.trim query) |];
    split; [now apply Nat.eqb_eq |];
    split; [apply Nat.ltb_ge in Hseveral; lia |];
    apply existsb_exists in Hknown as (keyword & Hin & Hk); now exists keyword.
Qed.


(** X17.  A query that is found valid is not blank, has as many opening as
    closing parentheses, holds at most one semicolon, and begins, once
    trimmed and whatever the letter case, with one of [SELECT], [INSERT],
    [UPDATE], [DELETE], [WITH], [CREATE], [ALTER]. *)
Theorem valid_query_is_syntactically_sane (query : string) (d : DatabaseType)
    (schemaContext : SchemaContext) :
  isValid (validate query d schemaContext) = true -> syntax_ok query.
Proof.
  intros Hvalid.
  apply valid_first_passes_silent in Hvalid as [Hsyntax _].
  now apply checkBasicSyntax_no_error with (d := d) (schemaContext := schemaContext).
Qed.

(** *** The schema pass *)





(** X17, on a query that deletes every user. *)
Lemma valid_query_is_syntactically_sane_sample :
  isValid (validate "DELETE FROM users" postgres Sample.users_context) = true
  /\ syntax_ok "DELETE FROM users".
Proof.
  assert (Hvalid : isValid (validate "DELETE FROM users" postgres Sample.users_context) = true)
    by (vm_compute; reflexivity).
  split; [exact Hvalid |].
  exact (valid_query_is_syntactically_sane "DELETE FROM users" postgres
           Sample.users_context Hvalid).
Defined.



(** *** The performance pass *)






End QueryValidatorGuarantees.

(** ** The active connection: [modules/workspace/workspace.service.ts] *)

Module WorkspaceService.

Import Workspace.

(** [getActiveConnectionForUser(userId)].  The query selects the rows of the
    tenant that are active, with [LIMIT 1] and no ordering: the row taken
    here is the first one in the order of the table. *)
Definition getActiveConnectionForUser (userId : string) (db : Metadata)
    : PoolManager.Result string :=
  match List.filter (fun r => String.eqb (user_id r) userId && is_active r)
                    (user_connections db) with
  | [] => PoolManager.Throw
            (PoolManager.ErrorMessage
               "No active database connection found. Please select or add one.")
  | first :: _ => PoolManager.Ok (encrypted_url first)
  end.

End WorkspaceService.

(** ** More on the workspace controller: limits and the active connection *)

Module WorkspaceInvariants.

Import Workspace WorkspaceFacts WorkspaceService.

(** The rows a tenant owns, as every query of the controller selects them,
    and those of them that are active. *)
Definition connections_of (user : string) (db : Metadata) : list user_connection :=
  List.filter (fun r => String.eqb (user_id r) user) (user_connections db).

Definition active_connections (user : string) (db : Metadata) : list user_connection :=
  List.filter is_active (connections_of user db).

Definition set_active (b : bool) (r : user_connection) : user_connection :=
  {| id := id r; user_id := user_id r; label := label r;
     encrypted_url := encrypted_url r; is_active := b |}.

(** [id] is the key of the table: no two rows share one, and the next row
    gets a new one. *)
Definition unique_ids (db : Metadata) : Prop :=
  List.NoDup (map id (user_connections db))
  /\ Forall (fun r => id r < next_id db) (user_connections db).

(** The two updates of [switchConnection], one after the other. *)
Definition switched (connectionId : nat) (user : string) (db : Metadata) : Metadata * nat :=
  activate connectionId user (deactivate_all user db).

Lemma count_connections_length (user : string) (db : Metadata) :
  count_connections user db = length (connections_of user db).
Proof. reflexivity. Qed.

Lemma active_le_count (user : string) (db : Metadata) :
  length (active_connections user db) <= count_connections user db.
Proof. apply List.filter_length_le. Qed.

Lemma connections_of_insert (user owner : string) (label : option string)
    (encryptedUrl : string) (isActive : bool) (db : Metadata) :
  connections_of user (insert_connection owner label encryptedUrl isActive db)
  = (connections_of user db
     ++ if String.eqb owner user
        then [{| id := next_id db; user_id := owner; label := label;
                 encrypted_url := encryptedUrl; is_active := isActive |}]
        else [])%list.
Proof.
  unfold connections_of, insert_connection. simpl.
  rewrite List.filter_app. simpl. now destruct (String.eqb owner user).
Qed.

Lemma connections_of_switched_other (user owner : string) (connectionId : nat)
    (db : Metadata) :
  owner <> user ->
  connections_of user (fst (switched connectionId owner db)) = connections_of user db.
Proof.
  intros Hother. destruct db as [rows n].
  unfold connections_of, switched, activate, deactivate_all. simpl.
  induction rows as [|r rows IH]; simpl; [reflexivity |].
  destruct (String.eqb (user_id r) owner) eqn:Eowner; simpl.
  - rewrite Eowner, andb_true_r.
    assert (Euser : String.eqb (user_id r) user = false).
    { apply String.eqb_neq. apply String.eqb_eq in Eowner. congruence. }
    destruct (Nat.eqb (id r) connectionId); simpl; now rewrite Euser.
  - rewrite Eowner, andb_false_r. now rewrite IH.
Qed.

Lemma connections_of_switched (user : string) (connectionId : nat) (db : Metadata) :
  connections_of user (fst (switched connectionId user db))
  = map (fun r => set_active (Nat.eqb (id r) connectionId) r) (connections_of user db).
Proof.
  destruct db as [rows n].
  unfold connections_of, switched, activate, deactivate_all. simpl.
  induction rows as [|r rows IH]; simpl; [reflexivity |].
  destruct (String.eqb (user_id r) user) eqn:Euser; simpl.
  - rewrite Euser, andb_true_r.
    destruct (Nat.eqb (id r) connectionId); simpl; rewrite Euser; simpl; now rewrite IH.
  - rewrite Euser, andb_false_r. now rewrite Euser.
Qed.

Lemma rowCount_switched (user : string) (connectionId : nat) (db : Metadata) :
  snd (switched connectionId user db)
  = length (List.filter (fun r => Nat.eqb (id r) connectionId) (connections_of user db)).
Proof.
  destruct db as [rows n].
  unfold connections_of, switched, activate, deactivate_all. simpl.
  induction rows as [|r rows IH]; simpl; [reflexivity |].
  destruct (String.eqb (user_id r) user) eqn:Euser; simpl.
  - rewrite Euser, andb_true_r.
    destruct (Nat.eqb (id r) connectionId); simpl; now rewrite IH.
  - rewrite Euser, andb_false_r. exact IH.
Qed.

Lemma count_connections_switched (user owner : string) (connectionId : nat) (db : Metadata) :
  count_connections user (fst (switched connectionId owner db)) = count_connections user db.
Proof.
  unfold switched.
  now rewrite count_connections_activate, count_connections_deactivate_all.
Qed.

Lemma unique_ids_insert (owner : string) (label : option string) (encryptedUrl : string)
    (isActive : bool) (db : Metadata) :
  unique_ids db -> unique_ids (insert_connection owner label encryptedUrl isActive db).
Proof.
  intros [Hnodup Hbound]. unfold unique_ids, insert_connection. simpl. split.
  - rewrite map_app. simpl. apply List.NoDup_app; [exact Hnodup | repeat constructor; auto |].
    intros i Hin [<- | []]. apply in_map_iff in Hin as (r & Hid & Hr).
    rewrite List.Forall_forall in Hbound. specialize (Hbound r Hr). lia.
  - apply List.Forall_app. split.
    + eapply List.Forall_impl; [| exact Hbound]. simpl. intros r Hr. lia.
    + constructor; [simpl; lia | constructor].
Qed.

Lemma unique_ids_switched (owner : string) (connectionId : nat) (db : Metadata) :
  unique_ids db -> unique_ids (fst (switched connectionId owner db)).
Proof.
  destruct db as [rows n]. unfold unique_ids, switched, activate, deactivate_all. simpl.
  rewrite !map_map.
  intros [Hnodup Hbound]. split.
  - erewrite map_ext; [exact Hnodup |]. intros r. simpl.
    destruct (String.eqb (user_id r) owner); simpl; now destruct (_ && _).
  - clear Hnodup. induction Hbound as [|r rows Hr Hrows IH]; simpl; constructor; [| exact IH].
    destruct (String.eqb (user_id r) owner); simpl; now destruct (_ && _).
Qed.

Lemma no_hit_without_id (connectionId : nat) (rows : list user_connection) :
  ~ In connectionId (map id rows) ->
  List.filter (fun r => Nat.eqb (id r) connectionId) rows = [].
Proof.
  induction rows as [|r rows IH]; simpl; [reflexivity |]. intros Hnot.
  destruct (Nat.eqb (id r) connectionId) eqn:E.
  - apply Nat.eqb_eq in E. tauto.
  - apply IH. tauto.
Qed.

Lemma one_hit_at_most (connectionId : nat) (rows : list user_connection) :
  List.NoDup (map id rows) ->
  length (List.filter (fun r => Nat.eqb (id r) connectionId) rows) <= 1.
Proof.
  induction rows as [|r rows IH]; simpl; [lia |]. intros Hnodup.
  apply List.NoDup_cons_iff in Hnodup as [Hfresh Hnodup].
  destruct (Nat.eqb (id r) connectionId) eqn:E; [| now apply IH].
  apply Nat.eqb_eq in E. subst connectionId.
  rewrite no_hit_without_id by exact Hfresh. simpl. lia.
Qed.

Lemma NoDup_connections_of (user : string) (db : Metadata) :
  List.NoDup (map id (user_connections db)) -> List.NoDup (map id (connections_of user db)).
Proof.
  unfold connections_of. induction (user_connections db) as [|r rows IH]; simpl; [auto |].
  intros Hnodup. apply List.NoDup_cons_iff in Hnodup as [Hfresh Hnodup].
  destruct (String.eqb (user_id r) user); simpl; [| now apply IH].
  constructor; [| now apply IH].
  intros Hin. apply Hfresh. apply in_map_iff in Hin as (r' & Hid & Hr').
  apply List.filter_In in Hr' as [Hr' _]. apply in_map_iff. now exists r'.
Qed.

Lemma active_after_switch (user : string) (connectionId : nat) (db : Metadata) :
  length (active_connections user (fst (switched connectionId user db)))
  = snd (switched connectionId user db).
Proof.
  unfold active_connections. rewrite connections_of_switched, rowCount_switched.
  induction (connections_of user db) as [|r rows IH]; simpl; [reflexivity |].
  destruct (Nat.eqb (id r) connectionId); simpl; now rewrite IH.
Qed.

Lemma lookup_closePool (user : string) (m : PoolManager.ConnectionManager) :
  PoolManager.pools (PoolManager.closePool user m) !! user = None.
Proof. rewrite PoolManagerLifecycle.closePool_delete. simpl. apply lookup_delete_eq. Qed.

Lemma getActiveConnectionForUser_active (user : string) (db : Metadata) :
  getActiveConnectionForUser user db
  = match active_connections user db with
    | [] => PoolManager.Throw
              (PoolManager.ErrorMessage
                 "No active database connection found. Please select or add one.")
    | first :: _ => PoolManager.Ok (encrypted_url first)
    end.
Proof.
  unfold getActiveConnectionForUser, active_connections, connections_of.
  replace (List.filter is_active
             (List.filter (fun r => String.eqb (user_id r) user) (user_connections db)))
    with (List.filter (fun r => String.eqb (user_id r) user && is_active r)
            (user_connections db)); [reflexivity |].
  induction (user_connections db) as [|r rows IH]; simpl; [reflexivity |].
  destruct (String.eqb (user_id r) user); simpl; [| exact IH].
  destruct (is_active r); now rewrite IH.
Qed.

(** What a [switchConnection] that gets past its first test does. *)
Lemma switchConnection_run (user : string) (connectionId : nat) (req : AuthRequest)
    (w w' : World) (res : Response) :
  userId req = Some user ->
  body_connectionId req = Some connectionId ->
  switchConnection req w = (res, w') ->
  status res <> 400 ->
  w' = {| metadata := fst (switched connectionId user (metadata w));
          poolManager := PoolManager.closePool user (poolManager w) |}
  /\ status res = if Nat.eqb (snd (switched connectionId user (metadata w))) 0
                  then 404 else 200.
Proof.
  intros Huser Hid. unfold switchConnection. rewrite Huser, Hid.
  destruct (negb (Js.truthy user) || Nat.eqb connectionId 0);
    [intros [= <- _]; simpl; congruence |].
  cbv zeta.
  change (activate connectionId user (deactivate_all user (metadata w)))
    with (switched connectionId user (metadata w)).
  destruct (switched connectionId user (metadata w)) as [db' rowCount]. simpl.
  destruct (Nat.eqb rowCount 0); intros [= <- <-] _; split; reflexivity.
Qed.

Section WithVault.

Context {A : Vault.Aead}.
Variable KEY : Vault.Buffer.

(** The three things a request can do to the table. *)
Lemma handle_metadata (w : World) (r : Request) :
  metadata (handle KEY w r) = metadata w
  \/ (exists owner label encryptedUrl,
        count_connections owner (metadata w) < 5
        /\ metadata (handle KEY w r)
           = insert_connection owner label encryptedUrl
               (Nat.eqb (count_connections owner (metadata w)) 0) (metadata w))
  \/ (exists owner connectionId,
        metadata (handle KEY w r) = fst (switched connectionId owner (metadata w))).
Proof.
  destruct r as [req iv | req | req]; cbn [handle].
  - unfold addConnection. destruct (userId req) as [owner|]; [| now left].
    destruct (negb (Js.truthy owner)); [now left |].
    destruct (Nat.leb 5 _) eqn:Hfull; [now left |].
    destruct (match body_url req with Some url => Vault.encrypt KEY iv url | None => None end)
      as [encryptedUrl|]; [| now left].
    right. left. exists owner, (body_label req), encryptedUrl.
    apply Nat.leb_gt in Hfull. now split.
  - unfold listConnections. destruct (userId req) as [owner|]; [| now left].
    destruct (negb (Js.truthy owner)); now left.
  - unfold switchConnection.
    destruct (userId req) as [owner|]; [| now left].
    destruct (body_connectionId req) as [connectionId|]; [| now left].
    destruct (negb (Js.truthy owner) || Nat.eqb connectionId 0); [now left |].
    right. right. exists owner, connectionId.
    remember (switched connectionId owner (metadata w)) as outcome eqn:Houtcome.
    unfold switched in Houtcome. cbv zeta. rewrite <- Houtcome.
    destruct outcome as [db' rowCount].
    now destruct (Nat.eqb rowCount 0).
Qed.

Lemma handle_at_most_five (user : string) (w : World) (r : Request) :
  count_connections user (metadata w) <= 5 ->
  count_connections user (metadata (handle KEY w r)) <= 5.
Proof.
  intros Hle.
  destruct (handle_metadata w r)
    as [-> | [(owner & l & enc & Hroom & ->) | (owner & connectionId & ->)]].
  - exact Hle.
  - rewrite count_connections_insert.
    destruct (String.eqb owner user) eqn:E; [| lia].
    apply String.eqb_eq in E. subst owner. lia.
  - now rewrite count_connections_switched.
Qed.

(** X19.  Requests being served one after the other, a tenant that has at
    most five stored connections never gets more than five, whatever the
    requests, of this tenant or of others: [addConnection] answers 400 from
    the sixth on, and no other handler inserts a row. *)
Theorem serve_at_most_five_connections (user : string) (requests : list Request)
    (w : World) :
  count_connections user (metadata w) <= 5 ->
  count_connections user (metadata (serve KEY requests w)) <= 5.
Proof.
  revert w. induction requests as [|r requests IH]; intros w Hle; simpl; [exact Hle |].
  apply IH. now apply handle_at_most_five.
Qed.

Lemma handle_one_active (user : string) (w : World) (r : Request) :
  unique_ids (metadata w) /\ length (active_connections user (metadata w)) <= 1 ->
  unique_ids (metadata (handle KEY w r))
  /\ length (active_connections user (metadata (handle KEY w r))) <= 1.
Proof.
  intros [Hids Hone].
  destruct (handle_metadata w r)
    as [-> | [(owner & l & enc & Hroom & ->) | (owner & connectionId & ->)]].
  - now split.
  - split; [now apply unique_ids_insert |].
    unfold active_connections. rewrite connections_of_insert, List.filter_app, length_app.
    fold (active_connections user (metadata w)).
    destruct (String.eqb owner user) eqn:E; [| simpl; lia].
    apply String.eqb_eq in E. subst owner. simpl.
    destruct (Nat.eqb (count_connections user (metadata w)) 0) eqn:Hfirst; simpl; [| lia].
    apply Nat.eqb_eq in Hfirst. pose proof (active_le_count user (metadata w)). lia.
  - split; [now apply unique_ids_switched |].
    destruct (String.eqb owner user) eqn:E.
    + apply String.eqb_eq in E. subst owner.
      rewrite active_after_switch, rowCount_switched.
      apply one_hit_at_most, NoDup_connections_of, Hids.
    + apply String.eqb_neq in E. unfold active_connections.
      now rewrite connections_of_switched_other.
Qed.

(** X20.  Row ids being unique, a tenant that has at most one active
    connection never gets two, whatever requests are served one after the
    other: [addConnection] activates a row only when the tenant has none,
    and [switchConnection] deactivates all the rows of the tenant before it
    activates the one with the given id. *)
Theorem serve_at_most_one_active (user : string) (requests : list Request) (w : World) :
  unique_ids (metadata w) ->
  length (active_connections user (metadata w)) <= 1 ->
  length (active_connections user (metadata (serve KEY requests w))) <= 1.
Proof.
  intros Hids Hone.
  assert (Hboth : unique_ids (metadata w)
                  /\ length (active_connections user (metadata w)) <= 1) by now split.
  clear Hids Hone. revert w Hboth.
  induction requests as [|r requests IH]; intros w Hboth; simpl; [apply Hboth |].
  apply IH. now apply handle_one_active.
Qed.

End WithVault.

(** X21.  A [switchConnection] that answers 200 or 404 has closed the pool
    of the tenant, leaves the tenant's rows active exactly where the id is
    the one asked for, and leaves the rows of every other tenant as they
    were; of the two, it answers 404 exactly when the tenant owns no row
    with that id. *)
Theorem switchConnection_effect (user : string) (connectionId : nat) (req : AuthRequest)
    (w w' : World) (res : Response) :
  userId req = Some user ->
  body_connectionId req = Some connectionId ->
  switchConnection req w = (res, w') ->
  status res = 200 \/ status res = 404 ->
  PoolManager.pools (poolManager w') !! user = None
  /\ connections_of user (metadata w')
     = map (fun r => set_active (Nat.eqb (id r) connectionId) r)
           (connections_of user (metadata w))
  /\ (forall other, other <> user ->
        connections_of other (metadata w') = connections_of other (metadata w))
  /\ (status res = 404
      <-> forall r, In r (connections_of user (metadata w)) -> id r <> connectionId).
Proof.
  intros Huser Hid Hrun Hanswer.
  assert (Hstatus : status res <> 400) by (destruct Hanswer as [-> | ->]; discriminate).
  destruct (switchConnection_run _ _ _ _ _ _ Huser Hid Hrun Hstatus) as [-> Hres].
  cbn [metadata poolManager]. split; [apply lookup_closePool |].
  split; [apply connections_of_switched |].
  split; [intros other Hother; now apply connections_of_switched_other |].
  rewrite Hres, rowCount_switched. clear.
  induction (connections_of user (metadata w)) as [|r rows IH]; simpl.
  - split; [intros _ r [] | reflexivity].
  - destruct (Nat.eqb (id r) connectionId) eqn:E; simpl.
    + apply Nat.eqb_eq in E. split; [discriminate |].
      intros Hnone. exfalso. apply (Hnone r); [now left | exact E].
    + apply Nat.eqb_neq in E. rewrite IH. split.
      * intros Hrows r' [<- | Hin]; [exact E | now apply Hrows].
      * intros Hall r' Hin. apply Hall. now right.
Qed.

(** X22.  A [switchConnection] that answers 404 has already made its first
    update: the tenant keeps its rows but is left without any active
    connection and without a pool, although the request failed, and
    [getActiveConnectionForUser] then throws for this tenant. *)
Theorem switchConnection_not_found_deactivates (user : string) (req : AuthRequest)
    (w w' : World) (res : Response) :
  userId req = Some user ->
  switchConnection req w = (res, w') ->
  status res = 404 ->
  active_connections user (metadata w') = []
  /\ count_connections user (metadata w') = count_connections user (metadata w)
  /\ PoolManager.pools (poolManager w') !! user = None
  /\ getActiveConnectionForUser user (metadata w')
     = PoolManager.Throw
         (PoolManager.ErrorMessage
            "No active database connection found. Please select or add one.").
Proof.
  intros Huser Hrun Hstatus.
  assert (Hnone : active_connections user (metadata w') = []
                  /\ count_connections user (metadata w') = count_connections user (metadata w)
                  /\ PoolManager.pools (poolManager w') !! user = None).
  { destruct (body_connectionId req) as [connectionId|] eqn:Hid.
    - assert (Hnot : status res <> 400) by (rewrite Hstatus; discriminate).
      destruct (switchConnection_run _ _ _ _ _ _ Huser Hid Hrun Hnot) as [-> Hres].
      cbn [metadata poolManager].
      split; [| split; [apply count_connections_switched | apply lookup_closePool]].
      apply length_zero_iff_nil. rewrite active_after_switch.
      rewrite Hstatus in Hres.
      destruct (Nat.eqb (snd (switched connectionId user (metadata w))) 0) eqn:E;
        [now apply Nat.eqb_eq in E | discriminate].
    - unfold switchConnection in Hrun. rewrite Huser, Hid in Hrun.
      injection Hrun as <- _. discriminate. }
  destruct Hnone as (Hactive & Hcount & Hpool).
  repeat split; try assumption.
  now rewrite getActiveConnectionForUser_active, Hactive.
Qed.

(** X25.  After a [switchConnection] that answers 200, the connection that
    [getActiveConnectionForUser] resolves for the tenant is one of the
    tenant's own rows with the id that was asked for, and the tenant has no
    pool left, so that the next [getPool] is built from that connection. *)
Theorem switchConnection_then_active_lookup (user : string) (connectionId : nat)
    (req : AuthRequest) (w w' : World) (res : Response) :
  userId req = Some user ->
  body_connectionId req = Some connectionId ->
  switchConnection req w = (res, w') ->
  status res = 200 ->
  PoolManager.pools (poolManager w') !! user = None
  /\ exists r,
       In r (user_connections (metadata w))
       /\ user_id r = user /\ id r = connectionId
       /\ getActiveConnectionForUser user (metadata w') = PoolManager.Ok (encrypted_url r).
Proof.
  intros Huser Hid Hrun Hstatus.
  assert (Hnot : status res <> 400) by (rewrite Hstatus; discriminate).
  destruct (switchConnection_run _ _ _ _ _ _ Huser Hid Hrun Hnot) as [-> Hres].
  cbn [metadata poolManager]. split; [apply lookup_closePool |].
  rewrite Hstatus, rowCount_switched in Hres.
  rewrite getActiveConnectionForUser_active.
  unfold active_connections. rewrite connections_of_switched.
  assert (Hown : forall r, In r (connections_of user (metadata w)) ->
                   In r (user_connections (metadata w)) /\ user_id r = user).
  { intros r Hr. apply List.filter_In in Hr as [Hr Howner].
    now apply String.eqb_eq in Howner. }
  induction (connections_of user (metadata w)) as [|r rows IH]; simpl in *;
    [discriminate |].
  destruct (Nat.eqb (id r) connectionId) eqn:E; simpl.
  - apply Nat.eqb_eq in E. destruct (Hown r (or_introl eq_refl)) as [Hin Howner].
    now exists r.
  - apply IH; [exact Hres | intros r' Hr'; apply Hown; now right].
Qed.

(** *** From a stored connection to its pool *)

Lemma encrypt_then_decrypt {A : Vault.Aead} {AC : Vault.AeadCorrect A}
    (KEY iv : Vault.Buffer) (s token : string) :
  length KEY = 32 -> length iv = Vault.IV_LENGTH ->
  Vault.encrypt KEY iv s = Some token -> Vault.decrypt KEY token = Some s.
Proof.
  intros HK Hiv. unfold Vault.encrypt. rewrite (Vault.init_ok _ _ HK Hiv).
  intros [= <-].
  rewrite (VaultFacts.decrypt_fields KEY _ _ _ _ [] (VaultFacts.split_token _ _ _)).
  rewrite !VaultFacts.from_hex_toString_hex, (Vault.init_ok _ _ HK Hiv),
    Vault.tag_ok, VaultFacts.toString_hex_even, Vault.verify_ok, Vault.decrypt_ok.
  simpl. now rewrite string_of_list_byte_of_string.
Qed.

Lemma addConnection_stored_token {A : Vault.Aead} {AC : Vault.AeadCorrect A}
    (KEY iv : Vault.Buffer) (user url : string) (req : AuthRequest) (w w' : World)
    (res : Response) :
  length KEY = 32 -> length iv = Vault.IV_LENGTH ->
  userId req = Some user -> body_url req = Some url ->
  addConnection KEY req iv w = (res, w') -> status res = 201 ->
  exists row,
    user_connections (metadata w') = (user_connections (metadata w) ++ [row])%list
    /\ user_id row = user
    /\ Vault.decrypt KEY (encrypted_url row) = Some url.
Proof.
  intros HK Hiv Huser Hurl Hadd Hstatus. unfold addConnection in Hadd.
  rewrite Huser, Hurl in Hadd.
  destruct (negb (Js.truthy user)); [injection Hadd as <- _; discriminate |].
  destruct (Nat.leb 5 _); [injection Hadd as <- _; discriminate |].
  destruct (Vault.encrypt KEY iv url) as [token|] eqn:Hencrypt;
    [| injection Hadd as <- _; discriminate].
  injection Hadd as _ <-. eexists. split; [reflexivity |]. split; [reflexivity |].
  cbn [encrypted_url]. now apply encrypt_then_decrypt with (iv := iv).
Qed.

(** X23.  A connection saved by [addConnection] with a non-empty URL, and
    its first use by [getPool] for the tenant.  If the URL goes to the
    Postgres branch, or is one from which the MySQL driver makes a pool,
    [getPool] given the stored token builds a pool from exactly the URL that
    was submitted, a MySQL adapter if the URL begins with [mysql] in any
    letter case and a Postgres pool otherwise, and stores it under the
    tenant's id.  If the URL begins with [mysql] and [mysql.createPool]
    throws on it, the connection was saved all the same, and [getPool]
    throws the exception of the driver and stores nothing. *)
Theorem stored_connection_opens {A : Vault.Aead} {AC : Vault.AeadCorrect A}
    {D : PoolManager.MysqlDriver}
    (KEY iv : Vault.Buffer) (user url : string) (req : AuthRequest) (w w' : World)
    (res : Response) :
  length KEY = 32 -> length iv = Vault.IV_LENGTH ->
  userId req = Some user -> body_url req = Some url -> url <> "" ->
  addConnection KEY req iv w = (res, w') -> status res = 201 ->
  exists row,
    user_connections (metadata w') = (user_connections (metadata w) ++ [row])%list
    /\ user_id row = user
    /\ forall m,
         PoolManager.pools m !! user = None ->
         (PoolManager.accepted url ->
          exists h,
            PoolManager.getPool KEY user (encrypted_url row) m
            = (PoolManager.Ok h,
               {| PoolManager.pools := <[user := h]> (PoolManager.pools m);
                  PoolManager.allocated := S (PoolManager.allocated m) |})
            /\ PoolManager.identity h = PoolManager.allocated m
            /\ PoolManager.object h
               = if Js.startsWith (Js.toLowerCase url) "mysql"
                 then PoolManager.MysqlAdapter url
                 else PoolManager.PgPool
                        {| PoolManager.connectionString := url;
                           PoolManager.ssl_rejectUnauthorized := false;
                           PoolManager.max := 10;
                           PoolManager.idleTimeoutMillis := 30000;
                           PoolManager.connectionTimeoutMillis := 5000 |}
                        [PoolManager.LogAndClosePool user])
         /\ (forall e,
               Js.startsWith (Js.toLowerCase url) "mysql" = true ->
               PoolManager.createPool url = Some e ->
               PoolManager.getPool KEY user (encrypted_url row) m = (PoolManager.Throw e, m)).
Proof.
  intros HK Hiv Huser Hurl Hnonempty Hadd Hstatus.
  destruct (addConnection_stored_token KEY iv user url req w w' res
              HK Hiv Huser Hurl Hadd Hstatus) as (row & Hrows & Howner & Hdecrypt).
  exists row. split; [exact Hrows |]. split; [exact Howner |].
  intros m Hnone. unfold PoolManager.getPool, PoolManager.accepted.
  rewrite Hnone, Hdecrypt.
  destruct url as [|c url]; [congruence |]. cbn [Js.truthy negb].
  destruct (Js.startsWith _ _); split.
  - intros Haccepted. rewrite (Haccepted eq_refl).
    eexists. split; [reflexivity |]. split; reflexivity.
  - intros e _ Hthrown. now rewrite Hthrown.
  - intros _. eexists. split; [reflexivity |]. split; reflexivity.
  - intros e Hmysql. discriminate Hmysql.
Qed.

(** X24.  [addConnection] does not look at the URL it stores: an empty URL
    is encrypted and saved like any other, and then every first use of the
    stored token makes [getPool] throw its own error and store nothing. *)
Theorem empty_url_is_stored_but_never_opens {A : Vault.Aead} {AC : Vault.AeadCorrect A}
    {D : PoolManager.MysqlDriver}
    (KEY iv : Vault.Buffer) (user : string) (req : AuthRequest) (w w' : World)
    (res : Response) :
  length KEY = 32 -> length iv = Vault.IV_LENGTH ->
  userId req = Some user -> body_url req = Some "" ->
  addConnection KEY req iv w = (res, w') -> status res = 201 ->
  exists row,
    user_connections (metadata w') = (user_connections (metadata w) ++ [row])%list
    /\ user_id row = user
    /\ forall m,
         PoolManager.pools m !! user = None ->
         PoolManager.getPool KEY user (encrypted_url row) m
         = (PoolManager.Throw
              (PoolManager.ErrorMessage
                 ("Failed to decrypt connection string for user " +:+ user
                  +:+ ". Result is not a string.")), m).
Proof.
  intros HK Hiv Huser Hurl Hadd Hstatus.
  destruct (addConnection_stored_token KEY iv user "" req w w' res
              HK Hiv Huser Hurl Hadd Hstatus) as (row & Hrows & Howner & Hdecrypt).
  exists row. split; [exact Hrows |]. split; [exact Howner |].
  intros m Hnone. unfold PoolManager.getPool. now rewrite Hnone, Hdecrypt.
Qed.

Lemma addConnection_inserted {A : Vault.Aead} (KEY iv : Vault.Buffer) (user url : string)
    (req : AuthRequest) (w w' : World) (res : Response) :
  userId req = Some user -> body_url req = Some url ->
  addConnection KEY req iv w = (res, w') -> status res = 201 ->
  exists token,
    Vault.encrypt KEY iv url = Some token
    /\ metadata w' = insert_connection user (body_label req) token
                       (Nat.eqb (count_connections user (metadata w)) 0) (metadata w).
Proof.
  intros Huser Hurl Hadd Hstatus. unfold addConnection in Hadd.
  rewrite Huser, Hurl in Hadd.
  destruct (negb (Js.truthy user)); [injection Hadd as <- _; discriminate |].
  destruct (Nat.leb 5 _); [injection Hadd as <- _; discriminate |].
  destruct (Vault.encrypt KEY iv url) as [token|] eqn:Hencrypt;
    [| injection Hadd as <- _; discriminate].
  injection Hadd as _ <-. now exists token.
Qed.

(** X26.  Which connection the tenant's queries use after a successful
    [addConnection]: the one just added if it is the tenant's first, and
    then [getActiveConnectionForUser] resolves a token that decrypts to the
    submitted URL; otherwise the same as before the call. *)
Theorem addConnection_then_active_lookup {A : Vault.Aead} {AC : Vault.AeadCorrect A}
    (KEY iv : Vault.Buffer) (user url : string) (req : AuthRequest) (w w' : World)
    (res : Response) :
  length KEY = 32 -> length iv = Vault.IV_LENGTH ->
  userId req = Some user -> body_url req = Some url ->
  addConnection KEY req iv w = (res, w') -> status res = 201 ->
  (count_connections user (metadata w) = 0 ->
   exists token,
     getActiveConnectionForUser user (metadata w') = PoolManager.Ok token
     /\ Vault.decrypt KEY token = Some url)
  /\ (count_connections user (metadata w) <> 0 ->
      getActiveConnectionForUser user (metadata w')
      = getActiveConnectionForUser user (metadata w)).
Proof.
  intros HK Hiv Huser Hurl Hadd Hstatus.
  destruct (addConnection_inserted KEY iv user url req w w' res Huser Hurl Hadd Hstatus)
    as (token & Hencrypt & ->).
  rewrite !getActiveConnectionForUser_active. unfold active_connections.
  rewrite connections_of_insert, String.eqb_refl, List.filter_app.
  split.
  - intros Hfirst. rewrite Hfirst. cbn [Nat.eqb List.filter is_active].
    rewrite count_connections_length in Hfirst. apply length_zero_iff_nil in Hfirst.
    rewrite Hfirst. cbn [List.filter app encrypted_url].
    exists token. split; [reflexivity |]. now apply encrypt_then_decrypt with (iv := iv).
  - intros Hlater. apply Nat.eqb_neq in Hlater. rewrite Hlater.
    cbn [List.filter is_active]. now rewrite app_nil_r.
Qed.

(** *** The theorems at work *)

Definition connection_url : string := "postgres://u:p@db.example.com:5432/app".

Definition switch_request (user : string) (connectionId : nat) : AuthRequest :=
  {| userId := Some user; body_label := None; body_url := None;
     body_connectionId := Some connectionId |}.

Definition stored (id_ : nat) (user : string) (active : bool) : user_connection :=
  {| id := id_; user_id := user; label := Some "main";
     encrypted_url := PoolManagerFacts.pg_url; is_active := active |}.

(** ["alice"] has two connections, the first one active and in use;
    ["bob"] has one. *)
Definition shared_world : World :=
  {| metadata :=
       {| user_connections := [stored 1 "alice" true; stored 2 "alice" false;
                               stored 3 "bob" true];
          next_id := 4 |};
     poolManager :=
       {| PoolManager.pools := {[ "alice" := PoolManagerFacts.pg_handle 0 "alice" ]};
          PoolManager.allocated := 1 |} |}.

Definition seven_adds : list Request :=
  repeat (Add (add_request connection_url) Sample.nonce) 7.

Lemma serve_at_most_five_connections_sample :
  count_connections "alice" (metadata empty_world) <= 5
  /\ count_connections "alice"
       (metadata (serve (A := Sample.reversing) Sample.key seven_adds empty_world)) <= 5.
Proof.
  assert (H : count_connections "alice" (metadata empty_world) <= 5)
    by (vm_compute; lia).
  split; [exact H |].
  exact (serve_at_most_five_connections (A := Sample.reversing) Sample.key "alice"
           seven_adds empty_world H).
Defined.

Definition busy_day : list Request :=
  [Add (add_request connection_url) Sample.nonce;
   Add (add_request connection_url) Sample.nonce;
   Switch (switch_request "alice" 2);
   Switch (switch_request "bob" 1);
   List_ (switch_request "alice" 0);
   Switch (switch_request "alice" 1)].

Lemma serve_at_most_one_active_sample :
  unique_ids (metadata empty_world)
  /\ length (active_connections "alice" (metadata empty_world)) <= 1
  /\ length (active_connections "alice"
               (metadata (serve (A := Sample.reversing) Sample.key busy_day empty_world)))
     <= 1.
Proof.
  assert (Hids : unique_ids (metadata empty_world)) by (split; constructor).
  assert (Hone : length (active_connections "alice" (metadata empty_world)) <= 1)
    by (vm_compute; lia).
  split; [exact Hids |]. split; [exact Hone |].
  exact (serve_at_most_one_active (A := Sample.reversing) Sample.key "alice" busy_day
           empty_world Hids Hone).
Defined.

Definition switched_world : World :=
  {| metadata :=
       {| user_connections := [stored 1 "alice" false; stored 2 "alice" true;
                               stored 3 "bob" true];
          next_id := 4 |};
     poolManager := {| PoolManager.pools := ∅; PoolManager.allocated := 1 |} |}.

Definition switched_response : Response :=
  {| status := 200; json := MessageBody "Workspace switched successfully." |}.

Lemma switchConnection_effect_sample :
  switchConnection (switch_request "alice" 2) shared_world
  = (switched_response, switched_world)
  /\ PoolManager.pools (poolManager switched_world) !! "alice" = None
  /\ connections_of "alice" (metadata switched_world)
     = map (fun r => set_active (Nat.eqb (id r) 2) r)
           (connections_of "alice" (metadata shared_world))
  /\ (forall other, other <> "alice" ->
        connections_of other (metadata switched_world)
        = connections_of other (metadata shared_world))
  /\ (status switched_response = 404
      <-> forall r, In r (connections_of "alice" (metadata shared_world)) -> id r <> 2).
Proof.
  assert (Hrun : switchConnection (switch_request "alice" 2) shared_world
                 = (switched_response, switched_world)) by (vm_compute; reflexivity).
  assert (Hstatus : status switched_response = 200 \/ status switched_response = 404)
    by (left; reflexivity).
  split; [exact Hrun |].
  exact (switchConnection_effect "alice" 2 (switch_request "alice" 2) shared_world
           switched_world switched_response eq_refl eq_refl Hrun Hstatus).
Defined.

Definition deactivated_world : World :=
  {| metadata :=
       {| user_connections := [stored 1 "alice" false; stored 2 "alice" false;
                               stored 3 "bob" true];
          next_id := 4 |};
     poolManager := {| PoolManager.pools := ∅; PoolManager.allocated := 1 |} |}.

Definition not_found_response : Response :=
  {| status := 404; json := ErrorBody "Connection not found or access denied" |}.

(** ["alice"] asks for the connection of ["bob"]. *)
Lemma switchConnection_not_found_deactivates_sample :
  switchConnection (switch_request "alice" 3) shared_world
  = (not_found_response, deactivated_world)
  /\ active_connections "alice" (metadata shared_world) = [stored 1 "alice" true]
  /\ active_connections "alice" (metadata deactivated_world) = []
  /\ count_connections "alice" (metadata deactivated_world)
     = count_connections "alice" (metadata shared_world)
  /\ PoolManager.pools (poolManager deactivated_world) !! "alice" = None
  /\ getActiveConnectionForUser "alice" (metadata deactivated_world)
     = PoolManager.Throw
         (PoolManager.ErrorMessage
            "No active database connection found. Please select or add one.").
Proof.
  assert (Hrun : switchConnection (switch_request "alice" 3) shared_world
                 = (not_found_response, deactivated_world)) by (vm_compute; reflexivity).
  split; [exact Hrun |]. split; [reflexivity |].
  exact (switchConnection_not_found_deactivates "alice" (switch_request "alice" 3)
           shared_world deactivated_world not_found_response eq_refl Hrun eq_refl).
Defined.

Lemma switchConnection_then_active_lookup_sample :
  switchConnection (switch_request "alice" 2) shared_world
  = (switched_response, switched_world)
  /\ PoolManager.pools (poolManager switched_world) !! "alice" = None
  /\ exists r,
       In r (user_connections (metadata shared_world))
       /\ user_id r = "alice" /\ id r = 2
       /\ getActiveConnectionForUser "alice" (metadata switched_world)
          = PoolManager.Ok (encrypted_url r).
Proof.
  assert (Hrun : switchConnection (switch_request "alice" 2) shared_world
                 = (switched_response, switched_world)) by (vm_compute; reflexivity).
  split; [exact Hrun |].
  exact (switchConnection_then_active_lookup "alice" 2 (switch_request "alice" 2)
           shared_world switched_world switched_response eq_refl eq_refl Hrun eq_refl).
Defined.

Lemma addConnection_then_active_lookup_sample :
  length Sample.key = 32 /\ length Sample.nonce = Vault.IV_LENGTH
  /\ addConnection (A := Sample.reversing) Sample.key (add_request connection_url)
       Sample.nonce empty_world
     = ({| status := 201; json := MessageBody "Database connection saved successfully." |},
        after_first_add)
  /\ count_connections "alice" (metadata empty_world) = 0
  /\ exists token,
       getActiveConnectionForUser "alice" (metadata after_first_add) = PoolManager.Ok token
       /\ Vault.decrypt (A := Sample.reversing) Sample.key token = Some connection_url.
Proof.
  assert (HK : length Sample.key = 32) by reflexivity.
  assert (Hiv : length Sample.nonce = Vault.IV_LENGTH) by reflexivity.
  assert (Hadd : addConnection (A := Sample.reversing) Sample.key
                   (add_request connection_url) Sample.nonce empty_world
                 = ({| status := 201;
                       json := MessageBody "Database connection saved successfully." |},
                    after_first_add)) by (vm_compute; reflexivity).
  assert (Hfirst : count_connections "alice" (metadata empty_world) = 0) by reflexivity.
  split; [exact HK |]. split; [exact Hiv |]. split; [exact Hadd |]. split; [exact Hfirst |].
  exact (proj1 (addConnection_then_active_lookup (A := Sample.reversing)
                  (AC := VaultFacts.reversing_correct)
                  Sample.key Sample.nonce "alice" connection_url
                  (add_request connection_url) empty_world after_first_add _
                  HK Hiv eq_refl eq_refl Hadd eq_refl) Hfirst).
Defined.

Lemma stored_connection_opens_sample :
  length Sample.key = 32 /\ length Sample.nonce = Vault.IV_LENGTH
  /\ addConnection (A := Sample.reversing) Sample.key (add_request connection_url)
       Sample.nonce empty_world
     = ({| status := 201; json := MessageBody "Database connection saved successfully." |},
        after_first_add)
  /\ exists row,
       user_connections (metadata after_first_add)
       = (user_connections (metadata empty_world) ++ [row])%list
       /\ user_id row = "alice"
       /\ exists h,
            PoolManager.getPool (A := Sample.reversing) (D := Sample.scheme_checking)
              Sample.key "alice" (encrypted_url row) PoolManager.initial
            = (PoolManager.Ok h,
               {| PoolManager.pools := <["alice" := h]> ∅; PoolManager.allocated := 1 |})
            /\ PoolManager.object h
               = PoolManager.PgPool
                   {| PoolManager.connectionString := connection_url;
                      PoolManager.ssl_rejectUnauthorized := false;
                      PoolManager.max := 10;
                      PoolManager.idleTimeoutMillis := 30000;
                      PoolManager.connectionTimeoutMillis := 5000 |}
                   [PoolManager.LogAndClosePool "alice"].
Proof.
  assert (HK : length Sample.key = 32) by reflexivity.
  assert (Hiv : length Sample.nonce = Vault.IV_LENGTH) by reflexivity.
  assert (Hnonempty : connection_url <> "") by discriminate.
  assert (Hadd : addConnection (A := Sample.reversing) Sample.key
                   (add_request connection_url) Sample.nonce empty_world
                 = ({| status := 201;
                       json := MessageBody "Database connection saved successfully." |},
                    after_first_add)) by (vm_compute; reflexivity).
  assert (Haccepted : PoolManager.accepted (D := Sample.scheme_checking) connection_url)
    by (intros _; reflexivity).
  split; [exact HK |]. split; [exact Hiv |]. split; [exact Hadd |].
  destruct (stored_connection_opens (A := Sample.reversing)
              (AC := VaultFacts.reversing_correct) (D := Sample.scheme_checking)
              Sample.key Sample.nonce "alice" connection_url (add_request connection_url)
              empty_world after_first_add _ HK Hiv eq_refl eq_refl Hnonempty Hadd eq_refl)
    as (row & Hrows & Howner & Hopen).
  exists row. split; [exact Hrows |]. split; [exact Howner |].
  destruct (Hopen PoolManager.initial eq_refl) as [Hbuilt _].
  destruct (Hbuilt Haccepted) as (h & Hpool & _ & Hobject).
  exists h. split; [exact Hpool | exact Hobject].
Defined.

Definition after_empty_add : World :=
  snd (addConnection (A := Sample.reversing) Sample.key (add_request "") Sample.nonce
         empty_world).

Lemma empty_url_is_stored_but_never_opens_sample :
  length Sample.key = 32 /\ length Sample.nonce = Vault.IV_LENGTH
  /\ addConnection (A := Sample.reversing) Sample.key (add_request "") Sample.nonce
       empty_world
     = ({| status := 201; json := MessageBody "Database connection saved successfully." |},
        after_empty_add)
  /\ exists row,
       user_connections (metadata after_empty_add)
       = (user_connections (metadata empty_world) ++ [row])%list
       /\ user_id row = "alice"
       /\ forall m,
            PoolManager.pools m !! "alice" = None ->
            PoolManager.getPool (A := Sample.reversing) (D := Sample.scheme_checking) Sample.key "alice"
              (encrypted_url row) m
            = (PoolManager.Throw
                 (PoolManager.ErrorMessage
                    ("Failed to decrypt connection string for user " +:+ "alice"
                     +:+ ". Result is not a string.")), m).
Proof.
  assert (HK : length Sample.key = 32) by reflexivity.
  assert (Hiv : length Sample.nonce = Vault.IV_LENGTH) by reflexivity.
  assert (Hadd : addConnection (A := Sample.reversing) Sample.key (add_request "")
                   Sample.nonce empty_world
                 = ({| status := 201;
                       json := MessageBody "Database connection saved successfully." |},
                    after_empty_add)) by (vm_compute; reflexivity).
  split; [exact HK |]. split; [exact Hiv |]. split; [exact Hadd |].
  exact (empty_url_is_stored_but_never_opens (A := Sample.reversing)
           (AC := VaultFacts.reversing_correct) (D := Sample.scheme_checking)
           Sample.key Sample.nonce "alice" (add_request "") empty_world after_empty_add _
           HK Hiv eq_refl eq_refl Hadd eq_refl).
Defined.

End WorkspaceInvariants.
